(** * Section assembly of WISDEM members: a shallow embedding of
    [wisdem/commonse/cylinder_member.py].

    The development has two parts, definitions and then properties.  The
    definitions follow the data of the source: the floating-point values
    the code computes with, the [CrossSection] classes and their ghost
    transform, the section registry of [MemberComplex] (a [SortedDict] of
    heap-allocated sections), the grid refinement of
    [MemberDiscretization], the geometry checks of [DiscretizationYAML],
    the ring-stiffener, bulkhead and ballast overlays, the node arrays of
    [nodal_discretization] with their reader in [Global2MemberLoads],
    [LoadMux], and the ghost loops of [ShellMassCost] and [MemberHydro].

    Number model.  Axial positions (the keys of the registry and the grid
    points) are modelled as rationals [Q], compared with [Qcompare]; the
    section properties, which the code obtains from numpy divisions, are
    modelled as extended rationals [npfloat]: exact arithmetic on finite
    values and the IEEE special values that numpy returns, without raising,
    on a division by zero.  Rounding and signed zeros are not modelled. *)

From Stdlib Require Import QArith Qround Qabs Lqa Lia ZArith Bool.
From Stdlib Require Import List Sorting.Sorted SetoidList String.
From stdpp Require Import base list.
Import ListNotations.

Local Open Scope Q_scope.

(** ** Python outcomes *)

(** The [raise] sites of the modelled functions.  Every one of them is a
    [ValueError] in the source; the constructor records which message it
    carries.  [IndexError], [KeyError] and [AttributeError] are the errors
    Python itself raises on an index out of range, a missing key and an
    attribute access on [None]. *)
Inductive value_error : Type :=
  | SectionHeightNotPositive   (* "Section height values must be greater than zero, ..." *)
  | WallThicknessNotPositive   (* "Wall thickness values must be greater than zero, ..." *)
  | DiameterNotPositive        (* "Diameter values must be greater than zero, ..." *)
  | RectLengthNotPositive      (* "Rectangular lengths must be greater than zero, ..." *)
  | NodeBeforeStart            (* "Cannot insert node before start of list" *)
  | NotInList.                 (* list.index: "... is not in list" *)

Inductive exn : Type :=
  | ValueError (e : value_error)
  | IndexError
  | KeyError
  | AttributeError
  | DanglingReference.  (* a reference to an unallocated object: never produced by Python *)

Inductive result (A : Type) : Type :=
  | Ok (a : A)
  | Raise (e : exn).
Arguments Ok {A} a.
Arguments Raise {A} e.

#[global] Instance result_ret : MRet result := fun A a => Ok a.

#[global] Instance result_bind : MBind result := fun A B f m =>
  match m with
  | Ok a => f a
  | Raise e => Raise e
  end.

Definition of_option {A : Type} (o : option A) (e : exn) : result A :=
  match o with
  | Some a => Ok a
  | None => Raise e
  end.

(** ** numpy floats *)

Inductive npfloat : Type :=
  | Fin (q : Q)
  | PInf
  | NInf
  | NaN.

Definition Qltb (a b : Q) : bool :=
  match a ?= b with Lt => true | _ => false end.

Definition Qleb (a b : Q) : bool :=
  match a ?= b with Gt => false | _ => true end.

Definition Qeqb (a b : Q) : bool :=
  match a ?= b with Eq => true | _ => false end.

(** [x / y] on float64 operands: a zero divisor gives [nan] or a signed
    infinity (and a RuntimeWarning), never an exception. *)
Definition np_div (x y : npfloat) : npfloat :=
  match x, y with
  | NaN, _ | _, NaN => NaN
  | Fin a, Fin b =>
      if Qeqb b 0 then
        (if Qeqb a 0 then NaN else if Qltb 0 a then PInf else NInf)
      else Fin (a / b)
  | Fin _, (PInf | NInf) => Fin 0
  | (PInf | NInf), (PInf | NInf) => NaN
  | PInf, Fin b => if Qltb b 0 then NInf else PInf
  | NInf, Fin b => if Qltb b 0 then PInf else NInf
  end.

Definition np_mul (x y : npfloat) : npfloat :=
  match x, y with
  | NaN, _ | _, NaN => NaN
  | Fin a, Fin b => Fin (a * b)
  | Fin a, PInf | PInf, Fin a =>
      if Qeqb a 0 then NaN else if Qltb 0 a then PInf else NInf
  | Fin a, NInf | NInf, Fin a =>
      if Qeqb a 0 then NaN else if Qltb 0 a then NInf else PInf
  | PInf, PInf | NInf, NInf => PInf
  | PInf, NInf | NInf, PInf => NInf
  end.

Definition np_add (x y : npfloat) : npfloat :=
  match x, y with
  | NaN, _ | _, NaN => NaN
  | Fin a, Fin b => Fin (a + b)
  | PInf, NInf | NInf, PInf => NaN
  | PInf, _ | _, PInf => PInf
  | NInf, _ | _, NInf => NInf
  end.


Definition is_finite (x : npfloat) : bool :=
  match x with Fin _ => true | _ => false end.

(** ** Cross sections *)

Module XS.

(** The shape-specific attributes: [CrossSection] itself has none,
    [CircCrossSection] adds [D], [RectCrossSection] adds [a] and [b]. *)
Inductive shape : Type :=
  | Plain
  | Circ (D : npfloat)
  | Rect (a b : npfloat).

Record CrossSection : Type := mk {
  t : npfloat;
  A : npfloat; Asx : npfloat; Asy : npfloat;
  Ixx : npfloat; Iyy : npfloat; J0 : npfloat; TorsC : npfloat;
  E : npfloat; G : npfloat; rho : npfloat; sigy : npfloat;
  dims : shape
}.

(** The literals [1e-2] and [1e2]. *)
Definition c_1em2 : npfloat := Fin (1 # 100).
Definition c_1e2 : npfloat := Fin 100.

(** [CrossSection.make_ghost]. *)
Definition base_make_ghost (c : CrossSection) : CrossSection :=
  {| t := c_1em2;
     A := c_1em2; Asx := c_1em2; Asy := c_1em2;
     Ixx := c_1em2; Iyy := c_1em2; J0 := c_1em2;
     TorsC := TorsC c;
     rho := c_1em2;
     E := np_mul c_1e2 (E c); G := np_mul c_1e2 (G c);
     sigy := np_mul c_1e2 (sigy c);
     dims := dims c |}.

Definition set_dims (d : shape) (c : CrossSection) : CrossSection :=
  {| t := t c; A := A c; Asx := Asx c; Asy := Asy c;
     Ixx := Ixx c; Iyy := Iyy c; J0 := J0 c; TorsC := TorsC c;
     E := E c; G := G c; rho := rho c; sigy := sigy c;
     dims := d |}.

(** [make_ghost], dispatched on the class of the object: the subclasses
    call [super().make_ghost()] and then reset their own dimensions. *)
Definition make_ghost (c : CrossSection) : CrossSection :=
  match dims c with
  | Plain => base_make_ghost c
  | Circ _ => set_dims (Circ c_1em2) (base_make_ghost c)
  | Rect _ _ => set_dims (Rect c_1em2 c_1em2) (base_make_ghost c)
  end.

Definition set_rho (r : npfloat) (c : CrossSection) : CrossSection :=
  {| t := t c; A := A c; Asx := Asx c; Asy := Asy c;
     Ixx := Ixx c; Iyy := Iyy c; J0 := J0 c; TorsC := TorsC c;
     E := E c; G := G c; rho := r; sigy := sigy c;
     dims := dims c |}.

End XS.

Definition times100 (x : npfloat) : npfloat := np_mul XS.c_1e2 x.


(** ** The section registry of [MemberComplex]

    [self.sections] is a [SortedDict] from axial positions to section
    objects.  Sections are mutable Python objects that the registry holds
    by reference, so they live in a heap and the dictionary stores their
    addresses; the value [None] is the end marker written by
    [add_section]. *)

Definition loc : Type := nat.
Definition ref : Type := option loc.

(** A [SortedDict]: its items in ascending key order. *)
Definition SortedDict : Type := list (Q * ref).

Record MemberComplex : Type := mkMember {
  heap : list XS.CrossSection;
  sections : SortedDict
}.

(** [SortedDict()] in a process that has created no section yet. *)
Definition empty_member : MemberComplex := {| heap := []; sections := [] |}.

(** [d.keys()]. *)
Definition keys (d : SortedDict) : list Q := map fst d.

(** [s in d]. *)
Fixpoint contains (d : SortedDict) (s : Q) : bool :=
  match d with
  | [] => false
  | (k, _) :: d' => Qeqb k s || contains d' s
  end.

(** [d[s]]; [None] stands for the [KeyError] of a missing key. *)
Fixpoint getitem (d : SortedDict) (s : Q) : option ref :=
  match d with
  | [] => None
  | (k, v) :: d' => if Qeqb k s then Some v else getitem d' s
  end.

(** [d[s] = v]: the value of an existing key is replaced (the dictionary
    keeps the key object it already has), a new key is put at its place in
    the order. *)
Fixpoint setitem (d : SortedDict) (s : Q) (v : ref) : SortedDict :=
  match d with
  | [] => [(s, v)]
  | (k, w) :: d' =>
      match s ?= k with
      | Lt => (s, v) :: (k, w) :: d'
      | Eq => (k, v) :: d'
      | Gt => (k, w) :: setitem d' s v
      end
  end.

(** [d.bisect_left(s)]: the index of the first key that is not below [s],
    which on ascending keys is the number of keys below [s]. *)
Fixpoint bisect_left (d : SortedDict) (s : Q) : nat :=
  match d with
  | [] => O
  | (k, _) :: d' => if Qltb k s then S (bisect_left d' s) else O
  end.

(** A constructor call such as [CircCrossSection(...)]: a new object. *)
Definition new_section (c : XS.CrossSection) (m : MemberComplex)
  : loc * MemberComplex :=
  (length (heap m), {| heap := heap m ++ [c]; sections := sections m |}).

(** [copy.copy(v)]: [None] is returned as it is, a section is duplicated
    attribute by attribute into a new object. *)
Definition copy_copy (h : list XS.CrossSection) (v : ref)
  : result (list XS.CrossSection * ref) :=
  match v with
  | None => Ok (h, None)
  | Some l =>
      match h !! l with
      | Some c => Ok (h ++ [c], Some (length h))
      | None => Raise DanglingReference
      end
  end.

(** [MemberComplex.add_node]. *)
Definition add_node (s_new : Q) (m : MemberComplex) : result MemberComplex :=
  if contains (sections m) s_new then Ok m
  else
    let idx := (Z.of_nat (bisect_left (sections m) s_new) - 1)%Z in
    if (idx <? 0)%Z then Raise (ValueError NodeBeforeStart)
    else
      k ← of_option (keys (sections m) !! Z.to_nat idx) IndexError;
      v ← of_option (getitem (sections m) k) KeyError;
      hv ← copy_copy (heap m) v;
      Ok {| heap := hv.1; sections := setitem (sections m) s_new hv.2 |}.

(** [MemberComplex.insert_section].  [keys_orig] is a live view of the
    keys, so it is read after [add_node] has run. *)
Definition insert_section (s0 s1 : Q) (cross_section0 : loc)
    (m : MemberComplex) : result MemberComplex :=
  let idx0 := bisect_left (sections m) s0 in
  let idx1 := bisect_left (sections m) s1 in
  m1 ← add_node s1 m;
  d2 ← (if Nat.eqb idx0 idx1 then Ok (sections m1)
        else
          k ← of_option (keys (sections m1) !! idx0) IndexError;
          Ok (setitem (sections m1) k (Some cross_section0)));
  Ok {| heap := heap m1; sections := setitem d2 s0 (Some cross_section0) |}.

(** [MemberComplex.add_section]. *)
Definition add_section (s0 s1 : Q) (cross_section0 : loc)
    (m : MemberComplex) : MemberComplex :=
  {| heap := heap m;
     sections := setitem (setitem (sections m) s0 (Some cross_section0)) s1 None |}.

(** The loop of [add_main_sections] that builds the main-shell partition:
    for every [k] below [len(s_full) - 1] a section object is constructed
    and registered on [s_full[k], s_full[k+1]].  [props] lists the
    attribute values the constructor receives for each [k] (they come from
    [cs.Tube] or [cs.Rectangle], outside this file); a missing entry is the
    [IndexError] of [d_sec[k]]. *)
Fixpoint add_main_partition (s_full : list Q) (props : list XS.CrossSection)
    (m : MemberComplex) : result MemberComplex :=
  match s_full with
  | sk :: ((sk1 :: _) as rest) =>
      match props with
      | [] => Raise IndexError
      | iprop :: props' =>
          let lm := new_section iprop m in
          add_main_partition rest props' (add_section sk sk1 lm.1 lm.2)
      end
  | _ => Ok m
  end.

(** [self.sections[s].make_ghost()]: an in-place change of the object the
    key refers to, visible through every reference to it. *)
Definition ghost_at (v : ref) (h : list XS.CrossSection)
  : result (list XS.CrossSection) :=
  match v with
  | None => Raise AttributeError
  | Some l =>
      match h !! l with
      | Some c => Ok (<[l := XS.make_ghost c]> h)
      | None => Raise DanglingReference
      end
  end.

(** [for s in self.sections: if s >= s_ghost1: break; ...make_ghost()]. *)
Fixpoint ghost_below (s_ghost1 : Q) (d : SortedDict) (h : list XS.CrossSection)
  : result (list XS.CrossSection) :=
  match d with
  | [] => Ok h
  | (s, v) :: d' =>
      if Qleb s_ghost1 s then Ok h
      else h' ← ghost_at v h; ghost_below s_ghost1 d' h'
  end.

(** [for s in self.sections: if s < s_ghost2 or s == 1.0: continue;
    ...make_ghost()]. *)
Fixpoint ghost_above (s_ghost2 : Q) (d : SortedDict) (h : list XS.CrossSection)
  : result (list XS.CrossSection) :=
  match d with
  | [] => Ok h
  | (s, v) :: d' =>
      if Qltb s s_ghost2 || Qeqb s 1 then ghost_above s_ghost2 d' h
      else h' ← ghost_at v h; ghost_above s_ghost2 d' h'
  end.

(** The "Adjust for ghost sections" block of [add_main_sections]. *)
Definition adjust_ghost (s_ghost1 s_ghost2 : Q) (m : MemberComplex)
  : result MemberComplex :=
  m1 ← (if Qltb 0 s_ghost1 then
          m' ← add_node s_ghost1 m;
          h' ← ghost_below s_ghost1 (sections m') (heap m');
          Ok {| heap := h'; sections := sections m' |}
        else Ok m);
  if Qltb s_ghost2 1 then
    m' ← add_node s_ghost2 m1;
    h' ← ghost_above s_ghost2 (sections m') (heap m');
    Ok {| heap := h'; sections := sections m' |}
  else Ok m1.

(** The section a key refers to, read through the heap. *)
Definition section_at (m : MemberComplex) (s : Q) : option XS.CrossSection :=
  match getitem (sections m) s with
  | Some (Some l) => heap m !! l
  | _ => None
  end.

(** The value stored at the greatest key at or below [s]: the section of
    the interval that contains [s]. *)
Fixpoint covering (d : SortedDict) (s : Q) : option ref :=
  match d with
  | [] => None
  | (k, v) :: d' =>
      if Qleb k s then
        match covering d' s with
        | Some w => Some w
        | None => Some v
        end
      else None
  end.

(** *** Well-formed registries *)

(** The keys of a [SortedDict] are strictly ascending. *)
Fixpoint ascending (ks : list Q) : bool :=
  match ks with
  | [] => true
  | k :: ks' =>
      match ks' with
      | [] => true
      | k' :: _ => Qltb k k' && ascending ks'
      end
  end.

(** Every reference held by the registry points to an allocated object. *)
Definition allocated (m : MemberComplex) : bool :=
  forallb (fun kv : Q * ref =>
             match kv.2 with
             | Some l => Nat.ltb l (length (heap m))
             | None => true
             end) (sections m).

Definition wf (m : MemberComplex) : Prop :=
  ascending (keys (sections m)) = true /\ allocated m = true.

(** [s] lies before the start of the registry: below its first key and so,
    the keys being ascending, below every key.  A registry without keys has
    no key at or before [s] either. *)
Definition precedes_first_key (d : SortedDict) (s : Q) : Prop :=
  match keys d with
  | [] => True
  | k0 :: _ => s < k0
  end.

(** Some key of the registry is at or below [s]. *)
Definition has_key_at_or_below (d : SortedDict) (s : Q) : bool :=
  existsb (fun k => Qleb k s) (keys d).

(** The greatest key. *)
Definition last_key (d : SortedDict) : option Q := last (keys d).

(** The registry invariant: exactly one key maps to [None], the greatest
    one, and every other key maps to a section object. *)
Fixpoint terminated (d : SortedDict) : bool :=
  match d with
  | [] => false
  | (_, v) :: d' =>
      match d' with
      | [] => match v with None => true | Some _ => false end
      | _ :: _ => match v with None => false | Some _ => terminated d' end
      end
  end.

(** Every key of the registry in [s0, s1) refers to the object [l]. *)
Definition covered_by (d : SortedDict) (s0 s1 : Q) (l : loc) : Prop :=
  forall k v, In (k, v) d -> s0 <= k -> k < s1 -> v = Some l.

(** The invariant the overlays and the integrator rely on, for a registry
    whose greatest key is [kl]. *)
Definition registry_inv (kl : Q) (m : MemberComplex) : Prop :=
  wf m /\ terminated (sections m) = true /\ last_key (sections m) = Some kl.

(** The four ways [add_node] can go on a well-formed registry. *)
Inductive add_node_case (s : Q) (m : MemberComplex) : result MemberComplex -> Prop :=
  | AddNodePresent :
      contains (sections m) s = true ->
      add_node_case s m (Ok m)
  | AddNodeBeforeStart :
      contains (sections m) s = false ->
      precedes_first_key (sections m) s ->
      add_node_case s m (Raise (ValueError NodeBeforeStart))
  | AddNodeCopyNone (k : Q) :
      contains (sections m) s = false ->
      covering (sections m) s = Some None ->
      In (k, None) (sections m) -> k < s ->
      add_node_case s m
        (Ok {| heap := heap m; sections := setitem (sections m) s None |})
  | AddNodeCopySection (k : Q) (l : loc) (c : XS.CrossSection) :
      contains (sections m) s = false ->
      covering (sections m) s = Some (Some l) ->
      In (k, Some l) (sections m) -> k < s ->
      heap m !! l = Some c ->
      add_node_case s m
        (Ok {| heap := heap m ++ [c];
               sections := setitem (sections m) s (Some (length (heap m))) |}).

(** An item that holds a section object, not the end marker. *)
Definition is_section (kv : Q * ref) : Prop := kv.2 <> None.

(** ** The grid refinement of [MemberDiscretization] *)

Definition Qnat (n : nat) : Q := inject_Z (Z.of_nat n).

(** [np.linspace(start, stop, num)], with its default [endpoint=True]:
    [arange(0, num) * step + start] with [step = (stop - start) / (num - 1)],
    the last entry being set to [stop] itself. *)
Definition linspace (start stop : Q) (num : nat) : list Q :=
  match num with
  | O => []
  | S O => [start]
  | S (S _ as div) =>
      let step := (stop - start) / Qnat div in
      map (fun i => Qnat i * step + start) (seq 0 div) ++ [stop]
  end.

(** One step of [np.unique]: a value goes to its place in the ascending
    order unless an equal value is already there. *)
Fixpoint insert_unique (x : Q) (l : list Q) : list Q :=
  match l with
  | [] => [x]
  | y :: l' =>
      match x ?= y with
      | Lt => x :: y :: l'
      | Eq => y :: l'
      | Gt => y :: insert_unique x l'
      end
  end.

(** [np.unique]: the distinct values in ascending order. *)
Definition np_unique (l : list Q) : list Q := fold_right insert_unique [] l.

(** The loop of [MemberDiscretization.compute]:
    [for k in range(s_param.size - 1): s_full = np.append(s_full,
    np.linspace(s_param[k], s_param[k + 1], n_refine + 1))]. *)
Fixpoint refined_points (s_param : list Q) (n_refine : nat) : list Q :=
  match s_param with
  | a :: ((b :: _) as rest) =>
      linspace a b (n_refine + 1) ++ refined_points rest n_refine
  | _ => []
  end.

(** [s_full] of [MemberDiscretization.compute]. *)
Definition refine_grid (s_param : list Q) (n_refine : nat) : list Q :=
  np_unique (refined_points s_param n_refine).

(** [get_nfull]. *)
Definition get_nfull (npts nref : Z) : Z := (1 + nref * (npts - 1))%Z.

(** The grid the specification describes, written from its words: every
    interval [a, b] between two neighbouring control points is cut into [n]
    equal sub-intervals, and every control point is kept.  [subdivide]
    lists the left ends of the sub-intervals of one interval. *)
Definition subdivide (a b : Q) (n : nat) : list Q :=
  map (fun j => a + Qnat j * ((b - a) / Qnat n)) (seq 0 n).

Fixpoint spec_grid (s : list Q) (n : nat) : list Q :=
  match s with
  | [] => []
  | a :: rest =>
      match rest with
      | [] => [a]
      | b :: _ => subdivide a b n ++ spec_grid rest n
      end
  end.

(** ** The geometry stage: [DiscretizationYAML.compute] *)

Inductive member_shape : Type := circular | rectangular.

(** The inputs the modelled part of [compute] reads.  [h_col] is the
    distance between the two joints, [np.sqrt(np.sum(dxyz**2))], and
    [z_base] is [min(xyz0[2], xyz1[2])]; both are taken as given.  The
    option [n_height] is the declared size of [s_in]. *)
Record yaml_inputs : Type := mk_yaml_inputs {
  shape : member_shape;
  s_in : list Q;
  s_const1 : Q;
  s_const2 : Q;
  h_col : Q;
  z_base : Q;
  layer_thickness : list (list Q);
  layer_materials : list string;
  outer_diameter_in : list Q;
  side_length_a_in : list Q;
  side_length_b_in : list Q;
  material_names : list string;
  rho_mat : list Q;
  unit_cost_mat : list Q
}.

Record yaml_outputs : Type := mk_yaml_outputs {
  out_s : list Q;
  out_section_height : list Q;
  out_wall_thickness : list Q;
  out_rho : list npfloat;
  out_unit_cost : list npfloat;
  out_cross_section_xz : Q;
  out_axial_load2stress_0 : npfloat
}.

(** [np.diff]. *)
Fixpoint np_diff (l : list Q) : list Q :=
  match l with
  | x :: ((y :: _) as rest) => (y - x) :: np_diff rest
  | _ => []
  end.

(** [0.5 * (x[:-1] + x[1:])]. *)
Fixpoint midpoints (l : list Q) : list Q :=
  match l with
  | x :: ((y :: _) as rest) => ((1 # 2) * (x + y)) :: midpoints rest
  | _ => []
  end.

(** Elementwise sum of two arrays of the same length. *)
Fixpoint vec_add (u v : list Q) : list Q :=
  match u, v with
  | x :: u', y :: v' => (x + y) :: vec_add u' v'
  | _, _ => []
  end.

(** [np.sum(rows, axis=0)] for rows of [ncols] entries. *)
Definition sum_axis0 (ncols : nat) (rows : list (list Q)) : list Q :=
  fold_right vec_add (repeat 0 ncols) rows.

(** [np.any(x <= 0.0)]. *)
Definition any_nonpositive (x : list Q) : bool :=
  existsb (fun v => Qleb v 0) x.

(** [np.where(cond)[0][0]] and [np.where(cond)[0][-1]]: the first and the
    last index at which the condition holds. *)
Fixpoint first_index (p : Q -> bool) (l : list Q) : option nat :=
  match l with
  | [] => None
  | x :: l' => if p x then Some O else S <$> first_index p l'
  end.

Fixpoint last_index (p : Q -> bool) (l : list Q) : option nat :=
  match l with
  | [] => None
  | x :: l' =>
      match last_index p l' with
      | Some i => Some (S i)
      | None => if p x then Some O else None
      end
  end.

(** The grid after the two "constant section" adjustments. *)
Definition yaml_s_param (inp : yaml_inputs) : result (list Q) :=
  let n_height := length (s_in inp) in
  let s0 := s_const1 inp in
  let s1 := s_const2 inp in
  s_param ←
    (if Qltb 0 s0 then
       icheck ← of_option
         (first_index (fun x => Qltb (s0 + (1 # 1000)) x) (s_in inp)) IndexError;
       x ← of_option (s_in inp !! icheck) IndexError;
       Ok ([0] ++ linspace s0 x icheck ++ drop (icheck + 1) (s_in inp))
     else Ok (s_in inp));
  if Qltb 0 s1 then
    icheck ← of_option
      (last_index (fun x => Qltb x (s1 - (1 # 1000))) s_param) IndexError;
    x ← of_option (s_param !! icheck) IndexError;
    Ok (take (icheck + 1) s_param
          ++ rev (linspace s1 x (n_height - icheck - 1)) ++ [1])
  else Ok s_param.

(** [outputs["section_height"]] and [outputs["wall_thickness"]]. *)
Definition yaml_section_height (inp : yaml_inputs) (s_param : list Q) : list Q :=
  np_diff (map (fun s => h_col inp * s) s_param).

Definition yaml_lthick (inp : yaml_inputs) : list (list Q) :=
  map midpoints (layer_thickness inp).

Definition yaml_wall_thickness (inp : yaml_inputs) : list Q :=
  sum_axis0 (length (s_in inp) - 1) (yaml_lthick inp).

(** The outer dimensions that the shape of the member has. *)
Definition yaml_outer_dimensions (inp : yaml_inputs) : list Q :=
  match shape inp with
  | circular => outer_diameter_in inp
  | rectangular => side_length_a_in inp ++ side_length_b_in inp
  end.

(** "Check to make sure we have good values". *)
Definition yaml_checks (inp : yaml_inputs) (s_param : list Q) : result unit :=
  if any_nonpositive (yaml_section_height inp s_param)
  then Raise (ValueError SectionHeightNotPositive)
  else if any_nonpositive (yaml_wall_thickness inp)
  then Raise (ValueError WallThicknessNotPositive)
  else
    match shape inp with
    | circular =>
        if any_nonpositive (outer_diameter_in inp)
        then Raise (ValueError DiameterNotPositive) else Ok ()
    | rectangular =>
        if any_nonpositive (side_length_a_in inp)
           || any_nonpositive (side_length_b_in inp)
        then Raise (ValueError RectLengthNotPositive) else Ok ()
    end.

(** [mat_names.index(iname)]. *)
Fixpoint list_index (names : list string) (iname : string) : option nat :=
  match names with
  | [] => None
  | n :: names' =>
      if String.eqb n iname then Some O else S <$> list_index names' iname
  end.

(** The loop "associate it with its thickness", for the two accumulators
    [rho_param] and [cost_param]; [k] counts the layers. *)
Fixpoint yaml_layers (inp : yaml_inputs) (twall : list (list Q))
    (layer_mat : list string) (k : nat) (acc : list Q * list Q)
  : result (list Q * list Q) :=
  match layer_mat with
  | [] => Ok acc
  | iname :: layer_mat' =>
      imat ← of_option (list_index (material_names inp) iname)
                       (ValueError NotInList);
      rho_i ← of_option (rho_mat inp !! imat) IndexError;
      twall_k ← of_option (twall !! k) IndexError;
      let imass := map (fun t => rho_i * t) twall_k in
      cost_i ← of_option (unit_cost_mat inp !! imat) IndexError;
      yaml_layers inp twall layer_mat' (S k)
        (vec_add acc.1 imass,
         vec_add acc.2 (map (fun x => x * cost_i) imass))
  end.

(** Elementwise [u / v], as numpy divides. *)
Fixpoint vec_div (u v : list Q) : list npfloat :=
  match u, v with
  | x :: u', y :: v' => np_div (Fin x) (Fin y) :: vec_div u' v'
  | _, _ => []
  end.

(** [np.trapz(y, x)]. *)
Fixpoint np_trapz (y x : list Q) : Q :=
  match y, x with
  | y0 :: ((y1 :: _) as y'), x0 :: ((x1 :: _) as x') =>
      (x1 - x0) * (y1 + y0) / 2 + np_trapz y' x'
  | _, _ => 0
  end.

(** [DiscretizationYAML.compute], up to the outputs listed in
    [yaml_outputs].  The statement [breakpoint()] that guards a zero
    [cross_section_xz] stops in the debugger and raises nothing; the
    division that follows it is executed in either case. *)
Definition yaml_compute (inp : yaml_inputs) : result yaml_outputs :=
  let n_height := length (s_in inp) in
  s_param ← yaml_s_param inp;
  let section_height := yaml_section_height inp s_param in
  let wall_thickness := yaml_wall_thickness inp in
  let twall := yaml_lthick inp in
  _ ← yaml_checks inp s_param;
  acc ← yaml_layers inp twall (layer_materials inp) O
         (repeat 0 (n_height - 1), repeat 0 (n_height - 1));
  let cost_param := vec_div acc.2 acc.1 in
  let rho_param := vec_div acc.1 (sum_axis0 (n_height - 1) twall) in
  let z_param := map (fun s => z_base inp + h_col inp * s) s_param in
  let z := midpoints z_param in
  let cross_section_xz :=
    if Nat.eqb (length z) 1
    then 2 * np_trapz (map (fun _ => hd 0 wall_thickness) z_param) z_param
    else 2 * np_trapz wall_thickness z in
  Ok {| out_s := s_param;
        out_section_height := section_height;
        out_wall_thickness := wall_thickness;
        out_rho := rho_param;
        out_unit_cost := cost_param;
        out_cross_section_xz := cross_section_xz;
        out_axial_load2stress_0 := np_div (Fin 1) (Fin cross_section_xz) |}.

(** The errors of the geometry check. *)
Definition invalid_geometry (e : exn) : bool :=
  match e with
  | ValueError (SectionHeightNotPositive | WallThicknessNotPositive
                | DiameterNotPositive | RectLengthNotPositive) => true
  | _ => false
  end.

(** ** Ring stiffeners: [add_ring_stiffener_sections] up to the intervals *)

(** [(np.arange(1, n_stiff + 0.1) - 0.5) * L_stiffener], restricted to the
    positions strictly between the two ghost limits.  A zero spacing means
    no stiffener at all (the function returns at once). *)
Definition stiffener_candidates (L_stiffener s_ghost1 s_ghost2 : Q) : list Q :=
  let n_stiff := if Qeqb L_stiffener 0 then 0%Z else Qfloor (1 / L_stiffener) in
  let s_stiff :=
    map (fun k => (Qnat k - (1 # 2)) * L_stiffener) (seq 1 (Z.to_nat n_stiff)) in
  filter (fun s => Qltb s s_ghost2) (filter (fun s => Qltb s_ghost1 s) s_stiff).

(** [np.any(np.abs(s_bulk - s) <= tol)]. *)
Definition collides (s_bulk : list Q) (tol s : Q) : bool :=
  existsb (fun b => Qleb (Qabs (b - s)) tol) s_bulk.

(** [while np.any(np.abs(s_bulk - s) <= tol) and s > tol: s -= tol], run
    for at most [fuel] turns; [None] when the loop is still running then. *)
Fixpoint nudge (fuel : nat) (s_bulk : list Q) (tol s : Q) : option Q :=
  if collides s_bulk tol s && Qltb tol s then
    match fuel with
    | O => None
    | S fuel' => nudge fuel' s_bulk tol (s - tol)
    end
  else Some s.

(** The [for] loop over the candidates. *)
Fixpoint nudge_all (fuel : nat) (s_bulk : list Q) (tol : Q) (s_stiff : list Q)
  : option (list Q) :=
  match s_stiff with
  | [] => Some []
  | s :: rest =>
      s' ← nudge fuel s_bulk tol s;
      rest' ← nudge_all fuel s_bulk tol rest;
      Some (s' :: rest')
  end.

(** The two [if] statements that clip the first and the last interval. *)
Definition clip_flanges (tol : Q) (s0 s1 : list Q) : result (list Q * list Q) :=
  first ← of_option (s0 !! 0%nat) IndexError;
  let s01 := if Qltb first 0
             then (<[0%nat := 0]> s0, <[0%nat := tol]> s1)
             else (s0, s1) in
  lst ← of_option (last s01.2) IndexError;
  if Qltb 1 lst
  then Ok (<[(length s01.1 - 1)%nat := 1 - tol]> s01.1,
           <[(length s01.2 - 1)%nat := 1]> s01.2)
  else Ok s01.

(** Positions and flange intervals of the ring stiffeners: [s_stiff], [s0]
    and [s1] at the point where the sections are inserted.  [w_flange / L]
    is the flange width over the member length [L], which the geometry
    stage has checked to be positive. *)
Definition ring_stiffener_intervals (fuel : nat)
    (L_stiffener s_ghost1 s_ghost2 w_flange L : Q) (s_bulk : list Q)
  : option (result (list Q * list Q * list Q)) :=
  let n_stiff := if Qeqb L_stiffener 0 then 0%Z else Qfloor (1 / L_stiffener) in
  if Z.eqb n_stiff 0 then Some (Ok ([], [], []))
  else
    let tol := w_flange / L in
    s_stiff ← nudge_all fuel s_bulk tol
                (stiffener_candidates L_stiffener s_ghost1 s_ghost2);
    let s0 := map (fun s => s - (1 # 2) * w_flange / L) s_stiff in
    let s1 := map (fun s => s + (1 # 2) * w_flange / L) s_stiff in
    Some (s01 ← clip_flanges tol s0 s1; Ok (s_stiff, s01.1, s01.2)).



(** ** Ballast: [add_circular_ballast_sections] *)

Record ballast_outputs : Type := mk_ballast_outputs {
  out_ballast_mass : Q;
  out_V_avail : list Q;
  out_constr_ballast_capacity : list npfloat
}.

(** [self.sections[s].rho += dm / self.sections[s].A / H] on the object
    that [v] refers to. *)
Definition augment_rho (dm H : Q) (v : ref) (h : list XS.CrossSection)
  : result (list XS.CrossSection) :=
  match v with
  | None => Raise AttributeError
  | Some l =>
      match h !! l with
      | Some c =>
          let rho' := np_add (XS.rho c) (np_div (np_div (Fin dm) (XS.A c)) (Fin H)) in
          Ok (<[l := XS.set_rho rho' c]> h)
      | None => Raise DanglingReference
      end
  end.

(** [for s in self.sections: if s >= s0 and s < s1: ...rho += ...]. *)
Fixpoint augment_density (s0 s1 dm H : Q) (d : SortedDict)
    (h : list XS.CrossSection) : result (list XS.CrossSection) :=
  match d with
  | [] => Ok h
  | (s, v) :: d' =>
      if Qleb s0 s && Qltb s s1
      then h' ← augment_rho dm H v h; augment_density s0 s1 dm H d' h'
      else augment_density s0 s1 dm H d' h
  end.

(** [np.minimum] on two scalars. *)
Definition np_minimum (a b : Q) : Q := if Qleb a b then a else b.

Definition Qsum (l : list Q) : Q := fold_right Qplus 0 l.

Section Ballast.

(** Numerical routines that live outside this file: [np.interp(x, xp, fp)],
    [util.sectionalInterp(xi, x, y)] and [frustum.frustumVol(rb, rt, h)],
    all three on arrays. *)
Variable np_interp : list Q -> list Q -> list Q -> list Q.
Variable sectionalInterp : list Q -> list Q -> list Q -> list Q.
Variable frustumVol : list Q -> list Q -> list Q -> list Q.

(** The grid inputs of the member. *)
Variables (s_full z_full outer_diameter_full t_full : list Q).
Variables (s_ghost1 s_ghost2 : Q).

(** "Move away from ghost regions", for one bound of a segment. *)
Definition shift_ballast (s : Q) : Q := np_minimum (s + s_ghost1) s_ghost2.

(** The available volume of the segment [s0, s1], integrated over ten
    points, together with the height [H] of the segment. *)
Definition ballast_space (s0 s1 : Q) : result (Q * Q) :=
  let sinterp := linspace s0 s1 10 in
  let zpts := np_interp sinterp s_full z_full in
  z_last ← of_option (last zpts) IndexError;
  z_first ← of_option (zpts !! 0%nat) IndexError;
  let H := z_last - z_first in
  let R_od := map (fun d => (1 # 2) * d) outer_diameter_full in
  let R_od_pts := np_interp sinterp s_full R_od in
  let twall_pts := sectionalInterp sinterp s_full t_full in
  let R_id_pts := zip_with Qminus R_od_pts twall_pts in
  let V_pts := frustumVol (removelast R_id_pts) (tail R_id_pts) (np_diff zpts) in
  Ok (Qsum V_pts, H).

(** The loop over the ballast segments, for what it leaves in the
    registry and in [V_avail].  The mass properties of the permanent
    ballast (its centre of gravity and inertia) are array arithmetic on the
    results of the frustum library and are not part of this model. *)
Fixpoint ballast_loop (s_ballast : list (Q * Q)) (rho_ballast V_ballast : list Q)
    (m : MemberComplex) : result (list Q * MemberComplex) :=
  match V_ballast with
  | [] => Ok ([], m)
  | Vb :: V_ballast' =>
      seg ← of_option (s_ballast !! 0%nat) IndexError;
      rho_b ← of_option (rho_ballast !! 0%nat) IndexError;
      let s0 := shift_ballast seg.1 in
      let s1 := shift_ballast seg.2 in
      VH ← ballast_space s0 s1;
      h' ← augment_density s0 s1 (rho_b * Vb) VH.2 (sections m) (heap m);
      rest ← ballast_loop (tail s_ballast) (tail rho_ballast) V_ballast'
                {| heap := h'; sections := sections m |};
      Ok (VH.1 :: rest.1, rest.2)
  end.

(** [add_circular_ballast_sections].  Without any ballast segment the
    function returns at once and the outputs keep their initial zeros. *)
Definition add_circular_ballast_sections (s_ballast : list (Q * Q))
    (rho_ballast V_ballast : list Q) (m : MemberComplex)
  : result (ballast_outputs * MemberComplex) :=
  match V_ballast with
  | [] => Ok ({| out_ballast_mass := 0; out_V_avail := [];
                 out_constr_ballast_capacity := [] |}, m)
  | _ :: _ =>
      let m_ballast := zip_with Qmult rho_ballast V_ballast in
      r ← ballast_loop s_ballast rho_ballast V_ballast m;
      Ok ({| out_ballast_mass := Qsum m_ballast;
             out_V_avail := r.1;
             out_constr_ballast_capacity := vec_div V_ballast r.1 |}, r.2)
  end.

End Ballast.

(** ** Further notions on the registry *)

(** The section objects the registry refers to, in key order. *)
Definition section_refs (d : SortedDict) : list loc := omap snd d.

(** The items the loop of [add_main_sections] leaves for a grid [s], when
    the first section object it creates gets the address [i]: every grid
    point but the last refers to its own new object, the last point carries
    the end marker. *)
Fixpoint partition_items (i : nat) (s : list Q) : SortedDict :=
  match s with
  | [] => []
  | x :: rest =>
      match rest with
      | [] => [(x, None)]
      | _ :: _ => (x, Some i) :: partition_items (S i) rest
      end
  end.

(** An in-place change [f] of the object a key refers to, and the loop
    that applies it at every key selected by [sel]: the common shape of the
    three loops "for s in self.sections: if ...: self.sections[s]...". *)
Definition update_at (f : XS.CrossSection -> XS.CrossSection) (v : ref)
    (h : list XS.CrossSection) : result (list XS.CrossSection) :=
  match v with
  | None => Raise AttributeError
  | Some l =>
      match h !! l with
      | Some c => Ok (<[l := f c]> h)
      | None => Raise DanglingReference
      end
  end.

Fixpoint update_where (sel : Q -> bool)
    (f : XS.CrossSection -> XS.CrossSection) (d : SortedDict)
    (h : list XS.CrossSection) : result (list XS.CrossSection) :=
  match d with
  | [] => Ok h
  | (s, v) :: d' =>
      if sel s
      then h' ← update_at f v h; update_where sel f d' h'
      else update_where sel f d' h
  end.

(** The density a section has after ballast of mass [dm] over the height
    [H] was added to it. *)
Definition with_ballast (dm H : Q) (c : XS.CrossSection) : XS.CrossSection :=
  XS.set_rho
    (np_add (XS.rho c) (np_div (np_div (Fin dm) (XS.A c)) (Fin H))) c.

(** ** Padded arrays and [nodal_discretization] *)

(** The [ValueError]s that numpy raises on shapes: "could not broadcast
    input array from shape ... into shape ..." on a slice assignment,
    "operands could not be broadcast together with shapes ..." on an
    elementwise operation, and "cannot reshape array of size ... into
    shape ...". *)
Inductive numpy_error : Type :=
  | CouldNotBroadcast
  | OperandsNotBroadcast
  | CannotReshape.

Inductive failure : Type :=
  | Python (e : exn)
  | Numpy (e : numpy_error).

Inductive outcome (A : Type) : Type :=
  | Done (a : A)
  | Failed (f : failure).
Arguments Done {A} a.
Arguments Failed {A} f.

#[global] Instance outcome_ret : MRet outcome := fun A a => Done a.

#[global] Instance outcome_bind : MBind outcome := fun A B f m =>
  match m with
  | Done a => f a
  | Failed e => Failed e
  end.

Definition lift {A : Type} (r : result A) : outcome A :=
  match r with
  | Ok a => Done a
  | Raise e => Failed (Python e)
  end.

(** The constants [NULL] and [MEMMAX]. *)
Definition NULL : Q := -9999.
Definition MEMMAX : nat := 200.

(** [out = NULL * np.ones(MEMMAX); out[:x.size] = x]. *)
Definition store_padded (x : list Q) : outcome (list Q) :=
  if Nat.leb (length x) MEMMAX
  then Done (x ++ repeat NULL (MEMMAX - length x))
  else Failed (Numpy CouldNotBroadcast).

(** [nnode = np.where(s_all == NULL)[0][0]; s_grid = s_all[:nnode]] of
    [Global2MemberLoads.compute]. *)
Definition read_padded (s_all : list Q) : result (list Q) :=
  nnode ← of_option (first_index (fun v => Qeqb v NULL) s_all) IndexError;
  Ok (take nnode s_all).

(** [np.round(x, 6)] in exact arithmetic: the nearest multiple of 1e-6,
    a tie going to the even one. *)
Definition np_round6 (x : Q) : Q :=
  let y := x * 1000000 in
  let f := Qfloor y in
  let n := match y - inject_Z f ?= 1 # 2 with
           | Lt => f
           | Gt => (f + 1)%Z
           | Eq => if Z.even f then f else (f + 1)%Z
           end in
  inject_Z n / 1000000.

(** [np.unique(x, return_index=True)[1]]: for every distinct value, in
    ascending order, the index of its first occurrence. *)
Definition unique_index (x : list Q) : list nat :=
  omap (fun v => first_index (fun y => Qeqb y v) x) (np_unique x).

(** [for s in s_axial: self.add_node(s)]. *)
Fixpoint add_nodes (s_axial : list Q) (m : MemberComplex)
  : result MemberComplex :=
  match s_axial with
  | [] => Ok m
  | s :: rest => m' ← add_node s m; add_nodes rest m'
  end.

(** The attribute reads [self.sections[s].D], or [.a] and [.b], that the
    shape of the member asks for: they exist on an object of the matching
    class only. *)
Definition has_shape_attributes (sh : member_shape) (c : XS.CrossSection)
  : bool :=
  match sh, XS.dims c with
  | circular, XS.Circ _ => true
  | rectangular, XS.Rect _ _ => true
  | _, _ => false
  end.

(** The loop [for k, s in enumerate(s_grid)] that writes the section
    properties.  The thirteen output arrays [section_t], [section_A], ...
    are written together, entry [k] from the one object at [s]; [rows]
    holds them as one array, [None] standing for an entry that is [NULL] in
    all of them.  [make_float] leaves the value of an attribute as it
    is. *)
Fixpoint write_sections (sh : member_shape) (s_last : Q) (k : nat)
    (s_grid : list Q) (m : MemberComplex)
    (rows : list (option XS.CrossSection))
  : result (list (option XS.CrossSection)) :=
  match s_grid with
  | [] => Ok rows
  | s :: rest =>
      if Qeqb s s_last then write_sections sh s_last (S k) rest m rows
      else
        v ← of_option (getitem (sections m) s) KeyError;
        l ← of_option v AttributeError;
        c ← of_option (heap m !! l) DanglingReference;
        if has_shape_attributes sh c
        then write_sections sh s_last (S k) rest m (<[k := Some c]> rows)
        else Raise AttributeError
  end.

Record nodal_outputs : Type := mk_nodal_outputs {
  out_s_all : list Q;
  out_sections : list (option XS.CrossSection)
}.

(** [nodal_discretization], for the registry, [s_all] and the section
    arrays.  The node coordinates, the node radii and the centre of mass
    are array arithmetic and interpolation on inputs of a declared,
    positive size; they are not part of this model.  The loop over the
    sections runs after [s_all] was stored, so its index [k] is below
    [MEMMAX]. *)
Definition nodal_discretization (sh : member_shape) (s_axial : list Q)
    (m : MemberComplex) : outcome (nodal_outputs * MemberComplex) :=
  m1 ← lift (add_nodes s_axial m);
  let s_keys := keys (sections m1) in
  let idx := unique_index (map np_round6 s_keys) in
  let s_grid := omap (fun i => s_keys !! i) idx in
  s_all ← store_padded s_grid;
  rows ← lift (match last s_grid with
               | None => Ok (repeat None MEMMAX)
               | Some s_last =>
                   write_sections sh s_last 0 s_grid m1 (repeat None MEMMAX)
               end);
  Done ({| out_s_all := s_all; out_sections := rows |}, m1).

(** ** [LoadMux.compute] *)

(** One of the four outputs of [LoadMux.compute]: the arrays of the load
    cases are appended to one array, which is reshaped to [n_dlc] rows and
    transposed.  [inputs] holds the arrays [lc:Px] (or [lc1:Px],
    [lc2:Px], ...), one per load case.  Without a load case the
    accumulator is still the Python list it started as, which has no
    [reshape]. *)
Definition load_mux (inputs : list (list Q)) : outcome (list (list Q)) :=
  let n_dlc := length inputs in
  let flat := concat inputs in
  match n_dlc with
  | O => Failed (Python AttributeError)
  | S _ =>
      if Nat.eqb (length flat mod n_dlc) 0 then
        let cols := (length flat / n_dlc)%nat in
        Done (map (fun i =>
                     map (fun k => nth (k * cols + i) flat 0) (seq 0 n_dlc))
                  (seq 0 cols))
      else Failed (Numpy CannotReshape)
  end.

(** ** Bulkheads: [add_bulkhead_sections] up to the intervals *)

(** [np.maximum] on two scalars. *)
Definition np_maximum (a b : Q) : Q := if Qleb a b then b else a.

(** An elementwise operation on two one-dimensional arrays, as numpy
    broadcasts them: the shapes agree, or one of the operands has a single
    entry. *)
Definition broadcast2 (f : Q -> Q -> Q) (u v : list Q) : outcome (list Q) :=
  if Nat.eqb (length u) (length v) then Done (zip_with f u v)
  else
    match u, v with
    | [x], _ => Done (map (f x) v)
    | _, [y] => Done (map (fun x => f x y) u)
    | _, _ => Failed (Numpy OperandsNotBroadcast)
    end.

(** "Make sure we are not working in ghost regions", for one bulkhead. *)
Definition clamp_ghost (s_ghost1 s_ghost2 s : Q) : Q :=
  np_minimum (np_maximum s s_ghost1) s_ghost2.

(** The intervals [(s0[k], s1[k])] that [add_bulkhead_sections] hands to
    [insert_section], for [k] in [range(nbulk)].  [nbulk] is the size of
    [bulkhead_grid] as it comes in; the arrays that the loop reads at [k]
    have the size of the grid after [np.unique].  [L] is the height of
    the member, which the geometry stage has checked to be positive. *)
Definition bulkhead_intervals (s_ghost1 s_ghost2 L : Q)
    (s_bulk t_bulk : list Q) : outcome (list (Q * Q)) :=
  let nbulk := length s_bulk in
  if Nat.eqb nbulk 0 then Done []
  else
    let s_uniq := np_unique (map (clamp_ghost s_ghost1 s_ghost2) s_bulk) in
    s0 ← broadcast2 (fun s t => s - (1 # 2) * t / L) s_uniq t_bulk;
    s1 ← broadcast2 (fun s t => s + (1 # 2) * t / L) s_uniq t_bulk;
    first ← lift (of_option (s0 !! 0%nat) IndexError);
    lo ← (if Qltb first s_ghost1
          then t0 ← lift (of_option (t_bulk !! 0%nat) IndexError);
               Done (<[0%nat := s_ghost1]> s0,
                     <[0%nat := s_ghost1 + t0 / L]> s1)
          else Done (s0, s1));
    lst ← lift (of_option (last lo.2) IndexError);
    hi ← (if Qltb s_ghost2 lst
          then tl ← lift (of_option (last t_bulk) IndexError);
               Done (<[(length lo.1 - 1)%nat := s_ghost2 - tl / L]> lo.1,
                     <[(length lo.2 - 1)%nat := s_ghost2]> lo.2)
          else Done lo);
    if Nat.ltb (length s_uniq) nbulk then Failed (Python IndexError)
    else Done (take nbulk (zip hi.1 hi.2)).

(** Entry by entry, the interval from [c0] to [c1] has the width [t / L]. *)
Definition widths (L : Q) (c0 c1 t : list Q) : Prop :=
  forall k a b tk, c0 !! k = Some a -> c1 !! k = Some b -> t !! k = Some tk ->
                   b - a == tk / L.

(** ** The ghost sections of [ShellMassCost.compute] *)

(** [for s in range(d_sec.size): if s_full[s + 1] < s_ghost1:
    mysections[s].make_ghost()], from the section number [s] on.  The
    objects of [mysections] were created one by one in the loop before, so
    no two entries are the same object. *)
Fixpoint shell_ghost_below (s_ghost1 : Q) (s_full : list Q) (s : nat)
    (mysections : list XS.CrossSection) : result (list XS.CrossSection) :=
  match mysections with
  | [] => Ok []
  | c :: rest =>
      x ← of_option (s_full !! S s) IndexError;
      rest' ← shell_ghost_below s_ghost1 s_full (S s) rest;
      Ok ((if Qltb x s_ghost1 then XS.make_ghost c else c) :: rest')
  end.

(** [for s in range(d_sec.size): if s_full[s] > s_ghost2:
    mysections[s].make_ghost()]. *)
Fixpoint shell_ghost_above (s_ghost2 : Q) (s_full : list Q) (s : nat)
    (mysections : list XS.CrossSection) : result (list XS.CrossSection) :=
  match mysections with
  | [] => Ok []
  | c :: rest =>
      x ← of_option (s_full !! s) IndexError;
      rest' ← shell_ghost_above s_ghost2 s_full (S s) rest;
      Ok ((if Qltb s_ghost2 x then XS.make_ghost c else c) :: rest')
  end.

(** "Adjust for ghost sections" in [ShellMassCost.compute]: what the
    sectional outputs [section_D], [section_t], ... are read from. *)
Definition shell_sections (s_ghost1 s_ghost2 : Q) (s_full : list Q)
    (mysections : list XS.CrossSection) : result (list XS.CrossSection) :=
  low ← (if Qltb 0 s_ghost1
         then shell_ghost_below s_ghost1 s_full 0 mysections
         else Ok mysections);
  if Qltb s_ghost2 1
  then shell_ghost_above s_ghost2 s_full 0 low
  else Ok low.

(** ** The submerged grid of [MemberHydro.compute] *)

(** "Make sure we account for overlaps": the positions [s_under] of the
    submerged part are cut at the two ghost limits. *)
Definition clip_overlaps (s_ghost1 s_ghost2 : Q) (s_under : list Q)
  : result (list Q) :=
  first ← of_option (s_under !! 0%nat) IndexError;
  let s_low :=
    if Qltb first s_ghost1
    then np_unique (s_ghost1 :: map (np_maximum s_ghost1) s_under)
    else s_under in
  lst ← of_option (last s_low) IndexError;
  Ok (if Qltb s_ghost2 lst
      then np_unique (map (np_minimum s_ghost2) s_low ++ [s_ghost2])
      else s_low).

(** ** Sample data *)

(** A circular section whose attributes all carry the value [x]. *)
Definition sample_section (x : Q) : XS.CrossSection :=
  {| XS.t := Fin x; XS.A := Fin x; XS.Asx := Fin x; XS.Asy := Fin x;
     XS.Ixx := Fin x; XS.Iyy := Fin x; XS.J0 := Fin x; XS.TorsC := Fin x;
     XS.E := Fin x; XS.G := Fin x; XS.rho := Fin x; XS.sigy := Fin x;
     XS.dims := XS.Circ (Fin x) |}.

(** A member with three main sections on the grid 0, 0.3, 0.6, 1 and one
    more section object (at address 3) that is not registered yet. *)
Definition sample_member : MemberComplex :=
  {| heap := [sample_section 1; sample_section 2; sample_section 3;
              sample_section 4];
     sections := [(0, Some 0%nat); (3 # 10, Some 1%nat); (6 # 10, Some 2%nat);
                  (1, None)] |}.

(** A control-point grid of three points, and one of a single point. *)
Definition sample_grid : list Q := [0; 1 # 2; 1].
Definition single_point_grid : list Q := [1 # 2].

(** A circular member of two sections with one layer of a material whose
    density is [rho_steel]. *)
Definition sample_yaml (rho_steel : Q) : yaml_inputs :=
  {| shape := circular;
     s_in := [0; 1 # 2; 1];
     s_const1 := 0; s_const2 := 0;
     h_col := 10; z_base := 0;
     layer_thickness := [[5 # 100; 5 # 100; 5 # 100]];
     layer_materials := ["steel"%string];
     outer_diameter_in := [5; 5; 5];
     side_length_a_in := []; side_length_b_in := [];
     material_names := ["steel"%string];
     rho_mat := [rho_steel];
     unit_cost_mat := [2] |}.


(** Two bulkheads, at the base and at 3/8 of the member. *)
Definition sample_bulkheads : list Q := [0; 3 # 8].

(** Stand-ins for the external numerical routines, for running the ballast
    model: piecewise-linear interpolation, piecewise-constant sectional
    interpolation, and the volume of a frustum with 355/113 for pi. *)
Fixpoint interp1 (xp fp : list Q) (x : Q) : Q :=
  match xp, fp with
  | x0 :: xp', f0 :: fp' =>
      match xp', fp' with
      | x1 :: _, f1 :: _ =>
          if Qleb x x0 then f0
          else if Qleb x x1 then f0 + (x - x0) * (f1 - f0) / (x1 - x0)
          else interp1 xp' fp' x
      | _, _ => f0
      end
  | _, _ => 0
  end.

Definition sample_interp (x xp fp : list Q) : list Q := map (interp1 xp fp) x.

Fixpoint sectional1 (xp fp : list Q) (x : Q) : Q :=
  match xp, fp with
  | _ :: ((x1 :: _) as xp'), f0 :: fp' =>
      if Qleb x x1 then f0
      else match fp' with [] => f0 | _ :: _ => sectional1 xp' fp' x end
  | _, _ => 0
  end.

Definition sample_sectionalInterp (x xp fp : list Q) : list Q :=
  map (sectional1 xp fp) x.

Fixpoint sample_frustumVol (rb rt h : list Q) : list Q :=
  match rb, rt, h with
  | b :: rb', t :: rt', x :: h' =>
      ((355 # 113) * x / 3 * (b * b + b * t + t * t))
        :: sample_frustumVol rb' rt' h'
  | _, _, _ => []
  end.

(** A member of height 10, diameter 2 and wall thickness 0.1 on the grid
    of [sample_member]. *)
Definition sample_z_full : list Q := [0; 3; 6; 10].
Definition sample_s_full : list Q := [0; 3 # 10; 6 # 10; 1].
Definition sample_diameter_full : list Q := [2; 2; 2; 2].
Definition sample_t_full : list Q := [1 # 10; 1 # 10; 1 # 10].

(** [sample_member] after [insert_section(0.2, 0.4, <object 3>)]. *)
Definition sample_inserted : MemberComplex :=
  {| heap := [sample_section 1; sample_section 2; sample_section 3;
              sample_section 4; sample_section 2];
     sections := [(0, Some 0%nat); (2 # 10, Some 3%nat); (3 # 10, Some 3%nat);
                  (4 # 10, Some 4%nat); (6 # 10, Some 2%nat); (1, None)] |}.

(** A circular member on five grid points, with constant end sections
    [c1] and [c2]. *)
Definition const_yaml (c1 c2 : Q) : yaml_inputs :=
  {| shape := circular;
     s_in := [0; 1 # 4; 1 # 2; 3 # 4; 1];
     s_const1 := c1; s_const2 := c2;
     h_col := 10; z_base := 0;
     layer_thickness := [[5 # 100; 5 # 100; 5 # 100; 5 # 100; 5 # 100]];
     layer_materials := ["steel"%string];
     outer_diameter_in := [5; 5; 5; 5; 5];
     side_length_a_in := []; side_length_b_in := [];
     material_names := ["steel"%string];
     rho_mat := [8500];
     unit_cost_mat := [2] |}.

(** [sample_member] after [add_node(0.5)]. *)
Definition sample_axial : MemberComplex :=
  {| heap := [sample_section 1; sample_section 2; sample_section 3;
              sample_section 4; sample_section 2];
     sections := [(0, Some 0%nat); (3 # 10, Some 1%nat); (1 # 2, Some 4%nat);
                  (6 # 10, Some 2%nat); (1, None)] |}.

(** * Properties *)

Lemma times100_finite (q : Q) : times100 (Fin q) = Fin (100 * q).
Proof. reflexivity. Qed.

(** C6. One application of the ghost transform sets thickness, area, both
    shear areas, both bending inertias, the polar inertia and the density to
    the constant 1e-2, sets the shape dimensions ([D], or [a] and [b]) to
    1e-2, and multiplies [E], [G] and [sigy] by 100 (exactly 100 times the
    previous value when that value is finite). *)
Theorem make_ghost_spec (c : XS.CrossSection) :
  let g := XS.make_ghost c in
  XS.t g = Fin (1 # 100) /\ XS.A g = Fin (1 # 100) /\
  XS.Asx g = Fin (1 # 100) /\ XS.Asy g = Fin (1 # 100) /\
  XS.Ixx g = Fin (1 # 100) /\ XS.Iyy g = Fin (1 # 100) /\
  XS.J0 g = Fin (1 # 100) /\ XS.rho g = Fin (1 # 100) /\
  XS.dims g = match XS.dims c with
              | XS.Plain => XS.Plain
              | XS.Circ _ => XS.Circ (Fin (1 # 100))
              | XS.Rect _ _ => XS.Rect (Fin (1 # 100)) (Fin (1 # 100))
              end /\
  XS.E g = times100 (XS.E c) /\ XS.G g = times100 (XS.G c) /\
  XS.sigy g = times100 (XS.sigy c) /\
  (forall e, XS.E c = Fin e -> XS.E g = Fin (100 * e)) /\
  (forall e, XS.G c = Fin e -> XS.G g = Fin (100 * e)) /\
  (forall e, XS.sigy c = Fin e -> XS.sigy g = Fin (100 * e)).
Proof.
  unfold XS.make_ghost.
  destruct (XS.dims c) eqn:Hd; cbn; rewrite ?Hd;
    repeat split; try reflexivity;
    intros e He; rewrite He; reflexivity.
Qed.

(** ** Comparisons on positions *)

Lemma Qltb_lt (a b : Q) : Qltb a b = true <-> a < b.
Proof.
  unfold Qltb. rewrite Qlt_alt. destruct (a ?= b); split; congruence.
Qed.

Lemma Qltb_ge (a b : Q) : Qltb a b = false <-> b <= a.
Proof.
  unfold Qltb. destruct (a ?= b) eqn:Hc.
  - apply Qeq_alt in Hc. split; [intros _; rewrite Hc; apply Qle_refl | reflexivity].
  - apply Qlt_alt in Hc. split; [discriminate | intros H; lra].
  - apply Qgt_alt in Hc. split; [intros _; lra | reflexivity].
Qed.

Lemma Qleb_le (a b : Q) : Qleb a b = true <-> a <= b.
Proof.
  unfold Qleb. rewrite Qle_alt. destruct (a ?= b); split; congruence.
Qed.

Lemma Qleb_gt (a b : Q) : Qleb a b = false <-> b < a.
Proof.
  unfold Qleb. destruct (a ?= b) eqn:Hc.
  - apply Qeq_alt in Hc. split; [discriminate | intros H; lra].
  - apply Qlt_alt in Hc. split; [discriminate | intros H; lra].
  - apply Qgt_alt in Hc. split; [intros _; lra | reflexivity].
Qed.

Lemma Qeqb_eq (a b : Q) : Qeqb a b = true <-> a == b.
Proof.
  unfold Qeqb. rewrite Qeq_alt. destruct (a ?= b); split; congruence.
Qed.

Lemma Qeqb_neq (a b : Q) : Qeqb a b = false <-> ~ a == b.
Proof.
  rewrite <- Qeqb_eq. destruct (Qeqb a b); split; congruence.
Qed.

Lemma Qeqb_refl (a : Q) : Qeqb a a = true.
Proof. apply Qeqb_eq. reflexivity. Qed.

(** Turns the boolean comparisons of the hypotheses and of the goal into
    propositions that [lra] understands. *)
Ltac qprop :=
  repeat match goal with
    | H : Qltb _ _ = true |- _ => apply Qltb_lt in H
    | H : Qltb _ _ = false |- _ => apply Qltb_ge in H
    | H : Qleb _ _ = true |- _ => apply Qleb_le in H
    | H : Qleb _ _ = false |- _ => apply Qleb_gt in H
    | H : Qeqb _ _ = true |- _ => apply Qeqb_eq in H
    | H : Qeqb _ _ = false |- _ => apply Qeqb_neq in H
    | H : (_ ?= _) = Lt |- _ => apply Qlt_alt in H
    | H : (_ ?= _) = Eq |- _ => apply Qeq_alt in H
    | H : (_ ?= _) = Gt |- _ => apply Qgt_alt in H
    | |- Qltb _ _ = true => apply Qltb_lt
    | |- Qltb _ _ = false => apply Qltb_ge
    | |- Qleb _ _ = true => apply Qleb_le
    | |- Qleb _ _ = false => apply Qleb_gt
    | |- Qeqb _ _ = true => apply Qeqb_eq
    | |- Qeqb _ _ = false => apply Qeqb_neq
    end.

Ltac qsolve := qprop; first [lra | intros ?; lra].

(** ** The sorted dictionary *)

Lemma ascending_cons (k : Q) (ks : list Q) :
  ascending (k :: ks) = true ->
  ascending ks = true /\ Forall (fun k' => k < k') ks.
Proof.
  revert k. induction ks as [|k' ks IH]; intros k H.
  - split; [reflexivity | constructor].
  - change (Qltb k k' && ascending (k' :: ks) = true) in H.
    apply andb_prop in H as [Hlt Hs].
    split; [exact Hs|].
    destruct (IH _ Hs) as [_ Hall]. qprop.
    constructor; [exact Hlt|].
    eapply Forall_impl; [exact Hall|]. cbn. intros; lra.
Qed.

Lemma ascending_intro (k : Q) (ks : list Q) :
  ascending ks = true -> Forall (fun k' => k < k') ks ->
  ascending (k :: ks) = true.
Proof.
  intros Hs Hall. destruct ks as [|k' ks]; [reflexivity|].
  change (Qltb k k' && ascending (k' :: ks) = true).
  apply Forall_inv in Hall. rewrite Hs, andb_true_r. qsolve.
Qed.

Lemma contains_In (d : SortedDict) (s : Q) :
  contains d s = true <-> exists k, In k (keys d) /\ k == s.
Proof.
  induction d as [|[k v] d IH]; cbn.
  - split; [discriminate | intros (k & [] & _)].
  - rewrite orb_true_iff, IH, Qeqb_eq. split.
    + intros [H | (k' & Hin & He)]; eauto.
    + intros (k' & [<- | Hin] & He); eauto.
Qed.

Lemma contains_false (d : SortedDict) (s : Q) :
  contains d s = false <-> Forall (fun k => ~ k == s) (keys d).
Proof.
  induction d as [|[k v] d IH]; cbn.
  - split; [constructor | reflexivity].
  - rewrite orb_false_iff, IH, Qeqb_neq, Forall_cons. reflexivity.
Qed.

Lemma getitem_setitem_same (d : SortedDict) (s : Q) (v : ref) :
  getitem (setitem d s v) s = Some v.
Proof.
  induction d as [|[k w] d IH]; cbn.
  - rewrite Qeqb_refl. reflexivity.
  - destruct (s ?= k) eqn:Hc; cbn.
    + assert (Qeqb k s = true) as -> by qsolve. reflexivity.
    + rewrite Qeqb_refl. reflexivity.
    + assert (Qeqb k s = false) as -> by qsolve. exact IH.
Qed.

Lemma getitem_setitem_other (d : SortedDict) (s k' : Q) (v : ref) :
  ~ k' == s -> getitem (setitem d s v) k' = getitem d k'.
Proof.
  intros Hne. induction d as [|[k w] d IH]; cbn.
  - assert (Qeqb s k' = false) as -> by qsolve. reflexivity.
  - destruct (s ?= k) eqn:Hc; cbn.
    + assert (Qeqb k k' = false) as -> by qsolve. reflexivity.
    + assert (Qeqb s k' = false) as -> by qsolve. reflexivity.
    + destruct (Qeqb k k'); [reflexivity | exact IH].
Qed.

Lemma contains_setitem_same (d : SortedDict) (s : Q) (v : ref) :
  contains (setitem d s v) s = true.
Proof.
  induction d as [|[k w] d IH]; cbn.
  - rewrite Qeqb_refl. reflexivity.
  - destruct (s ?= k) eqn:Hc; cbn.
    + assert (Qeqb k s = true) as -> by qsolve. reflexivity.
    + rewrite Qeqb_refl. reflexivity.
    + rewrite IH. apply orb_true_r.
Qed.

Lemma keys_setitem_In (d : SortedDict) (s : Q) (v : ref) (k : Q) :
  In k (keys (setitem d s v)) -> k = s \/ In k (keys d).
Proof.
  induction d as [|[k0 w0] d IH]; cbn.
  - intros [<- | []]. left; reflexivity.
  - destruct (s ?= k0) eqn:Hc; cbn.
    + intros [<- | Hin]; auto.
    + intros [<- | [<- | Hin]]; auto.
    + intros [<- | Hin]; auto. destruct (IH Hin); auto.
Qed.

Lemma ascending_setitem (d : SortedDict) (s : Q) (v : ref) :
  ascending (keys d) = true -> ascending (keys (setitem d s v)) = true.
Proof.
  induction d as [|[k w] d IH]; intros Hs; [reflexivity|].
  cbn [setitem]. destruct (s ?= k) eqn:Hc.
  - exact Hs.
  - cbn [keys map fst]. apply ascending_intro; [exact Hs|].
    change (k :: map fst d) with (keys ((k, w) :: d)).
    cbn [keys map fst]. apply ascending_cons in Hs as [_ Hall].
    qprop. constructor; [exact Hc|].
    eapply Forall_impl; [exact Hall|]. cbn. intros; lra.
  - cbn [keys map fst] in *. apply ascending_cons in Hs as [Hs Hall].
    apply ascending_intro; [apply IH; exact Hs|].
    apply List.Forall_forall. intros k' Hin.
    apply keys_setitem_In in Hin as [-> | Hin].
    + qsolve.
    + rewrite List.Forall_forall in Hall. apply Hall. exact Hin.
Qed.

Lemma bisect_left_setitem (d : SortedDict) (s : Q) (v : ref) :
  bisect_left (setitem d s v) s = bisect_left d s.
Proof.
  induction d as [|[k w] d IH]; cbn.
  - assert (Qltb s s = false) as -> by qsolve. reflexivity.
  - destruct (s ?= k) eqn:Hc; cbn.
    + assert (Qltb k s = false) as -> by qsolve. reflexivity.
    + assert (Qltb s s = false) as -> by qsolve.
      assert (Qltb k s = false) as -> by qsolve. reflexivity.
    + assert (Qltb k s = true) as -> by qsolve. rewrite IH. reflexivity.
Qed.

Lemma bisect_left_below (d : SortedDict) (s : Q) (n : nat) :
  (n < bisect_left d s)%nat ->
  exists k v, d !! n = Some (k, v) /\ k < s.
Proof.
  revert n. induction d as [|[k w] d IH]; intros n Hn; cbn in Hn.
  - lia.
  - destruct (Qltb k s) eqn:Hlt; [|lia].
    destruct n as [|n].
    + exists k, w. split; [reflexivity | qsolve].
    + apply IH. lia.
Qed.

Lemma bisect_left_mono (d : SortedDict) (s0 s1 : Q) :
  s0 <= s1 -> (bisect_left d s0 <= bisect_left d s1)%nat.
Proof.
  intros Hle. induction d as [|[k w] d IH]; cbn; [lia|].
  destruct (Qltb k s0) eqn:H0.
  - assert (Qltb k s1 = true) as -> by qsolve. lia.
  - lia.
Qed.

Lemma keys_lookup (d : SortedDict) (n : nat) :
  keys d !! n = fst <$> (d !! n).
Proof. unfold keys. apply list_lookup_fmap. Qed.

Lemma getitem_In (d : SortedDict) (k : Q) (v : ref) :
  ascending (keys d) = true -> In (k, v) d -> getitem d k = Some v.
Proof.
  induction d as [|[k0 w0] d IH]; intros Hs Hin; [destruct Hin|].
  cbn [keys map fst] in Hs. apply ascending_cons in Hs as [Hs Hall].
  cbn. destruct Hin as [[= -> ->] | Hin].
  - rewrite Qeqb_refl. reflexivity.
  - assert (Qeqb k0 k = false) as ->.
    { rewrite List.Forall_forall in Hall.
      assert (k0 < k) by (apply Hall; apply (in_map fst) in Hin; exact Hin).
      qsolve. }
    apply IH; assumption.
Qed.

Lemma getitem_Some_In (d : SortedDict) (s : Q) (v : ref) :
  getitem d s = Some v -> exists k, In (k, v) d /\ k == s.
Proof.
  induction d as [|[k w] d IH]; cbn; [discriminate|].
  destruct (Qeqb k s) eqn:He.
  - intros [= ->]. exists k. split; [left; reflexivity | qsolve].
  - intros H. destruct (IH H) as (k' & Hin & Hk). eauto.
Qed.

Lemma covering_none (d : SortedDict) (s : Q) :
  contains d s = false -> bisect_left d s = O -> covering d s = None.
Proof.
  destruct d as [|[k w] d]; cbn; [reflexivity|].
  intros Hc Hb. apply orb_false_iff in Hc as [Hc _].
  destruct (Qltb k s) eqn:Hlt; [discriminate|].
  assert (Qleb k s = false) as -> by qsolve. reflexivity.
Qed.

(** The item [add_node] copies: the one just before the insertion point. *)
Lemma bisect_left_pred (d : SortedDict) (s : Q) (n : nat) :
  ascending (keys d) = true -> contains d s = false ->
  bisect_left d s = S n ->
  exists k v, keys d !! n = Some k /\ getitem d k = Some v /\
              covering d s = Some v /\ k < s /\ In (k, v) d.
Proof.
  revert n. induction d as [|[k0 w0] d IH]; intros n Hs Hc Hb; [discriminate|].
  cbn [keys map fst] in Hs. apply ascending_cons in Hs as [Hs Hall].
  cbn in Hc. apply orb_false_iff in Hc as [Hc0 Hc].
  cbn in Hb. destruct (Qltb k0 s) eqn:Hlt; [|discriminate].
  injection Hb as Hb.
  destruct n as [|n].
  - exists k0, w0. cbn. rewrite Qeqb_refl.
    assert (Qleb k0 s = true) as -> by qsolve.
    rewrite (covering_none d s Hc Hb).
    repeat split; try reflexivity; [qsolve | left; reflexivity].
  - destruct (IH n Hs Hc Hb) as (k & v & Hk & Hg & Hcov & Hks & Hin).
    exists k, v. cbn.
    assert (Qleb k0 s = true) as -> by qsolve.
    rewrite Hcov.
    assert (Qeqb k0 k = false) as ->.
    { rewrite List.Forall_forall in Hall.
      assert (k0 < k) by (apply Hall; apply (in_map fst) in Hin; exact Hin).
      qsolve. }
    repeat split; auto.
Qed.

Lemma precedes_first_key_iff (d : SortedDict) (s : Q) :
  ascending (keys d) = true ->
  (contains d s = false /\ bisect_left d s = O) <-> precedes_first_key d s.
Proof.
  intros Hs. unfold precedes_first_key.
  destruct d as [|[k0 w0] d]; cbn [keys map fst].
  - split; [trivial | intros _; split; reflexivity].
  - cbn [keys map fst] in Hs. apply ascending_cons in Hs as [Hs Hall].
    cbn. split.
    + intros [Hc Hb]. apply orb_false_iff in Hc as [Hc0 _].
      destruct (Qltb k0 s) eqn:Hlt; [discriminate|]. qsolve.
    + intros Hlt. assert (Qltb k0 s = false) as -> by qsolve.
      split; [|reflexivity].
      apply orb_false_iff. split; [qsolve|].
      apply contains_false. eapply Forall_impl; [exact Hall|].
      cbn. intros k Hk He. lra.
Qed.

Lemma precedes_first_key_all (d : SortedDict) (s : Q) :
  ascending (keys d) = true ->
  precedes_first_key d s <-> (forall k, In k (keys d) -> s < k).
Proof.
  intros Hs. unfold precedes_first_key.
  destruct (keys d) as [|k0 ks] eqn:Hk.
  - split; [intros _ k [] | trivial].
  - apply ascending_cons in Hs as [_ Hall].
    rewrite List.Forall_forall in Hall. split.
    + intros Hlt k [<- | Hin]; [exact Hlt|].
      specialize (Hall _ Hin). lra.
    + intros H. apply H. left. reflexivity.
Qed.

Lemma allocated_lookup (m : MemberComplex) (k : Q) (l : loc) :
  allocated m = true -> In (k, Some l) (sections m) ->
  exists c, heap m !! l = Some c.
Proof.
  unfold allocated. rewrite forallb_forall. intros Hall Hin.
  specialize (Hall _ Hin). cbn in Hall. apply Nat.ltb_lt in Hall.
  apply lookup_lt_is_Some_2 in Hall. destruct Hall as [c Hc]. eauto.
Qed.

(** *** [add_node], case by case *)

Lemma add_node_present (s : Q) (m : MemberComplex) :
  contains (sections m) s = true -> add_node s m = Ok m.
Proof. intros H. unfold add_node. rewrite H. reflexivity. Qed.

Lemma add_node_before_start (s : Q) (m : MemberComplex) :
  contains (sections m) s = false -> bisect_left (sections m) s = O ->
  add_node s m = Raise (ValueError NodeBeforeStart).
Proof. intros Hc Hb. unfold add_node. rewrite Hc, Hb. reflexivity. Qed.

Lemma add_node_inside (s : Q) (m : MemberComplex) (n : nat) (v : ref) :
  ascending (keys (sections m)) = true ->
  contains (sections m) s = false -> bisect_left (sections m) s = S n ->
  covering (sections m) s = Some v ->
  add_node s m =
    hv ← copy_copy (heap m) v;
    Ok {| heap := hv.1; sections := setitem (sections m) s hv.2 |}.
Proof.
  intros Hs Hc Hb Hcov.
  destruct (bisect_left_pred _ _ _ Hs Hc Hb) as (k & v' & Hk & Hg & Hcov' & _).
  assert (v' = v) as -> by congruence.
  unfold add_node. rewrite Hc, Hb.
  replace (Z.of_nat (S n) - 1)%Z with (Z.of_nat n) by lia.
  destruct (Z.ltb_spec (Z.of_nat n) 0); [lia|].
  rewrite Nat2Z.id, Hk. cbn. rewrite Hg. reflexivity.
Qed.

Lemma add_node_cases (s : Q) (m : MemberComplex) :
  wf m -> add_node_case s m (add_node s m).
Proof.
  intros [Hs Ha].
  destruct (contains (sections m) s) eqn:Hc.
  - rewrite (add_node_present _ _ Hc). constructor. exact Hc.
  - destruct (bisect_left (sections m) s) as [|n] eqn:Hb.
    + rewrite (add_node_before_start _ _ Hc Hb). constructor; [exact Hc|].
      apply precedes_first_key_iff; auto.
    + destruct (bisect_left_pred _ _ _ Hs Hc Hb)
        as (k & v & Hk & Hg & Hcov & Hks & Hin).
      rewrite (add_node_inside _ _ _ _ Hs Hc Hb Hcov).
      destruct v as [l|]; cbn.
      * destruct (allocated_lookup _ _ _ Ha Hin) as [c Hl].
        rewrite Hl. cbn. econstructor; eauto.
      * econstructor; eauto.
Qed.

Lemma precedes_not_covered (d : SortedDict) (s : Q) :
  precedes_first_key d s -> covering d s = None.
Proof.
  unfold precedes_first_key. destruct d as [|[k w] d]; cbn; [reflexivity|].
  intros H. assert (Qleb k s = false) as -> by qsolve. reflexivity.
Qed.

Lemma precedes_no_key_below (d : SortedDict) (s : Q) :
  ascending (keys d) = true -> precedes_first_key d s ->
  has_key_at_or_below d s = false.
Proof.
  intros Hs Hp. rewrite precedes_first_key_all in Hp by exact Hs.
  unfold has_key_at_or_below.
  destruct (existsb _ _) eqn:He; [|reflexivity].
  apply existsb_exists in He as (k & Hin & Hle).
  specialize (Hp _ Hin). qprop. lra.
Qed.

(** *** Well-formedness is kept *)

Lemma In_setitem (d : SortedDict) (s : Q) (v : ref) (k : Q) (w : ref) :
  In (k, w) (setitem d s v) -> (k == s /\ w = v) \/ In (k, w) d.
Proof.
  induction d as [|[k0 w0] d IH]; cbn [setitem].
  - intros [[= <- <-] | []]. left. split; reflexivity.
  - destruct (s ?= k0) eqn:Hc.
    + intros [[= <- <-] | Hin].
      * left. split; [qsolve | reflexivity].
      * right. right. exact Hin.
    + intros [[= <- <-] | Hin].
      * left. split; reflexivity.
      * right. exact Hin.
    + intros [[= <- <-] | Hin].
      * right. left. reflexivity.
      * destruct (IH Hin) as [H | H]; [left; exact H | right; right; exact H].
Qed.

Lemma allocated_setitem (h h' : list XS.CrossSection) (d : SortedDict)
    (s : Q) (v : ref) :
  (length h <= length h')%nat ->
  allocated {| heap := h; sections := d |} = true ->
  match v with Some l => (l < length h')%nat | None => True end ->
  allocated {| heap := h'; sections := setitem d s v |} = true.
Proof.
  unfold allocated. cbn [heap sections]. intros Hlen Ha Hv.
  rewrite forallb_forall in Ha. apply forallb_forall.
  intros [k w] Hin. cbn [snd].
  apply In_setitem in Hin as [[_ ->] | Hin].
  - destruct v; [|reflexivity]. apply Nat.ltb_lt. exact Hv.
  - specialize (Ha _ Hin). cbn [snd] in Ha.
    destruct w; [|reflexivity].
    apply Nat.ltb_lt in Ha. apply Nat.ltb_lt. lia.
Qed.

Lemma wf_setitem (m : MemberComplex) (h' : list XS.CrossSection)
    (s : Q) (v : ref) :
  wf m -> (length (heap m) <= length h')%nat ->
  match v with Some l => (l < length h')%nat | None => True end ->
  wf {| heap := h'; sections := setitem (sections m) s v |}.
Proof.
  intros [Hs Ha] Hlen Hv. split; cbn [sections].
  - apply ascending_setitem. exact Hs.
  - destruct m as [h d]. apply (allocated_setitem h); assumption.
Qed.

Lemma add_node_wf (s : Q) (m m' : MemberComplex) :
  wf m -> add_node s m = Ok m' ->
  wf m' /\ (length (heap m) <= length (heap m'))%nat.
Proof.
  intros Hwf Hadd.
  destruct (add_node_cases s m Hwf); try discriminate;
    injection Hadd as <-; cbn [heap].
  - split; [exact Hwf | lia].
  - split; [|lia]. apply wf_setitem; auto.
  - split; [|rewrite length_app; lia].
    apply wf_setitem; auto; rewrite length_app; cbn; lia.
Qed.

(** ** [add_node] *)

(** C2. On a registry that has a key at or below [s], [add_node(s)]
    succeeds and a second [add_node(s)] leaves the registry (and the heap)
    exactly as the first call left it. *)
Theorem add_node_idempotent (m : MemberComplex) (s : Q) :
  wf m -> has_key_at_or_below (sections m) s = true ->
  exists m1, add_node s m = Ok m1 /\ add_node s m1 = Ok m1.
Proof.
  intros Hwf Hkey.
  destruct (add_node_cases s m Hwf) as [Hc | Hc Hp | k Hc _ _ _ | k l c Hc _ _ _ _].
  - exists m. split; [reflexivity | apply add_node_present; exact Hc].
  - destruct Hwf as [Hs _].
    rewrite (precedes_no_key_below _ _ Hs Hp) in Hkey. discriminate.
  - eexists. split; [reflexivity|].
    apply add_node_present. apply contains_setitem_same.
  - eexists. split; [reflexivity|].
    apply add_node_present. apply contains_setitem_same.
Qed.

Lemma add_node_idempotent_witness :
  exists m1, add_node (45 # 100) sample_member = Ok m1 /\
             add_node (45 # 100) m1 = Ok m1.
Proof.
  apply add_node_idempotent.
  - split; reflexivity.
  - reflexivity.
Defined.

(** C3. [add_node(s)] raises its out-of-range error ("Cannot insert node
    before start of list") exactly when [s] precedes the first key (in a
    registry without keys, where nothing is at or before [s], it raises for
    every [s]), and raises nothing else.  When [s] is absent and the interval that contains
    it starts with a section object [l], the call succeeds and the new key
    refers to a new object [l'], different from [l] and referenced by no
    other key, that carries the attribute values of [l]; changing either of
    the two objects afterwards leaves the other one as it is. *)
Theorem add_node_out_of_range_or_copy (m : MemberComplex) (s : Q) :
  wf m ->
  (add_node s m = Raise (ValueError NodeBeforeStart) <->
   precedes_first_key (sections m) s) /\
  (forall e, add_node s m = Raise e -> e = ValueError NodeBeforeStart) /\
  (forall l, contains (sections m) s = false ->
             covering (sections m) s = Some (Some l) ->
     exists m' c,
       add_node s m = Ok m' /\
       heap m !! l = Some c /\
       let l' := length (heap m) in
       getitem (sections m') s = Some (Some l') /\
       l' <> l /\
       (forall k, getitem (sections m) k <> Some (Some l')) /\
       heap m' !! l' = Some c /\
       heap m' !! l = Some c /\
       (forall c', <[l := c']> (heap m') !! l' = Some c) /\
       (forall c', <[l' := c']> (heap m') !! l = Some c)).
Proof.
  intros Hwf. pose proof (add_node_cases s m Hwf) as Hcase.
  destruct Hwf as [Hs Ha].
  split; [|split].
  - split.
    + intros Hr. rewrite Hr in Hcase. inversion Hcase. assumption.
    + intros Hp. apply add_node_before_start;
        apply (precedes_first_key_iff _ _ Hs) in Hp; tauto.
  - intros e Hr. rewrite Hr in Hcase. inversion Hcase. reflexivity.
  - intros l Hc Hcov.
    inversion Hcase as [Hc' | Hc' Hp | k Hc' Hcov' | k l0 c Hc' Hcov' Hin Hks Hl Hres];
      try congruence.
    + rewrite (precedes_not_covered _ _ Hp) in Hcov. discriminate.
    + assert (l0 = l) as -> by congruence.
      pose proof (lookup_lt_Some _ _ _ Hl) as Hlt.
      eexists _, c. split; [reflexivity|]. split; [exact Hl|].
      cbn [heap sections].
      repeat split.
      * apply getitem_setitem_same.
      * lia.
      * intros k' Hg. apply getitem_Some_In in Hg as (k'' & Hin' & _).
        destruct (allocated_lookup _ _ _ Ha Hin') as [c'' Hc''].
        apply lookup_lt_Some in Hc''. lia.
      * rewrite lookup_app_r by lia. rewrite Nat.sub_diag. reflexivity.
      * rewrite lookup_app_l by lia. exact Hl.
      * intros c'. rewrite list_lookup_insert_ne by lia.
        rewrite lookup_app_r by lia. rewrite Nat.sub_diag. reflexivity.
      * intros c'. rewrite list_lookup_insert_ne by lia.
        rewrite lookup_app_l by lia. exact Hl.
Qed.

Lemma add_node_out_of_range_or_copy_witness :
  (add_node (45 # 100) sample_member = Raise (ValueError NodeBeforeStart) <->
   precedes_first_key (sections sample_member) (45 # 100)) /\
  (forall e, add_node (45 # 100) sample_member = Raise e ->
             e = ValueError NodeBeforeStart) /\
  (forall l, contains (sections sample_member) (45 # 100) = false ->
             covering (sections sample_member) (45 # 100) = Some (Some l) ->
     exists m' c,
       add_node (45 # 100) sample_member = Ok m' /\
       heap sample_member !! l = Some c /\
       let l' := length (heap sample_member) in
       getitem (sections m') (45 # 100) = Some (Some l') /\
       l' <> l /\
       (forall k, getitem (sections sample_member) k <> Some (Some l')) /\
       heap m' !! l' = Some c /\
       heap m' !! l = Some c /\
       (forall c', <[l := c']> (heap m') !! l' = Some c) /\
       (forall c', <[l' := c']> (heap m') !! l = Some c)).
Proof.
  apply (add_node_out_of_range_or_copy sample_member (45 # 100)).
  split; reflexivity.
Defined.

(** ** The end-marker invariant *)

Lemma terminated_snoc (d : SortedDict) (k : Q) :
  Forall is_section d -> terminated (d ++ [(k, None)]) = true.
Proof.
  induction 1 as [|[k0 [l|]] d Hx Hd IH]; [reflexivity| |].
  - cbn [app terminated]. destruct (d ++ [(k, None)]) eqn:Hd'.
    + destruct d; discriminate.
    + exact IH.
  - exfalso. apply Hx. reflexivity.
Qed.

Lemma terminated_inv (d : SortedDict) :
  terminated d = true ->
  exists d' k, d = d' ++ [(k, None)] /\ Forall is_section d'.
Proof.
  induction d as [|[k0 v0] d IH]; [discriminate|].
  cbn [terminated]. destruct d as [|kv d].
  - destruct v0; [discriminate|]. intros _. exists [], k0.
    split; [reflexivity | constructor].
  - destruct v0 as [l|]; [|discriminate]. intros Ht.
    destruct (IH Ht) as (d' & k & -> & Hd').
    exists ((k0, Some l) :: d'), k. split; [reflexivity|].
    constructor; [discriminate | exact Hd'].
Qed.

Lemma last_key_snoc (d : SortedDict) (k : Q) (v : ref) :
  last_key (d ++ [(k, v)]) = Some k.
Proof.
  unfold last_key, keys. rewrite map_app. cbn. apply last_snoc.
Qed.

Lemma ascending_snoc_lt (d : SortedDict) (k : Q) (v : ref) :
  ascending (keys (d ++ [(k, v)])) = true ->
  Forall (fun kv : Q * ref => kv.1 < k) d.
Proof.
  induction d as [|[k0 w0] d IH]; intros Hs; [constructor|].
  cbn [app keys map fst] in Hs. apply ascending_cons in Hs as [Hs Hall].
  constructor.
  - cbn. rewrite List.Forall_forall in Hall. apply Hall.
    change (In k (keys (d ++ [(k, v)]))). unfold keys.
    rewrite map_app. apply in_or_app. right. left. reflexivity.
  - apply IH. exact Hs.
Qed.

Lemma setitem_snoc_lt (d : SortedDict) (kl : Q) (w : ref) (s : Q) (v : ref) :
  s < kl -> setitem (d ++ [(kl, w)]) s v = setitem d s v ++ [(kl, w)].
Proof.
  intros Hlt. induction d as [|[k0 w0] d IH]; cbn [app setitem].
  - assert ((s ?= kl) = Lt) as -> by (apply Qlt_alt; exact Hlt). reflexivity.
  - destruct (s ?= k0); [reflexivity | reflexivity |].
    rewrite IH. reflexivity.
Qed.

Lemma setitem_snoc_gt (d : SortedDict) (s : Q) (v : ref) :
  Forall (fun kv : Q * ref => kv.1 < s) d -> setitem d s v = d ++ [(s, v)].
Proof.
  induction 1 as [|[k0 w0] d Hx Hd IH]; [reflexivity|].
  cbn [app setitem]. cbn in Hx.
  assert ((s ?= k0) = Gt) as -> by (apply Qgt_alt; exact Hx).
  rewrite IH. reflexivity.
Qed.

Lemma setitem_snoc_eq (d : SortedDict) (kl : Q) (w v : ref) :
  Forall (fun kv : Q * ref => kv.1 < kl) d ->
  setitem (d ++ [(kl, w)]) kl v = d ++ [(kl, v)].
Proof.
  induction 1 as [|[k0 w0] d Hx Hd IH]; cbn [app setitem].
  - assert ((kl ?= kl) = Eq) as -> by (apply Qeq_alt; reflexivity).
    reflexivity.
  - cbn in Hx. assert ((kl ?= k0) = Gt) as -> by (apply Qgt_alt; exact Hx).
    rewrite IH. reflexivity.
Qed.

Lemma is_section_setitem (d : SortedDict) (s : Q) (l : loc) :
  Forall is_section d -> Forall is_section (setitem d s (Some l)).
Proof.
  intros Hd. apply List.Forall_forall. intros [k w] Hin.
  apply In_setitem in Hin as [[_ ->] | Hin]; [discriminate|].
  rewrite List.Forall_forall in Hd. apply Hd. exact Hin.
Qed.

(** Writing a section below the end marker keeps the invariant and the
    greatest key. *)
Lemma terminated_setitem_lt (d : SortedDict) (kl s : Q) (l : loc) :
  terminated d = true -> last_key d = Some kl -> s < kl ->
  terminated (setitem d s (Some l)) = true /\
  last_key (setitem d s (Some l)) = Some kl.
Proof.
  intros Ht Hl Hlt. apply terminated_inv in Ht as (d' & k & -> & Hd').
  rewrite last_key_snoc in Hl. injection Hl as ->.
  rewrite setitem_snoc_lt by exact Hlt. split.
  - apply terminated_snoc. apply is_section_setitem. exact Hd'.
  - apply last_key_snoc.
Qed.

(** Below the end marker every key holds a section. *)
Lemma terminated_None_last (d : SortedDict) (kl k : Q) :
  ascending (keys d) = true -> terminated d = true ->
  last_key d = Some kl -> In (k, None) d -> k = kl.
Proof.
  intros Hs Ht Hl Hin. apply terminated_inv in Ht as (d' & k' & -> & Hd').
  rewrite last_key_snoc in Hl. injection Hl as ->.
  apply in_app_or in Hin as [Hin | [[= ->] | []]]; [|reflexivity].
  rewrite List.Forall_forall in Hd'. specialize (Hd' _ Hin).
  exfalso. apply Hd'. reflexivity.
Qed.

Lemma last_key_In (d : SortedDict) (kl : Q) :
  last_key d = Some kl -> In kl (keys d).
Proof.
  unfold last_key. intros H. apply last_Some in H as [l' ->].
  apply in_or_app. right. left. reflexivity.
Qed.

Lemma add_node_terminated (s : Q) (m m' : MemberComplex) (kl : Q) :
  wf m -> terminated (sections m) = true -> last_key (sections m) = Some kl ->
  s <= kl -> add_node s m = Ok m' ->
  terminated (sections m') = true /\ last_key (sections m') = Some kl.
Proof.
  intros Hwf Ht Hl Hle Hadd.
  destruct (add_node_cases s m Hwf) as [Hc | Hc Hp | k Hc _ Hin Hks | k l c Hc _ Hin Hks _];
    try discriminate; injection Hadd as <-; cbn [sections].
  - split; assumption.
  - destruct Hwf as [Hs _].
    rewrite (terminated_None_last _ _ _ Hs Ht Hl Hin) in Hks. lra.
  - apply terminated_setitem_lt; auto.
    assert (~ kl == s).
    { rewrite contains_false, List.Forall_forall in Hc.
      apply Hc. apply last_key_In. exact Hl. }
    lra.
Qed.

Lemma add_node_bisect_left (s : Q) (m m' : MemberComplex) :
  add_node s m = Ok m' ->
  bisect_left (sections m') s = bisect_left (sections m) s.
Proof.
  unfold add_node. destruct (contains (sections m) s).
  - intros [= <-]. reflexivity.
  - destruct (_ <? 0)%Z; [discriminate|].
    destruct (keys (sections m) !! _); [|discriminate]. cbn.
    destruct (getitem (sections m) q); [|discriminate]. cbn.
    destruct (copy_copy (heap m) r); [|discriminate]. cbn.
    intros [= <-]. cbn [sections]. apply bisect_left_setitem.
Qed.

(** *** [insert_section] *)

Lemma insert_section_unfold (s0 s1 : Q) (x : loc) (m m1 : MemberComplex) :
  add_node s1 m = Ok m1 ->
  insert_section s0 s1 x m =
    if Nat.eqb (bisect_left (sections m) s0) (bisect_left (sections m) s1)
    then Ok {| heap := heap m1;
               sections := setitem (sections m1) s0 (Some x) |}
    else
      match keys (sections m1) !! bisect_left (sections m) s0 with
      | Some k =>
          Ok {| heap := heap m1;
                sections := setitem (setitem (sections m1) k (Some x))
                                    s0 (Some x) |}
      | None => Raise IndexError
      end.
Proof.
  intros Hadd. unfold insert_section. rewrite Hadd. cbn.
  destruct (Nat.eqb _ _); [reflexivity|].
  destruct (keys (sections m1) !! _); reflexivity.
Qed.

(** The key that [insert_section] overwrites when it straddles old points:
    the first old key at or after [s0]; it lies below [s1]. *)
Lemma straddled_key (s0 s1 : Q) (m m1 : MemberComplex) :
  s0 <= s1 -> add_node s1 m = Ok m1 ->
  bisect_left (sections m) s0 <> bisect_left (sections m) s1 ->
  exists k v, sections m1 !! bisect_left (sections m) s0 = Some (k, v) /\
              k < s1.
Proof.
  intros Hle Hadd Hne.
  pose proof (bisect_left_mono (sections m) _ _ Hle) as Hmono.
  apply bisect_left_below.
  rewrite (add_node_bisect_left _ _ _ Hadd). lia.
Qed.

Lemma insert_section_terminated (s0 s1 : Q) (x : loc) (m m' : MemberComplex)
    (kl : Q) :
  wf m -> terminated (sections m) = true -> last_key (sections m) = Some kl ->
  s0 < s1 -> s1 <= kl -> (x < length (heap m))%nat ->
  insert_section s0 s1 x m = Ok m' ->
  wf m' /\ terminated (sections m') = true /\
  last_key (sections m') = Some kl.
Proof.
  intros Hwf Ht Hl H01 H1l Hx Hins.
  destruct (add_node s1 m) as [m1|e] eqn:Hadd;
    [|unfold insert_section in Hins; rewrite Hadd in Hins; discriminate].
  destruct (add_node_wf _ _ _ Hwf Hadd) as [Hwf1 Hlen].
  destruct (add_node_terminated _ _ _ _ Hwf Ht Hl H1l Hadd) as [Ht1 Hl1].
  rewrite (insert_section_unfold _ _ _ _ _ Hadd) in Hins.
  destruct (Nat.eqb_spec (bisect_left (sections m) s0)
                         (bisect_left (sections m) s1)) as [Heq | Hne].
  - injection Hins as <-. cbn [sections heap]. split.
    + apply wf_setitem; auto. lia.
    + apply terminated_setitem_lt; auto. lra.
  - destruct (straddled_key s0 s1 m m1) as (k & v & Hk & Hks); auto; [lra|].
    rewrite keys_lookup, Hk in Hins. cbn in Hins.
    injection Hins as <-. cbn [sections heap].
    destruct (terminated_setitem_lt (sections m1) kl k x) as [Ht2 Hl2];
      auto; [lra|].
    split.
    + apply (wf_setitem {| heap := heap m1;
                           sections := setitem (sections m1) k (Some x) |});
        cbn [heap]; [|lia|lia].
      apply wf_setitem; auto. lia.
    + apply terminated_setitem_lt; auto. lra.
Qed.

(** [insert_section] succeeds as soon as [s1] is not before the start. *)
Lemma insert_section_ok (s0 s1 : Q) (x : loc) (m : MemberComplex) :
  wf m -> s0 <= s1 -> has_key_at_or_below (sections m) s1 = true ->
  exists m', insert_section s0 s1 x m = Ok m'.
Proof.
  intros Hwf Hle Hkey.
  destruct (add_node s1 m) as [m1|e] eqn:Hadd.
  - rewrite (insert_section_unfold _ _ _ _ _ Hadd).
    destruct (Nat.eqb_spec (bisect_left (sections m) s0)
                           (bisect_left (sections m) s1)) as [Heq | Hne].
    + eauto.
    + destruct (straddled_key s0 s1 m m1) as (k & v & Hk & Hks); auto.
      rewrite keys_lookup, Hk. cbn. eauto.
  - exfalso. pose proof (add_node_cases s1 m Hwf) as Hcase.
    rewrite Hadd in Hcase. inversion Hcase as [ | Hc Hp | | ]. subst.
    destruct Hwf as [Hs _].
    rewrite (precedes_no_key_below _ _ Hs Hp) in Hkey. discriminate.
Qed.

(** *** The main partition *)

Lemma new_section_wf (c : XS.CrossSection) (m : MemberComplex) :
  wf m -> wf (new_section c m).2 /\
          ((new_section c m).1 < length (heap (new_section c m).2))%nat.
Proof.
  intros [Hs Ha]. cbn. rewrite length_app. cbn. split; [|lia].
  split; [exact Hs|]. cbn [sections].
  unfold allocated in *. cbn [heap sections] in *.
  rewrite forallb_forall in Ha. apply forallb_forall.
  intros [k w] Hin. specialize (Ha _ Hin). cbn [snd] in *.
  destruct w; [|reflexivity].
  apply Nat.ltb_lt in Ha. apply Nat.ltb_lt. rewrite length_app. lia.
Qed.

Lemma add_section_wf (s0 s1 : Q) (x : loc) (m : MemberComplex) :
  wf m -> (x < length (heap m))%nat -> wf (add_section s0 s1 x m).
Proof.
  intros Hwf Hx. unfold add_section.
  apply (wf_setitem {| heap := heap m;
                       sections := setitem (sections m) s0 (Some x) |});
    cbn [heap]; [|lia|trivial].
  apply wf_setitem; auto.
Qed.

(** One turn of the loop: the pending end marker at [sk] (or nothing at
    all, on the first turn) becomes a section and [sk1] the new end. *)
Lemma add_section_shape (sk sk1 : Q) (x : loc) (m : MemberComplex)
    (d : SortedDict) :
  sections m = d ++ [(sk, None)] \/ sections m = d ->
  Forall (fun kv : Q * ref => kv.1 < sk) d -> sk < sk1 ->
  sections (add_section sk sk1 x m) = (d ++ [(sk, Some x)]) ++ [(sk1, None)].
Proof.
  intros Hd Hlt H01. unfold add_section. cbn [sections].
  assert (setitem (sections m) sk (Some x) = d ++ [(sk, Some x)]) as ->.
  { destruct Hd as [-> | ->].
    - apply setitem_snoc_eq. exact Hlt.
    - apply setitem_snoc_gt. exact Hlt. }
  apply setitem_snoc_gt. apply Forall_app. split.
  - eapply Forall_impl; [exact Hlt|]. cbn. intros; lra.
  - constructor; [exact H01 | constructor].
Qed.

Lemma add_main_partition_rest (rest : list Q) :
  forall (sk : Q) (props : list XS.CrossSection) (m : MemberComplex)
         (d : SortedDict),
  ascending (sk :: rest) = true ->
  (length rest <= length props)%nat ->
  wf m -> sections m = d ++ [(sk, None)] ->
  Forall (fun kv : Q * ref => kv.1 < sk) d -> Forall is_section d ->
  exists m', add_main_partition (sk :: rest) props m = Ok m' /\
             wf m' /\ terminated (sections m') = true /\
             keys (sections m') = keys d ++ sk :: rest.
Proof.
  induction rest as [|sk1 rest IH]; intros sk props m d Hs Hlen Hwf Hd Hlt Hsec.
  - exists m. cbn. split; [reflexivity|]. split; [exact Hwf|].
    rewrite Hd. split; [apply terminated_snoc; exact Hsec|].
    unfold keys. rewrite map_app. reflexivity.
  - destruct props as [|iprop props]; [cbn in Hlen; lia|].
    cbn [add_main_partition].
    apply ascending_cons in Hs as [Hs Hall].
    pose proof (Forall_inv Hall) as H01. cbv beta in H01.
    destruct (new_section_wf iprop m Hwf) as [Hwf1 Hx].
    set (lm := new_section iprop m) in *.
    pose proof (add_section_shape sk sk1 lm.1 lm.2 d (or_introl Hd) Hlt H01)
      as Hshape.
    destruct (IH sk1 props (add_section sk sk1 lm.1 lm.2)
                (d ++ [(sk, Some lm.1)])) as (m' & Hrun & Hwf' & Ht' & Hk');
      auto.
    + cbn in Hlen. lia.
    + apply add_section_wf; assumption.
    + apply Forall_app. split.
      * eapply Forall_impl; [exact Hlt|]. cbn. intros; lra.
      * constructor; [exact H01 | constructor].
    + apply Forall_app. split; [exact Hsec|].
      constructor; [discriminate | constructor].
    + exists m'. split; [exact Hrun|]. split; [exact Hwf'|].
      split; [exact Ht'|]. rewrite Hk'. unfold keys.
      rewrite map_app, <- app_assoc. reflexivity.
Qed.

(** The loop of [add_main_sections], run on a fresh registry with a
    strictly ascending grid of at least two points, establishes the
    invariant, with the grid as key set. *)
Lemma add_main_partition_terminated (s_full : list Q)
    (props : list XS.CrossSection) :
  ascending s_full = true -> (2 <= length s_full)%nat ->
  (length s_full <= S (length props))%nat ->
  exists m, add_main_partition s_full props empty_member = Ok m /\
            wf m /\ terminated (sections m) = true /\
            keys (sections m) = s_full.
Proof.
  intros Hs H2 Hlen.
  destruct s_full as [|s0 [|s1 rest]]; cbn in H2; try lia.
  destruct props as [|iprop props]; [cbn in Hlen; lia|].
  cbn [add_main_partition].
  assert (Hwf0 : wf empty_member) by (split; reflexivity).
  apply ascending_cons in Hs as [Hs Hall].
  pose proof (Forall_inv Hall) as H01. cbv beta in H01.
  destruct (new_section_wf iprop empty_member Hwf0) as [Hwf1 Hx].
  set (lm := new_section iprop empty_member) in *.
  pose proof (add_section_shape s0 s1 lm.1 lm.2 [] (or_intror eq_refl)
                (List.Forall_nil _) H01) as Hshape.
  destruct (add_main_partition_rest rest s1 props
              (add_section s0 s1 lm.1 lm.2) ([] ++ [(s0, Some lm.1)]))
    as (m' & Hrun & Hwf' & Ht' & Hk'); auto.
  - cbn in Hlen. lia.
  - apply add_section_wf; assumption.
  - constructor; [exact H01 | constructor].
  - constructor; [discriminate | constructor].
  - exists m'. repeat split; try assumption; apply Hwf'.
Qed.

(** *** Where [insert_section] does cover [s0, s1) *)

Lemma lookup_bisect_left_lt (d : SortedDict) (s : Q) (i : nat) (k : Q) (v : ref) :
  ascending (keys d) = true -> d !! i = Some (k, v) -> k < s ->
  (i < bisect_left d s)%nat.
Proof.
  revert i. induction d as [|[k0 w0] d IH]; intros i Hs Hi Hks; [discriminate|].
  cbn [keys map fst] in Hs. apply ascending_cons in Hs as [Hs Hall].
  cbn [bisect_left]. destruct i as [|i]; cbn in Hi.
  - injection Hi as -> ->. assert (Qltb k s = true) as -> by qsolve. lia.
  - assert (k0 < k).
    { rewrite List.Forall_forall in Hall. apply Hall.
      apply list_elem_of_lookup_2, list_elem_of_In in Hi.
      apply (in_map fst) in Hi. exact Hi. }
    assert (Qltb k0 s = true) as -> by qsolve.
    specialize (IH i Hs Hi Hks). lia.
Qed.

Lemma lookup_bisect_left_ge (d : SortedDict) (s : Q) (i : nat) (k : Q) (v : ref) :
  d !! i = Some (k, v) -> s <= k -> (bisect_left d s <= i)%nat.
Proof.
  revert i. induction d as [|[k0 w0] d IH]; intros i Hi Hsk; [discriminate|].
  cbn [bisect_left]. destruct i as [|i]; cbn in Hi.
  - injection Hi as -> ->. assert (Qltb k s = false) as -> by qsolve. lia.
  - destruct (Qltb k0 s); [|lia]. specialize (IH i Hi Hsk). lia.
Qed.

Lemma setitem_lookup_below (d : SortedDict) (s : Q) (v : ref) (i : nat) :
  (i < bisect_left d s)%nat -> setitem d s v !! i = d !! i.
Proof.
  revert i. induction d as [|[k0 w0] d IH]; intros i Hi; cbn in Hi; [lia|].
  destruct (Qltb k0 s) eqn:Hlt; [|lia].
  cbn [setitem]. assert ((s ?= k0) = Gt) as ->.
  { apply Qgt_alt. qprop. exact Hlt. }
  destruct i as [|i]; [reflexivity|]. cbn. apply IH. lia.
Qed.

Lemma In_setitem_strong (d : SortedDict) (s : Q) (v : ref) (k : Q) (w : ref) :
  ascending (keys d) = true -> In (k, w) (setitem d s v) ->
  (k == s /\ w = v) \/ (In (k, w) d /\ ~ k == s).
Proof.
  induction d as [|[k0 w0] d IH]; intros Hs; cbn [setitem].
  - intros [[= <- <-] | []]. left. split; reflexivity.
  - cbn [keys map fst] in Hs. apply ascending_cons in Hs as [Hs Hall].
    rewrite List.Forall_forall in Hall.
    assert (Htail : forall k' w', In (k', w') d -> k0 < k').
    { intros k' w' Hin. apply Hall. apply (in_map fst) in Hin. exact Hin. }
    destruct (s ?= k0) eqn:Hc; qprop.
    + intros [[= <- <-] | Hin].
      * left. split; [lra | reflexivity].
      * right. split; [right; exact Hin|].
        specialize (Htail _ _ Hin). lra.
    + intros [[= <- <-] | [[= <- <-] | Hin]].
      * left. split; reflexivity.
      * right. split; [left; reflexivity | lra].
      * right. split; [right; exact Hin|].
        specialize (Htail _ _ Hin). lra.
    + intros [[= <- <-] | Hin].
      * right. split; [left; reflexivity | lra].
      * destruct (IH Hs Hin) as [H | [H1 H2]]; [left; exact H|].
        right. split; [right; exact H1 | exact H2].
Qed.

Lemma covering_getitem (d : SortedDict) (s : Q) (v : ref) :
  ascending (keys d) = true -> getitem d s = Some v -> covering d s = Some v.
Proof.
  induction d as [|[k0 w0] d IH]; intros Hs Hg; [discriminate|].
  cbn [keys map fst] in Hs. apply ascending_cons in Hs as [Hs Hall].
  cbn in Hg. cbn [covering]. destruct (Qeqb k0 s) eqn:He.
  - injection Hg as ->. assert (Qleb k0 s = true) as -> by qsolve.
    assert (covering d s = None) as ->; [|reflexivity].
    destruct d as [|[k1 w1] d]; [reflexivity|]. cbn.
    apply Forall_inv in Hall. cbn in Hall.
    assert (Qleb k1 s = false) as -> by qsolve. reflexivity.
  - rewrite (IH Hs Hg).
    apply getitem_Some_In in Hg as (k & Hin & Hk).
    rewrite List.Forall_forall in Hall.
    assert (k0 < k) by (apply Hall; apply (in_map fst) in Hin; exact Hin).
    assert (Qleb k0 s = true) as -> by qsolve. reflexivity.
Qed.

Lemma contains_setitem_keep (d : SortedDict) (s k : Q) (v : ref) :
  contains d s = true -> contains (setitem d k v) s = true.
Proof.
  induction d as [|[k0 w0] d IH]; cbn [setitem contains]; [discriminate|].
  intros H. destruct (k ?= k0); cbn [contains].
  - exact H.
  - rewrite H. apply orb_true_r.
  - destruct (Qeqb k0 s); [reflexivity|]. apply IH. exact H.
Qed.

(** The items of the registry after [add_node(s1)] that lie below [s1] are
    items of the registry before the call. *)
Lemma add_node_items_below (s1 : Q) (m m1 : MemberComplex) (k : Q) (v : ref) :
  wf m -> add_node s1 m = Ok m1 -> In (k, v) (sections m1) -> k < s1 ->
  In (k, v) (sections m).
Proof.
  intros Hwf Hadd Hin Hlt.
  destruct (add_node_cases s1 m Hwf); try discriminate;
    injection Hadd as <-; cbn [sections] in Hin; [exact Hin| |];
    apply In_setitem in Hin as [[He _] | Hin]; solve [lra | exact Hin].
Qed.

(** The node at [s1] after [add_node(s1)] carries the attribute values of
    the section that covered [s1] before. *)
Lemma add_node_right_neighbour (s1 : Q) (m m1 : MemberComplex) (l : loc)
    (c : XS.CrossSection) :
  wf m -> add_node s1 m = Ok m1 ->
  covering (sections m) s1 = Some (Some l) -> heap m !! l = Some c ->
  section_at m1 s1 = Some c.
Proof.
  intros Hwf Hadd Hcov Hl. unfold section_at.
  destruct (add_node_cases s1 m Hwf) as [Hc | | k Hc Hcov' | k l0 c0 Hc Hcov' _ _ Hl0];
    try discriminate; injection Hadd as <-; cbn [sections heap].
  - destruct (getitem (sections m) s1) as [v|] eqn:Hg.
    + rewrite (covering_getitem _ _ _ (proj1 Hwf) Hg) in Hcov.
      injection Hcov as ->. exact Hl.
    + apply contains_In in Hc as (k & Hin & Hk). exfalso.
      apply in_map_iff in Hin as ([k' v'] & <- & Hin). cbn in Hk.
      pose proof (getitem_In _ _ _ (proj1 Hwf) Hin) as Hg'.
      clear -Hg Hg' Hk. revert Hg Hg'.
      induction (sections m) as [|[k0 w0] d IH]; cbn; [discriminate|].
      destruct (Qeqb k0 s1) eqn:H1; [discriminate|].
      destruct (Qeqb k0 k') eqn:H2; [qprop; lra|]. exact IH.
  - congruence.
  - rewrite getitem_setitem_same.
    assert (l0 = l) as -> by congruence.
    assert (c0 = c) as -> by congruence.
    apply lookup_lt_Some in Hl.
    rewrite lookup_app_r by lia. rewrite Nat.sub_diag. reflexivity.
Qed.

(** The second half of C1 holds on every call: the node at [s1] keeps the
    attribute values of the section that covered [s1] before the call. *)
Lemma insert_section_right_neighbour (s0 s1 : Q) (x : loc)
    (m m' : MemberComplex) (l : loc) (c : XS.CrossSection) :
  wf m -> s0 < s1 -> insert_section s0 s1 x m = Ok m' ->
  covering (sections m) s1 = Some (Some l) -> heap m !! l = Some c ->
  section_at m' s1 = Some c.
Proof.
  intros Hwf H01 Hins Hcov Hl.
  destruct (add_node s1 m) as [m1|e] eqn:Hadd;
    [|unfold insert_section in Hins; rewrite Hadd in Hins; discriminate].
  pose proof (add_node_right_neighbour _ _ _ _ _ Hwf Hadd Hcov Hl) as Hr.
  rewrite (insert_section_unfold _ _ _ _ _ Hadd) in Hins.
  unfold section_at in *.
  destruct (Nat.eqb_spec (bisect_left (sections m) s0)
                         (bisect_left (sections m) s1)) as [Heq | Hne].
  - injection Hins as <-. cbn [sections heap].
    rewrite getitem_setitem_other by lra. exact Hr.
  - destruct (straddled_key s0 s1 m m1) as (k & v & Hk & Hks); auto; [lra|].
    rewrite keys_lookup, Hk in Hins. cbn in Hins.
    injection Hins as <-. cbn [sections heap].
    rewrite !getitem_setitem_other by lra. exact Hr.
Qed.

Lemma add_node_lookup_below (s1 : Q) (m m1 : MemberComplex) (i : nat) :
  add_node s1 m = Ok m1 -> (i < bisect_left (sections m) s1)%nat ->
  sections m1 !! i = sections m !! i.
Proof.
  unfold add_node. destruct (contains (sections m) s1).
  - intros [= <-]. reflexivity.
  - destruct (_ <? 0)%Z; [discriminate|].
    destruct (keys (sections m) !! _); [|discriminate]. cbn.
    destruct (getitem (sections m) q); [|discriminate]. cbn.
    destruct (copy_copy (heap m) r); [|discriminate]. cbn.
    intros [= <-]. cbn [sections]. apply setitem_lookup_below.
Qed.

(** The first half of C1 holds when at most one old key lies in
    [s0, s1): then every key of the new registry in [s0, s1) refers to the
    inserted section. *)
Lemma insert_section_single_straddle (s0 s1 : Q) (x : loc)
    (m m' : MemberComplex) :
  wf m -> s0 < s1 ->
  (bisect_left (sections m) s1 <= S (bisect_left (sections m) s0))%nat ->
  insert_section s0 s1 x m = Ok m' ->
  getitem (sections m') s0 = Some (Some x) /\
  contains (sections m') s1 = true /\
  covered_by (sections m') s0 s1 x.
Proof.
  intros Hwf H01 Hone Hins.
  destruct (add_node s1 m) as [m1|e] eqn:Hadd;
    [|unfold insert_section in Hins; rewrite Hadd in Hins; discriminate].
  destruct (add_node_wf _ _ _ Hwf Hadd) as [[Hs1 _] _].
  assert (Hc1 : contains (sections m1) s1 = true).
  { destruct (add_node_cases s1 m Hwf); try discriminate;
      injection Hadd as <-; cbn [sections];
      auto using contains_setitem_same. }
  assert (Hold : forall k v, In (k, v) (sections m1) -> s0 <= k -> k < s1 ->
                 exists i, sections m !! i = Some (k, v) /\
                           (bisect_left (sections m) s0 <= i)%nat /\
                           (i < bisect_left (sections m) s1)%nat).
  { intros k v Hin H0 H1.
    pose proof (add_node_items_below _ _ _ _ _ Hwf Hadd Hin H1) as Hin'.
    apply list_elem_of_In, list_elem_of_lookup_1 in Hin' as [i Hi].
    exists i. split; [exact Hi|]. split.
    - eapply lookup_bisect_left_ge; eauto.
    - eapply lookup_bisect_left_lt; eauto. apply Hwf. }
  rewrite (insert_section_unfold _ _ _ _ _ Hadd) in Hins.
  destruct (Nat.eqb_spec (bisect_left (sections m) s0)
                         (bisect_left (sections m) s1)) as [Heq | Hne].
  - injection Hins as <-. cbn [sections].
    split; [apply getitem_setitem_same|].
    split; [apply contains_setitem_keep; exact Hc1|].
    intros k v Hin H0 H1.
    apply In_setitem in Hin as [[_ ->] | Hin]; [reflexivity|].
    destruct (Hold _ _ Hin H0 H1) as (i & _ & Hge & Hlt). lia.
  - destruct (straddled_key s0 s1 m m1) as (ks & vs & Hk & Hks); auto; [lra|].
    rewrite keys_lookup, Hk in Hins. cbn in Hins.
    injection Hins as <-. cbn [sections].
    split; [apply getitem_setitem_same|].
    split; [do 2 apply contains_setitem_keep; exact Hc1|].
    intros k v Hin H0 H1.
    apply In_setitem in Hin as [[_ ->] | Hin]; [reflexivity|].
    apply In_setitem_strong in Hin as [[_ ->] | [Hin Hne']];
      [reflexivity | | exact Hs1].
    destruct (Hold _ _ Hin H0 H1) as (i & Hi & Hge & Hlt).
    assert (i = bisect_left (sections m) s0) as -> by lia.
    rewrite (add_node_lookup_below _ _ _ _ Hadd) in Hk by lia.
    rewrite Hi in Hk. injection Hk as <- <-.
    exfalso. apply Hne'. reflexivity.
Qed.

(** ** The invariant along the pipeline *)

Lemma registry_inv_sections (kl : Q) (m : MemberComplex) (k : Q) (v : ref) :
  registry_inv kl m -> In (k, v) (sections m) -> ~ k == kl ->
  exists l c, v = Some l /\ heap m !! l = Some c.
Proof.
  intros ([Hs Ha] & Ht & Hl) Hin Hne.
  destruct v as [l|].
  - destruct (allocated_lookup _ _ _ Ha Hin) as [c Hc]. eauto.
  - rewrite (terminated_None_last _ _ _ Hs Ht Hl Hin) in Hne.
    exfalso. apply Hne. reflexivity.
Qed.

(** C10, as the code has it.  The loop of [add_main_sections] over a
    strictly ascending grid of at least two points produces a registry in
    which exactly the greatest key [kl] maps to [None] and every other key
    maps to an allocated section object; [add_node(s)] keeps this for
    [s <= kl], and [insert_section(s0, s1, _)] keeps it for
    [s0 < s1 <= kl]. *)
Theorem registry_invariant_kept (s_full : list Q)
    (props : list XS.CrossSection) (kl : Q) :
  ascending s_full = true -> (2 <= length s_full)%nat ->
  (length s_full <= S (length props))%nat -> last s_full = Some kl ->
  (exists m0, add_main_partition s_full props empty_member = Ok m0 /\
              registry_inv kl m0 /\ keys (sections m0) = s_full) /\
  (forall m, registry_inv kl m ->
     (forall s m', s <= kl -> add_node s m = Ok m' -> registry_inv kl m') /\
     (forall s0 s1 x m', s0 < s1 -> s1 <= kl -> (x < length (heap m))%nat ->
        insert_section s0 s1 x m = Ok m' -> registry_inv kl m') /\
     (forall k v, In (k, v) (sections m) -> ~ k == kl ->
        exists l c, v = Some l /\ heap m !! l = Some c)).
Proof.
  intros Hs H2 Hlen Hlast. split.
  - destruct (add_main_partition_terminated s_full props Hs H2 Hlen)
      as (m0 & Hrun & Hwf & Ht & Hk).
    exists m0. split; [exact Hrun|]. split; [|exact Hk].
    split; [exact Hwf|]. split; [exact Ht|].
    unfold last_key. rewrite Hk. exact Hlast.
  - intros m Hinv. split; [|split].
    + intros s m' Hle Hadd. destruct Hinv as (Hwf & Ht & Hl).
      destruct (add_node_wf _ _ _ Hwf Hadd) as [Hwf' _].
      destruct (add_node_terminated _ _ _ _ Hwf Ht Hl Hle Hadd).
      repeat split; try assumption; apply Hwf'.
    + intros s0 s1 x m' H01 H1l Hx Hins. destruct Hinv as (Hwf & Ht & Hl).
      destruct (insert_section_terminated _ _ _ _ _ _ Hwf Ht Hl H01 H1l Hx Hins)
        as (Hwf' & Ht' & Hl').
      repeat split; try assumption; apply Hwf'.
    + intros k v. apply registry_inv_sections. exact Hinv.
Qed.

Lemma registry_invariant_kept_witness :
  (exists m0,
     add_main_partition [0; 3 # 10; 6 # 10; 1]
       [sample_section 1; sample_section 2; sample_section 3] empty_member
     = Ok m0 /\
     registry_inv 1 m0 /\ keys (sections m0) = [0; 3 # 10; 6 # 10; 1]) /\
  (forall m, registry_inv 1 m ->
     (forall s m', s <= 1 -> add_node s m = Ok m' -> registry_inv 1 m') /\
     (forall s0 s1 x m', s0 < s1 -> s1 <= 1 -> (x < length (heap m))%nat ->
        insert_section s0 s1 x m = Ok m' -> registry_inv 1 m') /\
     (forall k v, In (k, v) (sections m) -> ~ k == 1 ->
        exists l c, v = Some l /\ heap m !! l = Some c)).
Proof.
  apply (registry_invariant_kept [0; 3 # 10; 6 # 10; 1]
           [sample_section 1; sample_section 2; sample_section 3] 1).
  - reflexivity.
  - simpl. lia.
  - simpl. lia.
  - reflexivity.
Defined.

(** C10 as stated fails: nothing stops [add_node] past the end marker,
    where it copies the marker itself, and [insert_section] with
    [s0 = s1] on the greatest key overwrites the marker. *)
Lemma registry_invariant_broken_past_end :
  registry_inv 1 sample_member /\
  (exists m', add_node 2 sample_member = Ok m' /\
              sections m' = [(0, Some 0%nat); (3 # 10, Some 1%nat);
                             (6 # 10, Some 2%nat); (1, None); (2, None)] /\
              terminated (sections m') = false) /\
  (exists m', insert_section 1 1 3%nat sample_member = Ok m' /\
              sections m' = [(0, Some 0%nat); (3 # 10, Some 1%nat);
                             (6 # 10, Some 2%nat); (1, Some 3%nat)] /\
              terminated (sections m') = false).
Proof.
  split; [repeat split|split]; eexists; repeat split.
Qed.

(** ** [insert_section] over several old points *)

(** C1 on a registry with keys 0, 0.3, 0.6, 1: [insert_section(0.1, 0.9, X)]
    overwrites the first straddled key 0.3 only; the key 0.6 inside
    [0.1, 0.9) still refers to its old section, while the node added at 0.9
    carries a copy of the section that covered 0.9 before the call. *)
Theorem insert_section_keeps_inner_section :
  registry_inv 1 sample_member /\
  exists m',
    insert_section (1 # 10) (9 # 10) 3%nat sample_member = Ok m' /\
    sections m' = [(0, Some 0%nat); (1 # 10, Some 3%nat); (3 # 10, Some 3%nat);
                   (6 # 10, Some 2%nat); (9 # 10, Some 4%nat); (1, None)] /\
    section_at m' (6 # 10) = Some (sample_section 3) /\
    section_at m' (1 # 10) = Some (sample_section 4) /\
    ~ covered_by (sections m') (1 # 10) (9 # 10) 3%nat /\
    covering (sections sample_member) (9 # 10) = Some (Some 2%nat) /\
    section_at m' (9 # 10) = section_at sample_member (6 # 10).
Proof.
  split; [repeat split|].
  eexists. split; [reflexivity|]. repeat split.
  intros H.
  assert (Some 2%nat = Some 3%nat) as Habs; [|discriminate Habs].
  apply (H (6 # 10)); [|lra|lra].
  do 3 right. left. reflexivity.
Qed.

(** ** Ghost sections and the copy made by [add_node] *)

(** The caller in [add_main_sections]: with [s_ghost1 = 0.45] a node is
    added at 0.45 and the sections to its left (at 0 and 0.3) are ghosted
    in place.  The node at 0.45 holds a copy of the section at 0.3 taken
    before the ghosting, so it keeps the structural values. *)
Example adjust_ghost_keeps_copy :
  exists m',
    adjust_ghost (45 # 100) 1 sample_member = Ok m' /\
    keys (sections m') = [0; 3 # 10; 45 # 100; 6 # 10; 1] /\
    section_at m' 0 = Some (XS.make_ghost (sample_section 1)) /\
    section_at m' (3 # 10) = Some (XS.make_ghost (sample_section 2)) /\
    section_at m' (45 # 100) = Some (sample_section 2) /\
    section_at m' (6 # 10) = Some (sample_section 3).
Proof.
  eexists. split; [reflexivity|]. repeat split.
Qed.

(** ** Grid refinement *)

Lemma ascending_Sorted (l : list Q) :
  ascending l = true <-> StronglySorted Qlt l.
Proof.
  induction l as [|x l IH].
  - split; [constructor | reflexivity].
  - split.
    + intros H. apply ascending_cons in H as [Hs Hall].
      constructor; [apply IH; exact Hs | exact Hall].
    + intros H. inversion H as [|? ? Hs Hall]; subst.
      apply ascending_intro; [apply IH; exact Hs | exact Hall].
Qed.

Lemma insert_unique_InA (x y : Q) (l : list Q) :
  InA Qeq y (insert_unique x l) <-> y == x \/ InA Qeq y l.
Proof.
  induction l as [|z l IH]; cbn [insert_unique].
  - rewrite InA_cons, InA_nil. tauto.
  - destruct (x ?= z) eqn:Hc; qprop.
    + rewrite InA_cons. split; [tauto|].
      intros [H | H]; [left; lra | exact H].
    + rewrite !InA_cons. tauto.
    + rewrite !InA_cons, IH. tauto.
Qed.

Lemma insert_unique_ascending (x : Q) (l : list Q) :
  ascending l = true -> ascending (insert_unique x l) = true.
Proof.
  induction l as [|z l IH]; intros Hs; [reflexivity|].
  cbn [insert_unique]. destruct (x ?= z) eqn:Hc; qprop.
  - exact Hs.
  - pose proof Hs as Hs'. apply ascending_cons in Hs' as [_ Hall].
    apply ascending_intro; [exact Hs|].
    constructor; [exact Hc|].
    eapply Forall_impl; [exact Hall|]. cbn. intros; lra.
  - apply ascending_cons in Hs as [Hs Hall].
    apply ascending_intro; [apply IH; exact Hs|].
    apply List.Forall_forall. intros y Hy.
    assert (InA Qeq y (insert_unique x l)) as Hin
      by (apply In_InA; [apply Q_Setoid | exact Hy]).
    apply insert_unique_InA in Hin as [He | Hin]; [lra|].
    apply InA_alt in Hin as (y' & He & Hin).
    rewrite List.Forall_forall in Hall. specialize (Hall _ Hin). lra.
Qed.

Lemma np_unique_ascending (l : list Q) : ascending (np_unique l) = true.
Proof.
  induction l as [|x l IH]; [reflexivity|].
  cbn. apply insert_unique_ascending. exact IH.
Qed.

Lemma np_unique_InA (y : Q) (l : list Q) :
  InA Qeq y (np_unique l) <-> InA Qeq y l.
Proof.
  induction l as [|x l IH]; [reflexivity|].
  cbn [np_unique fold_right]. fold (np_unique l).
  rewrite insert_unique_InA, InA_cons, IH. reflexivity.
Qed.

(** Two strictly ascending lists with the same values are equal entry by
    entry. *)
Lemma ascending_same_values (l l' : list Q) :
  ascending l = true -> ascending l' = true ->
  (forall y, InA Qeq y l <-> InA Qeq y l') -> eqlistA Qeq l l'.
Proof.
  intros Hl Hl' Heq.
  apply (SortA_equivlistA_eqlistA Q_Setoid
           (Build_StrictOrder Qlt Qlt_irrefl Qlt_trans) Qlt_compat).
  - apply StronglySorted_Sorted, ascending_Sorted. exact Hl.
  - apply StronglySorted_Sorted, ascending_Sorted. exact Hl'.
  - exact Heq.
Qed.

Lemma Qnat_lt (i j : nat) : (i < j)%nat -> Qnat i < Qnat j.
Proof. intros H. unfold Qnat. rewrite <- Zlt_Qlt. lia. Qed.

Lemma Qnat_pos (n : nat) : (1 <= n)%nat -> 0 < Qnat n.
Proof. intros H. apply (Qnat_lt 0 n). lia. Qed.

Lemma step_pos (a b : Q) (n : nat) :
  a < b -> (1 <= n)%nat -> 0 < (b - a) / Qnat n.
Proof.
  intros Hab Hn. apply Qlt_shift_div_l; [apply Qnat_pos; exact Hn | lra].
Qed.

Lemma step_total (a b : Q) (n : nat) :
  (1 <= n)%nat -> a + Qnat n * ((b - a) / Qnat n) == b.
Proof.
  intros Hn. pose proof (Qnat_pos n Hn). field. lra.
Qed.

Lemma InA_map_seq (f : nat -> Q) (y : Q) (i n : nat) :
  InA Qeq y (map f (seq i n)) <-> exists j, (i <= j < i + n)%nat /\ y == f j.
Proof.
  rewrite InA_alt. split.
  - intros (x & He & Hin). apply in_map_iff in Hin as (j & <- & Hj).
    apply in_seq in Hj. eauto.
  - intros (j & Hj & He). exists (f j). split; [exact He|].
    apply in_map. apply in_seq. exact Hj.
Qed.

Lemma subdivide_InA (a b : Q) (n : nat) (y : Q) :
  InA Qeq y (subdivide a b n) <->
  exists j, (j < n)%nat /\ y == a + Qnat j * ((b - a) / Qnat n).
Proof.
  unfold subdivide. rewrite InA_map_seq. split; intros (j & Hj & He);
    exists j; (split; [lia | exact He]).
Qed.

Lemma linspace_InA (a b : Q) (n : nat) (y : Q) :
  (1 <= n)%nat ->
  InA Qeq y (linspace a b (n + 1)) <-> InA Qeq y (subdivide a b n) \/ y == b.
Proof.
  intros Hn. destruct n as [|n]; [lia|].
  replace (S n + 1)%nat with (S (S n)) by lia. cbn [linspace].
  rewrite InA_app_iff, InA_cons, InA_nil, subdivide_InA, InA_map_seq.
  split.
  - intros [(j & Hj & He) | [He | []]]; [left | right; exact He].
    exists j. split; [lia|]. rewrite He. ring.
  - intros [(j & Hj & He) | He]; [left | right; left; exact He].
    exists j. split; [lia|]. rewrite He. ring.
Qed.

Lemma subdivide_bounds (a b : Q) (n : nat) (y : Q) :
  a < b -> In y (subdivide a b n) -> a <= y /\ y < b.
Proof.
  intros Hab Hin. unfold subdivide in Hin.
  apply in_map_iff in Hin as (j & <- & Hj). apply in_seq in Hj.
  assert (Hn : (1 <= n)%nat) by lia.
  pose proof (step_pos a b n Hab Hn) as Hstep.
  pose proof (step_total a b n Hn) as Htot.
  assert (0 <= Qnat j).
  { unfold Qnat. change 0 with (inject_Z 0). rewrite <- Zle_Qle. lia. }
  assert (Qnat j < Qnat n) by (apply Qnat_lt; lia).
  split; [nra | nra].
Qed.

Lemma StronglySorted_app_lt (l1 l2 : list Q) :
  StronglySorted Qlt l1 -> StronglySorted Qlt l2 ->
  (forall x y, In x l1 -> In y l2 -> x < y) ->
  StronglySorted Qlt (l1 ++ l2).
Proof.
  intros H1 H2 H12. induction H1 as [|x l1 Hs IH Hall]; [exact H2|].
  cbn. constructor.
  - apply IH. intros x' y Hx Hy. apply H12; [right; exact Hx | exact Hy].
  - apply Forall_app. split; [exact Hall|].
    apply List.Forall_forall. intros y Hy. apply H12; [left; reflexivity | exact Hy].
Qed.

Lemma map_seq_sorted (f : nat -> Q) (n : nat) :
  (forall i j, (i < j)%nat -> f i < f j) ->
  forall i, StronglySorted Qlt (map f (seq i n)).
Proof.
  intros Hf. induction n as [|n IH]; intros i; cbn; constructor.
  - apply IH.
  - apply List.Forall_forall. intros y Hy.
    apply in_map_iff in Hy as (j & <- & Hj). apply in_seq in Hj.
    apply Hf. lia.
Qed.

Lemma subdivide_sorted (a b : Q) (n : nat) :
  a < b -> StronglySorted Qlt (subdivide a b n).
Proof.
  intros Hab. destruct n as [|n]; [constructor|].
  apply map_seq_sorted. intros i j Hij.
  pose proof (step_pos a b (S n) Hab ltac:(lia)) as Hstep.
  pose proof (Qnat_lt i j Hij). nra.
Qed.

Lemma spec_grid_head (a : Q) (rest : list Q) (n : nat) :
  (1 <= n)%nat -> exists y l, spec_grid (a :: rest) n = y :: l /\ y == a.
Proof.
  intros Hn. cbn [spec_grid]. destruct rest as [|b rest].
  - exists a, []. split; reflexivity.
  - destruct n as [|n]; [lia|]. unfold subdivide. cbn [seq map app].
    eexists _, _. split; [reflexivity|]. unfold Qnat. cbn. ring.
Qed.

Lemma spec_grid_lower (s : list Q) (n : nat) (a y : Q) :
  ascending (a :: s) = true -> In y (spec_grid (a :: s) n) -> a <= y.
Proof.
  revert a. induction s as [|b s IH]; intros a Hs Hin.
  - destruct Hin as [<- | []]. lra.
  - pose proof Hs as Hs'. apply ascending_cons in Hs' as [Hs' Hall].
    apply Forall_inv in Hall. cbv beta in Hall.
    change (spec_grid (a :: b :: s) n)
      with (subdivide a b n ++ spec_grid (b :: s) n) in Hin.
    apply in_app_or in Hin as [Hin | Hin].
    + apply (subdivide_bounds a b n y Hall Hin).
    + specialize (IH b Hs' Hin). lra.
Qed.

Lemma spec_grid_sorted (s : list Q) (n : nat) :
  ascending s = true -> StronglySorted Qlt (spec_grid s n).
Proof.
  induction s as [|a s IH]; intros Hs; [constructor|].
  destruct s as [|b s]; [repeat constructor|].
  pose proof Hs as Hs'. apply ascending_cons in Hs' as [Hs' Hall].
  apply Forall_inv in Hall. cbv beta in Hall.
  change (spec_grid (a :: b :: s) n)
    with (subdivide a b n ++ spec_grid (b :: s) n).
  apply StronglySorted_app_lt.
  - apply subdivide_sorted. exact Hall.
  - apply IH. exact Hs'.
  - intros x y Hx Hy.
    pose proof (subdivide_bounds a b n x Hall Hx).
    pose proof (spec_grid_lower s n b y Hs' Hy). lra.
Qed.

(** The values the loop appends are the values of the specified grid. *)
Lemma refined_points_values (s : list Q) (n : nat) (y : Q) :
  (1 <= n)%nat -> (2 <= length s)%nat ->
  InA Qeq y (refined_points s n) <-> InA Qeq y (spec_grid s n).
Proof.
  intros Hn. induction s as [|a s IH]; intros Hlen; [cbn in Hlen; lia|].
  destruct s as [|b s]; [cbn in Hlen; lia|].
  change (refined_points (a :: b :: s) n)
    with (linspace a b (n + 1) ++ refined_points (b :: s) n).
  change (spec_grid (a :: b :: s) n)
    with (subdivide a b n ++ spec_grid (b :: s) n).
  rewrite !InA_app_iff, linspace_InA by exact Hn.
  destruct (spec_grid_head b s n Hn) as (h & l & Hhead & Hh).
  destruct s as [|c s].
  - cbn [refined_points spec_grid]. rewrite InA_nil, InA_cons, InA_nil. tauto.
  - rewrite IH by (cbn; lia). split; [|tauto].
    intros [[H | H] | H]; [tauto | | tauto].
    right. rewrite Hhead. left. lra.
Qed.

(** The refined grid is, entry by entry, the specified grid. *)
Lemma refine_grid_spec (s : list Q) (n : nat) :
  ascending s = true -> (1 <= n)%nat -> (2 <= length s)%nat ->
  eqlistA Qeq (refine_grid s n) (spec_grid s n).
Proof.
  intros Hs Hn Hlen. apply ascending_same_values.
  - apply np_unique_ascending.
  - apply ascending_Sorted, spec_grid_sorted. exact Hs.
  - intros y. unfold refine_grid. rewrite np_unique_InA.
    apply refined_points_values; assumption.
Qed.

Lemma subdivide_length (a b : Q) (n : nat) : length (subdivide a b n) = n.
Proof. unfold subdivide. rewrite length_map, length_seq. reflexivity. Qed.

Lemma spec_grid_length (s : list Q) (n : nat) :
  (1 <= length s)%nat ->
  length (spec_grid s n) = (1 + n * (length s - 1))%nat.
Proof.
  induction s as [|a s IH]; intros Hlen; [cbn in Hlen; lia|].
  destruct s as [|b s]; [cbn; lia|].
  change (spec_grid (a :: b :: s) n)
    with (subdivide a b n ++ spec_grid (b :: s) n).
  rewrite length_app, subdivide_length, IH by (cbn; lia).
  cbn [length]. lia.
Qed.

Lemma spec_grid_lookup (s : list Q) (n k j : nat) (a b : Q) :
  (1 <= n)%nat -> s !! k = Some a -> s !! S k = Some b -> (j <= n)%nat ->
  exists y, spec_grid s n !! (k * n + j)%nat = Some y /\
            y == a + Qnat j * ((b - a) / Qnat n).
Proof.
  intros Hn. revert k. induction s as [|a0 s IH]; intros k Ha Hb Hj;
    [discriminate|].
  destruct s as [|b0 s]; [discriminate|].
  change (spec_grid (a0 :: b0 :: s) n)
    with (subdivide a0 b0 n ++ spec_grid (b0 :: s) n).
  destruct k as [|k].
  - injection Ha as ->. injection Hb as ->. cbn [Nat.mul Nat.add].
    destruct (Nat.eq_dec j n) as [-> | Hne].
    + rewrite lookup_app_r by (rewrite subdivide_length; lia).
      rewrite subdivide_length, Nat.sub_diag.
      destruct (spec_grid_head b s n Hn) as (h & l & -> & Hh).
      exists h. split; [reflexivity|].
      rewrite Hh. symmetry. apply step_total. exact Hn.
    + rewrite lookup_app_l by (rewrite subdivide_length; lia).
      unfold subdivide. rewrite list_lookup_fmap.
      rewrite lookup_seq_lt by lia. cbn.
      eexists. split; reflexivity.
  - cbn in Ha, Hb.
    rewrite lookup_app_r by (rewrite subdivide_length; lia).
    rewrite subdivide_length.
    replace (S k * n + j - n)%nat with (k * n + j)%nat by lia.
    apply IH; assumption.
Qed.

Lemma eqlistA_lookup (l l' : list Q) (i : nat) (y' : Q) :
  eqlistA Qeq l l' -> l' !! i = Some y' ->
  exists y, l !! i = Some y /\ y == y'.
Proof.
  intros H. revert i. induction H as [|x x' l l' Hx Hl IH]; intros i Hi;
    [discriminate|].
  destruct i as [|i]; cbn in *.
  - injection Hi as <-. eauto.
  - apply IH. exact Hi.
Qed.

Lemma spec_grid_control_points (s : list Q) (n : nat) (x : Q) :
  (1 <= n)%nat -> In x s -> InA Qeq x (spec_grid s n).
Proof.
  intros Hn. induction s as [|a s IH]; intros Hin; [destruct Hin|].
  destruct Hin as [<- | Hin].
  - destruct (spec_grid_head a s n Hn) as (h & l & -> & Hh).
    left. symmetry. exact Hh.
  - destruct s as [|b s]; [destruct Hin|].
    change (spec_grid (a :: b :: s) n)
      with (subdivide a b n ++ spec_grid (b :: s) n).
    apply InA_app_iff. right. apply IH. exact Hin.
Qed.

(** C5, for a grid of at least two points.  The refined grid contains
    every control point, its entry number [k * n_refine + j] is the [j]-th
    of the [n_refine] equal cuts of the interval from [s[k]] to [s[k + 1]],
    it is strictly ascending, and it has [1 + n_refine * (n - 1)] points,
    the number [get_nfull] announces. *)
Theorem refine_grid_correct (s : list Q) (n_refine : nat) :
  ascending s = true -> (2 <= length s)%nat -> (1 <= n_refine)%nat ->
  let g := refine_grid s n_refine in
  (forall x, In x s -> InA Qeq x g) /\
  (forall k j a b, s !! k = Some a -> s !! S k = Some b ->
     (j <= n_refine)%nat ->
     exists y, g !! (k * n_refine + j)%nat = Some y /\
               y == a + Qnat j * ((b - a) / Qnat n_refine)) /\
  ascending g = true /\
  length g = (1 + n_refine * (length s - 1))%nat /\
  Z.of_nat (length g) = get_nfull (Z.of_nat (length s)) (Z.of_nat n_refine).
Proof.
  intros Hs Hlen Hn g.
  pose proof (refine_grid_spec s n_refine Hs Hn Hlen) as Heq. fold g in Heq.
  assert (Hl : length g = (1 + n_refine * (length s - 1))%nat).
  { rewrite (eqlistA_length Heq). apply spec_grid_length. lia. }
  repeat split.
  - intros x Hin.
    pose proof (spec_grid_control_points s n_refine x Hn Hin) as Hx.
    apply InA_alt in Hx as (y & Hy & Hin').
    apply list_elem_of_In, list_elem_of_lookup_1 in Hin' as [i Hi].
    destruct (eqlistA_lookup _ _ _ _ Heq Hi) as (z & Hz & Hzy).
    apply InA_alt. exists z. split; [lra|].
    apply list_elem_of_In. eapply list_elem_of_lookup_2. exact Hz.
  - intros k j a b Ha Hb Hj.
    destruct (spec_grid_lookup s n_refine k j a b Hn Ha Hb Hj) as (y & Hy & He).
    destruct (eqlistA_lookup _ _ _ _ Heq Hy) as (z & Hz & Hzy).
    exists z. split; [exact Hz | lra].
  - apply np_unique_ascending.
  - exact Hl.
  - rewrite Hl. unfold get_nfull. lia.
Qed.

Lemma refine_grid_correct_witness :
  let g := refine_grid sample_grid 3 in
  (forall x, In x sample_grid -> InA Qeq x g) /\
  (forall k j a b, sample_grid !! k = Some a ->
     sample_grid !! S k = Some b -> (j <= 3)%nat ->
     exists y, g !! (k * 3 + j)%nat = Some y /\
               y == a + Qnat j * ((b - a) / Qnat 3)) /\
  ascending g = true /\
  length g = (1 + 3 * (length sample_grid - 1))%nat /\
  Z.of_nat (length g) = get_nfull (Z.of_nat (length sample_grid)) (Z.of_nat 3).
Proof.
  apply (refine_grid_correct sample_grid 3).
  - reflexivity.
  - simpl. lia.
  - lia.
Defined.

(** C5 as stated fails on a grid of one point: the loop runs over no
    interval, the refined grid is empty, it does not contain the control
    point, and its size is not the 1 that the formula and [get_nfull]
    give. *)
Lemma refine_grid_single_point :
  ascending single_point_grid = true /\
  refine_grid single_point_grid 1 = [] /\
  ~ InA Qeq (1 # 2) (refine_grid single_point_grid 1) /\
  length (refine_grid single_point_grid 1) <> (1 + 1 * (length single_point_grid - 1))%nat /\
  get_nfull 1 1 = 1%Z.
Proof.
  repeat split.
  - intros H. inversion H.
  - discriminate.
Qed.

(** ** The geometry checks *)


Lemma any_nonpositive_app (l1 l2 : list Q) :
  any_nonpositive (l1 ++ l2) = any_nonpositive l1 || any_nonpositive l2.
Proof. apply existsb_app. Qed.


(** The checks raise exactly when some section height, wall thickness or
    outer dimension is not positive. *)
Lemma yaml_checks_spec (inp : yaml_inputs) (s_param : list Q) :
  match yaml_checks inp s_param with
  | Ok _ =>
      any_nonpositive (yaml_section_height inp s_param) = false /\
      any_nonpositive (yaml_wall_thickness inp) = false /\
      any_nonpositive (yaml_outer_dimensions inp) = false
  | Raise e =>
      invalid_geometry e = true /\
      (any_nonpositive (yaml_section_height inp s_param) = true \/
       any_nonpositive (yaml_wall_thickness inp) = true \/
       any_nonpositive (yaml_outer_dimensions inp) = true)
  end.
Proof.
  unfold yaml_checks, yaml_outer_dimensions.
  destruct (any_nonpositive (yaml_section_height inp s_param)); [cbn; auto|].
  destruct (any_nonpositive (yaml_wall_thickness inp)); [cbn; auto|].
  destruct (shape inp).
  - destruct (any_nonpositive (outer_diameter_in inp)); cbn; auto.
  - rewrite any_nonpositive_app.
    destruct (any_nonpositive (side_length_a_in inp)
              || any_nonpositive (side_length_b_in inp)); cbn; auto.
Qed.





(** ** Divisions after the checks *)

(** The thickness-weighted density is guarded by the wall-thickness check:
    its divisors are positive, so it is finite. *)
Lemma vec_div_finite (u v : list Q) :
  any_nonpositive v = false -> Forall (fun r => is_finite r = true) (vec_div u v).
Proof.
  revert v. induction u as [|x u IH]; intros v Hv; [constructor|].
  destruct v as [|y v]; [constructor|].
  cbn in Hv. apply orb_false_iff in Hv as [Hy Hv].
  cbn [vec_div]. constructor; [|apply IH; exact Hv].
  cbn [np_div]. assert (Qeqb y 0 = false) as -> by qsolve. reflexivity.
Qed.

Lemma yaml_rho_finite (inp : yaml_inputs) (out : yaml_outputs) :
  yaml_compute inp = Ok out ->
  Forall (fun r => is_finite r = true) (out_rho out).
Proof.
  unfold yaml_compute.
  destruct (yaml_s_param inp) as [s_param|]; cbn; [|discriminate].
  pose proof (yaml_checks_spec inp s_param) as Hchk.
  destruct (yaml_checks inp s_param) as [[]|]; cbn; [|discriminate].
  destruct Hchk as (_ & Hwt & _).
  destruct (yaml_layers _ _ _ _ _) as [acc|]; cbn; [|discriminate].
  intros [= <-]. cbn [out_rho]. apply vec_div_finite. exact Hwt.
Qed.

(** C7 at a member whose only layer material has zero density (the
    default of [rho_mat]).  The geometry is valid, so the checks pass; the
    mass-weighted cost average then divides zero by the zero layer mass.
    Nothing is raised: [compute] returns, with [nan] as unit cost of both
    sections. *)
Theorem yaml_zero_density_unit_cost_nan :
  yaml_checks (sample_yaml 0) [0; 1 # 2; 1] = Ok () /\
  exists out,
    yaml_compute (sample_yaml 0) = Ok out /\
    out_unit_cost out = [NaN; NaN] /\
    Forall (fun r => is_finite r = true) (out_rho out).
Proof.
  split; [reflexivity|].
  eexists. split; [vm_compute; reflexivity|].
  split; [reflexivity|]. repeat constructor.
Qed.

(** ** Ring stiffener positions *)



Lemma Qnat_le (i j : nat) : (i <= j)%nat -> Qnat i <= Qnat j.
Proof. intros H. unfold Qnat. rewrite <- Zle_Qle. lia. Qed.







(** *** Clipping *)





(** ** Ballast capacity *)



Lemma heap_lookup_lt (h : list XS.CrossSection) (l : loc) :
  (l < length h)%nat -> exists c, h !! l = Some c.
Proof. intros Hl. apply lookup_lt_is_Some_2 in Hl as [c Hc]. eauto. Qed.


Lemma registry_inv_heap (kl : Q) (m : MemberComplex)
    (h' : list XS.CrossSection) :
  registry_inv kl m -> length h' = length (heap m) ->
  registry_inv kl {| heap := h'; sections := sections m |}.
Proof.
  intros ([Hs Ha] & Ht & Hl) Hlen. repeat split; try assumption.
  unfold allocated in *. cbn [heap sections]. rewrite Hlen. exact Ha.
Qed.

Section BallastProperties.

Variable np_interp : list Q -> list Q -> list Q -> list Q.
Variable sectionalInterp : list Q -> list Q -> list Q -> list Q.
Variable frustumVol : list Q -> list Q -> list Q -> list Q.
Variables (s_full z_full outer_diameter_full t_full : list Q).
Variables (s_ghost1 s_ghost2 : Q).

Hypothesis np_interp_length :
  forall x xp fp, length (np_interp x xp fp) = length x.





End BallastProperties.


(** The capacity ratio is an unguarded numpy division.  A segment with no
    available volume and no requested volume (variable ballast squeezed to
    nothing by the ghost limit) gets [nan], and the call still returns. *)
Lemma ballast_zero_capacity_nan :
  exists out m',
    add_circular_ballast_sections sample_interp sample_sectionalInterp
      sample_frustumVol sample_s_full sample_z_full sample_diameter_full
      sample_t_full 0 (1 # 2) [(6 # 10, 9 # 10)] [1000] [0] sample_member
    = Ok (out, m') /\
    map Qred (out_V_avail out) = [0] /\
    out_constr_ballast_capacity out = [NaN].
Proof.
  eexists _, _. split; [vm_compute; reflexivity|]. split; reflexivity.
Qed.

(** * Further properties *)

(** ** [add_node] and [insert_section] on what is already there *)

Lemma length_setitem (d : SortedDict) (s : Q) (v : ref) :
  (length d <= length (setitem d s v) <= S (length d))%nat.
Proof.
  induction d as [|[k w] d IH]; cbn [setitem length]; [lia|].
  destruct (s ?= k); cbn [length]; lia.
Qed.

(** X1. A successful [add_node(s)] only adds: [s] is a key afterwards, every
    other key keeps the reference it had, every object that existed keeps
    its attribute values, at most one key is new, and a registry that
    already had [s] is returned as it is.  Ascending keys and allocated
    references are kept. *)
Theorem add_node_only_adds (s : Q) (m m' : MemberComplex) :
  wf m -> add_node s m = Ok m' ->
  wf m' /\
  contains (sections m') s = true /\
  (forall k, ~ k == s -> getitem (sections m') k = getitem (sections m) k) /\
  (forall l c, heap m !! l = Some c -> heap m' !! l = Some c) /\
  (length (sections m) <= length (sections m') <= S (length (sections m)))%nat /\
  (contains (sections m) s = true -> m' = m).
Proof.
  intros Hwf Hadd.
  destruct (add_node_wf _ _ _ Hwf Hadd) as [Hwf' _].
  split; [exact Hwf'|].
  destruct (add_node_cases s m Hwf) as [Hc | | k Hc _ _ _ | k l c Hc _ _ _ Hl];
    try discriminate; injection Hadd as <-; cbn [sections heap].
  - repeat split; auto; lia.
  - split; [apply contains_setitem_same|].
    split; [intros k' Hk; apply getitem_setitem_other; exact Hk|].
    split; [auto|]. split; [apply length_setitem | congruence].
  - split; [apply contains_setitem_same|].
    split; [intros k' Hk; apply getitem_setitem_other; exact Hk|].
    split.
    + intros l' c' Hl'. rewrite lookup_app_l; [exact Hl'|].
      eapply lookup_lt_Some. exact Hl'.
    + split; [apply length_setitem | congruence].
Qed.

Lemma add_node_only_adds_witness :
  exists m',
    add_node (45 # 100) sample_member = Ok m' /\
    wf m' /\
    contains (sections m') (45 # 100) = true /\
    (forall k, ~ k == 45 # 100 ->
       getitem (sections m') k = getitem (sections sample_member) k) /\
    (forall l c, heap sample_member !! l = Some c -> heap m' !! l = Some c) /\
    (length (sections sample_member) <= length (sections m')
       <= S (length (sections sample_member)))%nat /\
    (contains (sections sample_member) (45 # 100) = true -> m' = sample_member).
Proof.
  eexists. split; [reflexivity|].
  apply (add_node_only_adds (45 # 100) sample_member).
  - split; reflexivity.
  - reflexivity.
Defined.

(** X2. [insert_section(s0, s1, x)] with [s0 <= s1] fails only with the
    error of [add_node], and exactly when [s1] precedes the first key. *)
Theorem insert_section_error (s0 s1 : Q) (x : loc) (m : MemberComplex) :
  wf m -> s0 <= s1 ->
  (forall e, insert_section s0 s1 x m = Raise e ->
             e = ValueError NodeBeforeStart) /\
  (insert_section s0 s1 x m = Raise (ValueError NodeBeforeStart) <->
   precedes_first_key (sections m) s1).
Proof.
  intros Hwf Hle.
  assert (Hok : forall m1, add_node s1 m = Ok m1 ->
                exists m', insert_section s0 s1 x m = Ok m').
  { intros m1 Hadd. rewrite (insert_section_unfold _ _ _ _ _ Hadd).
    destruct (Nat.eqb_spec (bisect_left (sections m) s0)
                           (bisect_left (sections m) s1)) as [Heq | Hne];
      [eauto|].
    destruct (straddled_key s0 s1 m m1) as (k & v & Hk & _); auto.
    rewrite keys_lookup, Hk. cbn. eauto. }
  assert (Hraise : forall e, add_node s1 m = Raise e ->
                   insert_section s0 s1 x m = Raise e).
  { intros e Hadd. unfold insert_section. rewrite Hadd. reflexivity. }
  pose proof (add_node_cases s1 m Hwf) as Hcase.
  destruct (add_node s1 m) as [m1|e] eqn:Hadd.
  - destruct (Hok m1 eq_refl) as [m' Hm']. rewrite Hm'. split.
    + discriminate.
    + split; [discriminate|]. intros Hp. exfalso.
      inversion Hcase as [Hc | | k Hc Hcov | k l c Hc Hcov]; subst.
      * destruct Hwf as [Hs _].
        apply (precedes_first_key_iff _ _ Hs) in Hp as [Hp _]. congruence.
      * rewrite (precedes_not_covered _ _ Hp) in Hcov. discriminate.
      * rewrite (precedes_not_covered _ _ Hp) in Hcov. discriminate.
  - rewrite (Hraise e eq_refl). inversion Hcase as [ | Hc Hp | | ]. subst.
    split; [intros e' [= <-]; reflexivity|]. tauto.
Qed.

Lemma insert_section_error_witness :
  (forall e, insert_section (-2 # 10) (-1 # 10) 3%nat sample_member = Raise e ->
             e = ValueError NodeBeforeStart) /\
  (insert_section (-2 # 10) (-1 # 10) 3%nat sample_member
     = Raise (ValueError NodeBeforeStart) <->
   precedes_first_key (sections sample_member) (-1 # 10)).
Proof.
  apply (insert_section_error (-2 # 10) (-1 # 10) 3%nat sample_member).
  - split; reflexivity.
  - discriminate.
Defined.

Lemma add_node_keeps_objects (s : Q) (m m' : MemberComplex) :
  wf m -> add_node s m = Ok m' ->
  forall l c, heap m !! l = Some c -> heap m' !! l = Some c.
Proof.
  intros Hwf Hadd l c Hl.
  destruct (add_node_cases s m Hwf); try discriminate;
    injection Hadd as <-; cbn [heap]; auto.
  apply lookup_app_l_Some. exact Hl.
Qed.

Lemma insert_section_heap (s0 s1 : Q) (x : loc) (m m1 m' : MemberComplex) :
  add_node s1 m = Ok m1 -> insert_section s0 s1 x m = Ok m' ->
  heap m' = heap m1.
Proof.
  intros Hadd Hins. rewrite (insert_section_unfold _ _ _ _ _ Hadd) in Hins.
  destruct (Nat.eqb _ _); [injection Hins as <-; reflexivity|].
  destruct (keys (sections m1) !! _); [|discriminate].
  injection Hins as <-. reflexivity.
Qed.

Lemma covering_has_key (d : SortedDict) (s : Q) (v : ref) :
  covering d s = Some v -> has_key_at_or_below d s = true.
Proof.
  destruct d as [|[k w] d]; [discriminate|]. cbn [covering].
  destruct (Qleb k s) eqn:Hk; [|discriminate]. intros _.
  unfold has_key_at_or_below. cbn. rewrite Hk. reflexivity.
Qed.

(** X3. [insert_section(s0, s1, x)] with [s0 < s1], when [s1] lies in a
    section of the registry: the call returns, the node at [s1] has the
    attribute values of the section that covered [s1] before the call, and
    no object that existed before has changed. *)
Theorem insert_section_end_node (s0 s1 : Q) (x : loc)
    (m : MemberComplex) (l : loc) (c : XS.CrossSection) :
  wf m -> s0 < s1 ->
  covering (sections m) s1 = Some (Some l) -> heap m !! l = Some c ->
  exists m',
    insert_section s0 s1 x m = Ok m' /\
    section_at m' s1 = Some c /\
    forall l' c', heap m !! l' = Some c' -> heap m' !! l' = Some c'.
Proof.
  intros Hwf H01 Hcov Hl.
  destruct (insert_section_ok s0 s1 x m Hwf ltac:(lra)
              (covering_has_key _ _ _ Hcov)) as [m' Hins].
  exists m'. split; [exact Hins|]. split.
  - exact (insert_section_right_neighbour s0 s1 x m m' l c Hwf H01 Hins
             Hcov Hl).
  - destruct (add_node s1 m) as [m1|e] eqn:Hadd;
      [|unfold insert_section in Hins; rewrite Hadd in Hins; discriminate].
    rewrite (insert_section_heap _ _ _ _ _ _ Hadd Hins).
    exact (add_node_keeps_objects s1 m m1 Hwf Hadd).
Qed.

Lemma insert_section_end_node_witness :
  exists m',
    insert_section (1 # 10) (9 # 10) 3%nat sample_member = Ok m' /\
    section_at m' (9 # 10) = Some (sample_section 3) /\
    forall l' c', heap sample_member !! l' = Some c' ->
                  heap m' !! l' = Some c'.
Proof.
  apply (insert_section_end_node (1 # 10) (9 # 10) 3%nat sample_member 2%nat).
  - split; reflexivity.
  - reflexivity.
  - reflexivity.
  - reflexivity.
Defined.

(** X4. When at most one old key lies in [s0, s1) and some key lies at or
    below [s1], [insert_section(s0, s1, x)] does what it is for: it
    returns, [s0] refers to [x], [s1] is a key, and every key of the new
    registry in [s0, s1) refers to [x]. *)
Theorem insert_section_covers_interval (s0 s1 : Q) (x : loc)
    (m : MemberComplex) :
  wf m -> s0 < s1 -> has_key_at_or_below (sections m) s1 = true ->
  (bisect_left (sections m) s1 <= S (bisect_left (sections m) s0))%nat ->
  exists m',
    insert_section s0 s1 x m = Ok m' /\
    getitem (sections m') s0 = Some (Some x) /\
    contains (sections m') s1 = true /\
    covered_by (sections m') s0 s1 x.
Proof.
  intros Hwf H01 Hkey Hone.
  destruct (insert_section_ok s0 s1 x m Hwf ltac:(lra) Hkey) as [m' Hins].
  exists m'. split; [exact Hins|].
  exact (insert_section_single_straddle s0 s1 x m m' Hwf H01 Hone Hins).
Qed.

Lemma insert_section_covers_interval_witness :
  exists m',
    insert_section (2 # 10) (4 # 10) 3%nat sample_member = Ok m' /\
    getitem (sections m') (2 # 10) = Some (Some 3%nat) /\
    contains (sections m') (4 # 10) = true /\
    covered_by (sections m') (2 # 10) (4 # 10) 3%nat.
Proof.
  apply (insert_section_covers_interval (2 # 10) (4 # 10) 3%nat sample_member).
  - split; reflexivity.
  - reflexivity.
  - reflexivity.
  - simpl. lia.
Defined.

(** X5. When [insert_section] straddles an old key [k] and [s0] itself is
    a new key, the two keys [s0] and [k] refer to one and the same object,
    the one the caller passed: no copy is made, so ghosting the section
    through [s0] changes what [k] reports as well. *)
Theorem insert_section_shares_object (s0 s1 : Q) (x : loc)
    (m m' : MemberComplex) :
  wf m -> s0 < s1 -> contains (sections m) s0 = false ->
  bisect_left (sections m) s0 <> bisect_left (sections m) s1 ->
  insert_section s0 s1 x m = Ok m' ->
  exists k,
    s0 < k /\ k < s1 /\ contains (sections m) k = true /\
    getitem (sections m') s0 = Some (Some x) /\
    getitem (sections m') k = Some (Some x) /\
    (forall c h', heap m' !! x = Some c ->
       ghost_at (Some x) (heap m') = Ok h' ->
       section_at {| heap := h'; sections := sections m' |} s0
         = Some (XS.make_ghost c) /\
       section_at {| heap := h'; sections := sections m' |} k
         = Some (XS.make_ghost c)).
Proof.
  intros Hwf H01 Hc0 Hne Hins.
  destruct (add_node s1 m) as [m1|e] eqn:Hadd;
    [|unfold insert_section in Hins; rewrite Hadd in Hins; discriminate].
  rewrite (insert_section_unfold _ _ _ _ _ Hadd) in Hins.
  destruct (Nat.eqb_spec (bisect_left (sections m) s0)
                         (bisect_left (sections m) s1)) as [Heq | _];
    [contradiction|].
  destruct (straddled_key s0 s1 m m1) as (k & v & Hk & Hks); auto; [lra|].
  pose proof (bisect_left_mono (sections m) s0 s1 ltac:(lra)) as Hmono.
  assert (Hk0 : sections m !! bisect_left (sections m) s0 = Some (k, v)).
  { rewrite <- (add_node_lookup_below _ _ _ _ Hadd) by lia. exact Hk. }
  assert (Hin : In (k, v) (sections m)).
  { apply list_elem_of_In. eapply list_elem_of_lookup_2. exact Hk0. }
  assert (Hck : contains (sections m) k = true).
  { apply contains_In. exists k. split; [|reflexivity].
    apply (in_map fst) in Hin. exact Hin. }
  assert (Hs0k : s0 < k).
  { assert (s0 <= k).
    { destruct (Qlt_le_dec k s0) as [Hlt | Hge]; [|exact Hge].
      pose proof (lookup_bisect_left_lt _ _ _ _ _ (proj1 Hwf) Hk0 Hlt). lia. }
    assert (~ k == s0).
    { rewrite contains_false, List.Forall_forall in Hc0. apply Hc0.
      apply (in_map fst) in Hin. exact Hin. }
    lra. }
  rewrite keys_lookup, Hk in Hins. cbn in Hins. injection Hins as <-.
  cbn [sections heap]. exists k.
  assert (Hg0 : getitem (setitem (setitem (sections m1) k (Some x)) s0 (Some x)) s0
                = Some (Some x)) by apply getitem_setitem_same.
  assert (Hgk : getitem (setitem (setitem (sections m1) k (Some x)) s0 (Some x)) k
                = Some (Some x)).
  { rewrite getitem_setitem_other by lra. apply getitem_setitem_same. }
  repeat split; try assumption.
  - unfold section_at. cbn [sections heap]. rewrite Hg0.
    unfold ghost_at in H0. rewrite H in H0. injection H0 as <-.
    apply list_lookup_insert_eq. eapply lookup_lt_Some. exact H.
  - unfold section_at. cbn [sections heap]. rewrite Hgk.
    unfold ghost_at in H0. rewrite H in H0. injection H0 as <-.
    apply list_lookup_insert_eq. eapply lookup_lt_Some. exact H.
Qed.

Lemma insert_section_shares_object_witness :
  exists k,
    (2 # 10) < k /\ k < (4 # 10) /\
    contains (sections sample_member) k = true /\
    getitem (sections sample_inserted) (2 # 10) = Some (Some 3%nat) /\
    getitem (sections sample_inserted) k = Some (Some 3%nat) /\
    (forall c h', heap sample_inserted !! 3%nat = Some c ->
       ghost_at (Some 3%nat) (heap sample_inserted) = Ok h' ->
       section_at {| heap := h'; sections := sections sample_inserted |} (2 # 10)
         = Some (XS.make_ghost c) /\
       section_at {| heap := h'; sections := sections sample_inserted |} k
         = Some (XS.make_ghost c)).
Proof.
  apply (insert_section_shares_object (2 # 10) (4 # 10) 3%nat sample_member
           sample_inserted).
  - split; reflexivity.
  - reflexivity.
  - reflexivity.
  - simpl. lia.
  - reflexivity.
Defined.

(** ** The main partition, read back *)

Lemma keys_partition_items (i : nat) (s : list Q) :
  keys (partition_items i s) = s.
Proof.
  revert i. induction s as [|x s IH]; intros i; [reflexivity|].
  destruct s as [|y s]; [reflexivity|].
  change (partition_items i (x :: y :: s))
    with ((x, Some i) :: partition_items (S i) (y :: s)).
  cbn [keys map fst]. f_equal. apply IH.
Qed.

Lemma partition_items_lookup (s : list Q) :
  forall (i k : nat) (sk : Q),
  s !! k = Some sk ->
  In (sk, if Nat.ltb (S k) (length s) then Some (i + k)%nat else None)
     (partition_items i s).
Proof.
  induction s as [|x s IH]; intros i k sk Hk; [discriminate|].
  destruct s as [|y s].
  - destruct k; [|discriminate]. injection Hk as ->. left. reflexivity.
  - change (partition_items i (x :: y :: s))
      with ((x, Some i) :: partition_items (S i) (y :: s)).
    destruct k as [|k].
    + injection Hk as ->. left. cbn. rewrite Nat.add_0_r. reflexivity.
    + right. cbn in Hk. specialize (IH (S i) k sk Hk).
      replace (i + S k)%nat with (S i + k)%nat by lia.
      exact IH.
Qed.

Lemma add_main_partition_rest_shape (rest : list Q) :
  forall (sk : Q) (props : list XS.CrossSection) (m : MemberComplex)
         (d : SortedDict),
  ascending (sk :: rest) = true ->
  (length rest <= length props)%nat ->
  sections m = d ++ [(sk, None)] ->
  Forall (fun kv : Q * ref => kv.1 < sk) d ->
  add_main_partition (sk :: rest) props m =
    Ok {| heap := heap m ++ take (length rest) props;
          sections := d ++ partition_items (length (heap m)) (sk :: rest) |}.
Proof.
  induction rest as [|sk1 rest IH]; intros sk props m d Hs Hlen Hd Hlt.
  - cbn. rewrite app_nil_r, <- Hd. destruct m; reflexivity.
  - destruct props as [|iprop props]; [cbn in Hlen; lia|].
    change (add_main_partition (sk :: sk1 :: rest) (iprop :: props) m)
      with (add_main_partition (sk1 :: rest) props
              (add_section sk sk1 (new_section iprop m).1
                 (new_section iprop m).2)).
    apply ascending_cons in Hs as [Hs Hall].
    pose proof (Forall_inv Hall) as H01. cbv beta in H01.
    set (lm := new_section iprop m).
    pose proof (add_section_shape sk sk1 lm.1 lm.2 d (or_introl Hd) Hlt H01)
      as Hshape.
    rewrite (IH sk1 props (add_section sk sk1 lm.1 lm.2)
               (d ++ [(sk, Some lm.1)]) Hs); auto.
    + cbn [add_section heap new_section lm fst snd length].
      rewrite length_app. cbn [length].
      replace (length (heap m) + 1)%nat with (S (length (heap m))) by lia.
      rewrite <- !app_assoc. cbn [app take]. reflexivity.
    + cbn in Hlen. lia.
    + apply Forall_app. split.
      * eapply Forall_impl; [exact Hlt|]. cbn. intros; lra.
      * constructor; [exact H01 | constructor].
Qed.

Lemma add_main_partition_shape (s_full : list Q)
    (props : list XS.CrossSection) :
  ascending s_full = true -> (2 <= length s_full)%nat ->
  (length s_full <= S (length props))%nat ->
  add_main_partition s_full props empty_member =
    Ok {| heap := take (length s_full - 1) props;
          sections := partition_items 0 s_full |}.
Proof.
  intros Hs H2 Hlen.
  destruct s_full as [|s0 [|s1 rest]]; cbn in H2; try lia.
  destruct props as [|iprop props]; [cbn in Hlen; lia|].
  change (add_main_partition (s0 :: s1 :: rest) (iprop :: props) empty_member)
    with (add_main_partition (s1 :: rest) props
            (add_section s0 s1 (new_section iprop empty_member).1
               (new_section iprop empty_member).2)).
  apply ascending_cons in Hs as [Hs Hall].
  pose proof (Forall_inv Hall) as H01. cbv beta in H01.
  set (lm := new_section iprop empty_member).
  pose proof (add_section_shape s0 s1 lm.1 lm.2 [] (or_intror eq_refl)
                (List.Forall_nil _) H01) as Hshape.
  rewrite (add_main_partition_rest_shape rest s1 props
             (add_section s0 s1 lm.1 lm.2) ([] ++ [(s0, Some lm.1)]) Hs); auto.
  - cbn in Hlen. lia.
  - constructor; [exact H01 | constructor].
Qed.

(** X6. The loop of [add_main_sections] on a strictly ascending grid of at
    least two points leaves the grid as key set; looking up the [k]-th
    grid point gives the [k]-th constructed section, and the last grid point
    holds the end marker. *)
Theorem add_main_partition_lookup (s_full : list Q)
    (props : list XS.CrossSection) :
  ascending s_full = true -> (2 <= length s_full)%nat ->
  (length s_full <= S (length props))%nat ->
  exists m,
    add_main_partition s_full props empty_member = Ok m /\
    keys (sections m) = s_full /\
    (forall k sk p, (S k < length s_full)%nat -> s_full !! k = Some sk ->
       props !! k = Some p -> section_at m sk = Some p) /\
    (forall sl, last s_full = Some sl -> getitem (sections m) sl = Some None).
Proof.
  intros Hs H2 Hlen. eexists.
  split; [apply add_main_partition_shape; assumption|].
  cbn [sections heap].
  assert (Hasc : ascending (keys (partition_items 0 s_full)) = true)
    by (rewrite keys_partition_items; exact Hs).
  split; [apply keys_partition_items|]. split.
  - intros k sk p Hk Hsk Hp.
    pose proof (partition_items_lookup s_full 0 k sk Hsk) as Hin.
    apply Nat.ltb_lt in Hk as Hk'. rewrite Hk' in Hin. cbn [Nat.add] in Hin.
    unfold section_at. cbn [sections heap].
    rewrite (getitem_In _ _ _ Hasc Hin).
    rewrite lookup_take_lt by lia. exact Hp.
  - intros sl Hl. apply getitem_In; [exact Hasc|].
    rewrite last_lookup in Hl.
    pose proof (partition_items_lookup s_full 0 _ sl Hl) as Hin.
    assert (Nat.ltb (S (Init.Nat.pred (length s_full))) (length s_full) = false)
      as Hf by (apply Nat.ltb_ge; lia).
    rewrite Hf in Hin. exact Hin.
Qed.

Lemma add_main_partition_lookup_witness :
  exists m,
    add_main_partition sample_s_full
      [sample_section 1; sample_section 2; sample_section 3] empty_member
    = Ok m /\
    keys (sections m) = sample_s_full /\
    (forall k sk p, (S k < length sample_s_full)%nat ->
       sample_s_full !! k = Some sk ->
       [sample_section 1; sample_section 2; sample_section 3] !! k = Some p ->
       section_at m sk = Some p) /\
    (forall sl, last sample_s_full = Some sl ->
       getitem (sections m) sl = Some None).
Proof.
  apply (add_main_partition_lookup sample_s_full
           [sample_section 1; sample_section 2; sample_section 3]).
  - reflexivity.
  - simpl. lia.
  - simpl. lia.
Defined.

(** ** Loops that change sections in place *)

Lemma section_refs_In (d : SortedDict) (l : loc) :
  In l (section_refs d) <-> exists k, In (k, Some l) d.
Proof.
  unfold section_refs. rewrite <- list_elem_of_In, list_elem_of_omap. split.
  - intros ([k v] & Hin & Hv). cbn in Hv. subst v.
    exists k. apply list_elem_of_In. exact Hin.
  - intros (k & Hin). exists (k, Some l). split; [|reflexivity].
    apply list_elem_of_In. exact Hin.
Qed.

Lemma section_refs_cons (k : Q) (v : ref) (d : SortedDict) :
  section_refs ((k, v) :: d) =
  match v with Some l => l :: section_refs d | None => section_refs d end.
Proof. destruct v; reflexivity. Qed.

Lemma NoDup_refs_key (d : SortedDict) (k k' : Q) (l : loc) :
  NoDup (section_refs d) -> ascending (keys d) = true ->
  In (k, Some l) d -> In (k', Some l) d -> k' = k.
Proof.
  induction d as [|[k0 v0] d IH]; intros Hnd Hs Hin Hin'; [destruct Hin|].
  rewrite section_refs_cons in Hnd.
  cbn [keys map fst] in Hs. apply ascending_cons in Hs as [Hs _].
  destruct Hin as [[= -> ->] | Hin], Hin' as [[= <-] | Hin'].
  - reflexivity.
  - apply NoDup_cons in Hnd as [Hnot _]. exfalso. apply Hnot.
    apply list_elem_of_In, section_refs_In. eauto.
  - subst v0. apply NoDup_cons in Hnd as [Hnot _]. exfalso. apply Hnot.
    apply list_elem_of_In, section_refs_In. eauto.
  - apply IH; auto. destruct v0; [apply NoDup_cons in Hnd; tauto | exact Hnd].
Qed.

Lemma update_where_spec (sel : Q -> bool)
    (f : XS.CrossSection -> XS.CrossSection) (d : SortedDict) :
  forall h,
  NoDup (section_refs d) ->
  (forall k v, In (k, v) d -> sel k = true ->
     exists l, v = Some l /\ (l < length h)%nat) ->
  exists h',
    update_where sel f d h = Ok h' /\ length h' = length h /\
    (forall k l, In (k, Some l) d -> sel k = true -> h' !! l = f <$> h !! l) /\
    (forall l, (forall k, In (k, Some l) d -> sel k = false) ->
               h' !! l = h !! l).
Proof.
  induction d as [|[s v] d IH]; intros h Hnd Hsel.
  - exists h. repeat split. intros k l [].
  - rewrite section_refs_cons in Hnd. cbn [update_where].
    destruct (sel s) eqn:Hs.
    + destruct (Hsel s v (or_introl eq_refl) Hs) as (l0 & -> & Hl0).
      apply NoDup_cons in Hnd as [Hnot Hnd'].
      assert (Hnot' : forall k, ~ In (k, Some l0) d).
      { intros k Hin. apply Hnot, list_elem_of_In, section_refs_In. eauto. }
      destruct (heap_lookup_lt h l0 Hl0) as [c0 Hc0].
      destruct (IH (<[l0 := f c0]> h) Hnd') as (h' & Hrun & Hlen & Hupd & Hkeep).
      { intros k v Hin Hk. rewrite length_insert.
        apply (Hsel k v); [right; exact Hin | exact Hk]. }
      exists h'. unfold update_at. rewrite Hc0. cbn.
      split; [exact Hrun|].
      split; [rewrite Hlen; apply length_insert|]. split.
      * intros k l [[= -> ->] | Hin] Hk.
        -- rewrite Hkeep by (intros k' Hin'; destruct (Hnot' _ Hin')).
           rewrite list_lookup_insert_eq by exact Hl0. rewrite Hc0. reflexivity.
        -- rewrite (Hupd k l Hin Hk).
           assert (l <> l0) by (intros ->; exact (Hnot' _ Hin)).
           rewrite list_lookup_insert_ne by congruence. reflexivity.
      * intros l Hl.
        assert (l <> l0).
        { intros ->. specialize (Hl s (or_introl eq_refl)). congruence. }
        rewrite Hkeep by (intros k Hin; apply Hl; right; exact Hin).
        rewrite list_lookup_insert_ne by congruence. reflexivity.
    + assert (Hnd' : NoDup (section_refs d)).
      { destruct v; [apply NoDup_cons in Hnd; tauto | exact Hnd]. }
      destruct (IH h Hnd') as (h' & Hrun & Hlen & Hupd & Hkeep).
      { intros k v' Hin Hk. apply (Hsel k v'); [right; exact Hin | exact Hk]. }
      exists h'. split; [exact Hrun|]. split; [exact Hlen|]. split.
      * intros k l [[= -> ->] | Hin] Hk; [congruence|]. eapply Hupd; eauto.
      * intros l Hl. apply Hkeep. intros k Hin. apply Hl. right. exact Hin.
Qed.

Lemma update_where_ok (sel : Q -> bool)
    (f : XS.CrossSection -> XS.CrossSection) (d : SortedDict) :
  forall h,
  (forall k v, In (k, v) d -> sel k = true ->
     exists l, v = Some l /\ (l < length h)%nat) ->
  exists h', update_where sel f d h = Ok h' /\ length h' = length h.
Proof.
  induction d as [|[s v] d IH]; intros h Hsel; cbn [update_where]; [eauto|].
  destruct (sel s) eqn:Hs.
  - destruct (Hsel s v (or_introl eq_refl) Hs) as (l0 & -> & Hl0).
    destruct (heap_lookup_lt h l0 Hl0) as [c0 Hc0].
    destruct (IH (<[l0 := f c0]> h)) as (h' & Hrun & Hlen).
    { intros k v Hin Hk. rewrite length_insert.
      apply (Hsel k v); [right; exact Hin | exact Hk]. }
    exists h'. unfold update_at. rewrite Hc0. cbn.
    split; [exact Hrun|]. rewrite Hlen. apply length_insert.
  - apply IH. intros k v' Hin Hk.
    apply (Hsel k v'); [right; exact Hin | exact Hk].
Qed.

Lemma update_where_app (sel : Q -> bool)
    (f : XS.CrossSection -> XS.CrossSection) (d1 d2 : SortedDict) :
  forall h,
  update_where sel f (d1 ++ d2) h =
  (h1 ← update_where sel f d1 h; update_where sel f d2 h1).
Proof.
  induction d1 as [|[s v] d1 IH]; intros h; cbn [app update_where];
    [reflexivity|].
  destruct (sel s); [|apply IH].
  destruct (update_at f v h) as [h1|e]; cbn; [apply IH | reflexivity].
Qed.

(** The loop raises [AttributeError] when it comes to a selected key that
    holds [None]. *)
Lemma update_where_None (sel : Q -> bool)
    (f : XS.CrossSection -> XS.CrossSection) (d1 d2 : SortedDict) (k : Q)
    (h : list XS.CrossSection) :
  (forall k' v, In (k', v) d1 -> sel k' = true ->
     exists l, v = Some l /\ (l < length h)%nat) ->
  sel k = true ->
  update_where sel f (d1 ++ (k, None) :: d2) h = Raise AttributeError.
Proof.
  intros Hd1 Hk. rewrite update_where_app.
  destruct (update_where_ok sel f d1 h Hd1) as (h1 & -> & _).
  cbn. rewrite Hk. reflexivity.
Qed.

Lemma update_where_unselected (sel : Q -> bool)
    (f : XS.CrossSection -> XS.CrossSection) (d : SortedDict)
    (h : list XS.CrossSection) :
  (forall k v, In (k, v) d -> sel k = false) -> update_where sel f d h = Ok h.
Proof.
  induction d as [|[s v] d IH]; intros Hd; [reflexivity|].
  cbn [update_where]. rewrite (Hd s v (or_introl eq_refl)).
  apply IH. intros k v' Hin. apply (Hd k v'). right. exact Hin.
Qed.

(** The three loops of the source are instances. *)
Lemma ghost_below_update (g : Q) (d : SortedDict) (h : list XS.CrossSection) :
  ascending (keys d) = true ->
  ghost_below g d h = update_where (fun s => negb (Qleb g s)) XS.make_ghost d h.
Proof.
  revert h. induction d as [|[s v] d IH]; intros h Hs; [reflexivity|].
  cbn [keys map fst] in Hs. apply ascending_cons in Hs as [Hs Hall].
  cbn [ghost_below update_where]. destruct (Qleb g s) eqn:Hg; cbn [negb].
  - symmetry. apply update_where_unselected. intros k v' Hin.
    rewrite List.Forall_forall in Hall.
    assert (s < k) by (apply Hall; apply (in_map fst) in Hin; exact Hin).
    apply negb_false_iff. qprop. lra.
  - change (ghost_at v h) with (update_at XS.make_ghost v h).
    destruct (update_at XS.make_ghost v h); cbn; [apply IH; exact Hs | reflexivity].
Qed.

Lemma ghost_above_update (g : Q) (d : SortedDict) (h : list XS.CrossSection) :
  ghost_above g d h =
  update_where (fun s => negb (Qltb s g || Qeqb s 1)) XS.make_ghost d h.
Proof.
  revert h. induction d as [|[s v] d IH]; intros h; [reflexivity|].
  cbn [ghost_above update_where]. destruct (Qltb s g || Qeqb s 1); cbn [negb].
  - apply IH.
  - change (ghost_at v h) with (update_at XS.make_ghost v h).
    destruct (update_at XS.make_ghost v h); cbn; [apply IH | reflexivity].
Qed.

Lemma augment_density_update (s0 s1 dm H : Q) (d : SortedDict)
    (h : list XS.CrossSection) :
  augment_density s0 s1 dm H d h =
  update_where (fun s => Qleb s0 s && Qltb s s1) (with_ballast dm H) d h.
Proof.
  revert h. induction d as [|[s v] d IH]; intros h; [reflexivity|].
  cbn [augment_density update_where]. destruct (Qleb s0 s && Qltb s s1).
  - change (augment_rho dm H v h) with (update_at (with_ballast dm H) v h).
    destruct (update_at (with_ballast dm H) v h); cbn; [apply IH | reflexivity].
  - apply IH.
Qed.

(** ** The ghost block of [add_main_sections] *)

Lemma refs_setitem_In (d : SortedDict) (s : Q) (v : ref) (l : loc) :
  In l (section_refs (setitem d s v)) -> v = Some l \/ In l (section_refs d).
Proof.
  rewrite !section_refs_In. intros (k & Hin).
  apply In_setitem in Hin as [[_ Hv] | Hin]; [left; congruence | right; eauto].
Qed.

Lemma NoDup_refs_setitem (d : SortedDict) (s : Q) (v : ref) :
  NoDup (section_refs d) ->
  (forall l, v = Some l -> ~ In l (section_refs d)) ->
  NoDup (section_refs (setitem d s v)).
Proof.
  induction d as [|[k w] d IH]; intros Hnd Hv; cbn [setitem].
  - rewrite section_refs_cons. destruct v; [|constructor].
    apply NoDup_singleton.
  - assert (Hnd' : NoDup (section_refs d)).
    { rewrite section_refs_cons in Hnd.
      destruct w; [apply NoDup_cons in Hnd; tauto | exact Hnd]. }
    assert (Hv' : forall l, v = Some l -> ~ In l (section_refs d)).
    { intros l Hl Hin. apply (Hv l Hl). rewrite section_refs_cons.
      destruct w; [right|]; exact Hin. }
    destruct (s ?= k) eqn:Hc.
    + rewrite section_refs_cons. destruct v as [l|]; [|exact Hnd'].
      apply NoDup_cons. split; [|exact Hnd'].
      intros Hin. apply list_elem_of_In in Hin. exact (Hv' l eq_refl Hin).
    + rewrite section_refs_cons. destruct v as [l|]; [|exact Hnd].
      apply NoDup_cons. split; [|exact Hnd].
      intros Hin. apply list_elem_of_In in Hin. exact (Hv l eq_refl Hin).
    + specialize (IH Hnd' Hv'). rewrite section_refs_cons.
      rewrite section_refs_cons in Hnd, Hv.
      destruct w as [l0|]; [|exact IH].
      apply NoDup_cons. split; [|exact IH].
      intros Hin. apply list_elem_of_In, refs_setitem_In in Hin as [Hl | Hin].
      * apply (Hv l0 Hl). left. reflexivity.
      * apply NoDup_cons in Hnd as [Hnot _]. apply Hnot, list_elem_of_In, Hin.
Qed.

Lemma add_node_NoDup (s : Q) (m m' : MemberComplex) :
  wf m -> NoDup (section_refs (sections m)) -> add_node s m = Ok m' ->
  NoDup (section_refs (sections m')).
Proof.
  intros Hwf Hnd Hadd.
  destruct (add_node_cases s m Hwf); try discriminate;
    injection Hadd as <-; cbn [sections].
  - exact Hnd.
  - apply NoDup_refs_setitem; [exact Hnd | discriminate].
  - apply NoDup_refs_setitem; [exact Hnd|].
    intros l' [= <-] Hin. apply section_refs_In in Hin as (k' & Hin).
    destruct Hwf as [_ Hall]. unfold allocated in Hall.
    rewrite forallb_forall in Hall. specialize (Hall _ Hin). cbn in Hall.
    apply Nat.ltb_lt in Hall. lia.
Qed.

Lemma getitem_Qeq (d : SortedDict) (s s' : Q) :
  s == s' -> getitem d s = getitem d s'.
Proof.
  intros He. induction d as [|[k v] d IH]; [reflexivity|]. cbn.
  destruct (Qeqb k s) eqn:H1, (Qeqb k s') eqn:H2; auto; exfalso; qprop.
  - apply H2. rewrite H1. exact He.
  - apply H1. rewrite H2. symmetry. exact He.
Qed.

Lemma add_node_section_at (s : Q) (m m' : MemberComplex) (k : Q)
    (c : XS.CrossSection) :
  wf m -> add_node s m = Ok m' -> section_at m k = Some c ->
  section_at m' k = Some c.
Proof.
  intros Hwf Hadd Hk. unfold section_at in *.
  destruct (getitem (sections m) k) as [[l|]|] eqn:Hg; try discriminate.
  assert (Hne : contains (sections m) s = false -> ~ k == s).
  { intros Hc He. rewrite (getitem_Qeq _ _ _ He) in Hg.
    apply getitem_Some_In in Hg as (k' & Hin & Hk').
    apply (in_map fst) in Hin. cbn in Hin.
    assert (contains (sections m) s = true)
      by (apply contains_In; eauto).
    congruence. }
  destruct (add_node_cases s m Hwf); try discriminate;
    injection Hadd as <-; cbn [sections heap].
  - rewrite Hg. exact Hk.
  - rewrite getitem_setitem_other by auto. rewrite Hg. exact Hk.
  - rewrite getitem_setitem_other by auto. rewrite Hg.
    apply lookup_app_l_Some. exact Hk.
Qed.

Lemma In_keys_setitem (d : SortedDict) (s : Q) (v : ref) (k : Q) :
  In k (keys d) -> In k (keys (setitem d s v)).
Proof.
  induction d as [|[k0 w] d IH]; [intros []|]. cbn [setitem].
  destruct (s ?= k0); cbn [keys map fst].
  - intros H. exact H.
  - intros H. right. exact H.
  - intros [<- | H]; [left; reflexivity | right; apply IH, H].
Qed.

Lemma add_node_keeps_keys (s : Q) (m m' : MemberComplex) (k : Q) :
  add_node s m = Ok m' -> In k (keys (sections m)) ->
  In k (keys (sections m')).
Proof.
  unfold add_node. intros Hadd Hin.
  destruct (contains (sections m) s); [congruence|].
  destruct (_ <? 0)%Z; [discriminate|].
  destruct (of_option _ IndexError) as [k0|]; [|discriminate]. cbn in Hadd.
  destruct (of_option _ KeyError) as [v|]; [|discriminate]. cbn in Hadd.
  destruct (copy_copy _ _) as [hv|]; [|discriminate]. cbn in Hadd.
  injection Hadd as <-. cbn [sections]. apply In_keys_setitem, Hin.
Qed.

Lemma add_node_ok (s : Q) (m : MemberComplex) :
  wf m -> has_key_at_or_below (sections m) s = true ->
  exists m', add_node s m = Ok m'.
Proof.
  intros Hwf Hkey. pose proof (add_node_cases s m Hwf) as Hcase.
  destruct (add_node s m) as [m'|e]; [eauto|]. exfalso.
  inversion Hcase as [ | Hc Hp | | ]. subst.
  rewrite (precedes_no_key_below _ _ (proj1 Hwf) Hp) in Hkey. discriminate.
Qed.

Lemma add_node_contains (s : Q) (m m' : MemberComplex) :
  wf m -> add_node s m = Ok m' -> contains (sections m') s = true.
Proof.
  intros Hwf Hadd.
  destruct (add_node_cases s m Hwf); try discriminate;
    injection Hadd as <-; cbn [sections]; auto using contains_setitem_same.
Qed.

(** One loop over a well-formed registry whose sections are distinct
    objects: the sections at the selected keys are changed by [f], the
    others are as they were. *)
Lemma update_member_spec (sel : Q -> bool)
    (f : XS.CrossSection -> XS.CrossSection) (m : MemberComplex) :
  (forall k k', k == k' -> sel k = sel k') ->
  wf m -> NoDup (section_refs (sections m)) ->
  (forall k v, In (k, v) (sections m) -> sel k = true -> v <> None) ->
  exists h',
    update_where sel f (sections m) (heap m) = Ok h' /\
    length h' = length (heap m) /\
    forall k c, section_at m k = Some c ->
      section_at {| heap := h'; sections := sections m |} k
      = Some (if sel k then f c else c).
Proof.
  intros Hcompat [Hs Hall] Hnd Hsel.
  destruct (update_where_spec sel f (sections m) (heap m) Hnd)
    as (h' & Hrun & Hlen & Hupd & Hkeep).
  { intros k [l|] Hin Hk; [|destruct (Hsel _ _ Hin Hk); reflexivity].
    exists l. split; [reflexivity|]. unfold allocated in Hall.
    rewrite forallb_forall in Hall. specialize (Hall _ Hin). cbn in Hall.
    apply Nat.ltb_lt in Hall. exact Hall. }
  exists h'. split; [exact Hrun|]. split; [exact Hlen|].
  intros k c Hk. unfold section_at in *. cbn [sections heap].
  destruct (getitem (sections m) k) as [[l|]|] eqn:Hg; try discriminate.
  apply getitem_Some_In in Hg as (k' & Hin & Hk').
  rewrite <- (Hcompat _ _ Hk'). destruct (sel k') eqn:Hsk.
  - rewrite (Hupd _ _ Hin Hsk), Hk. reflexivity.
  - rewrite Hkeep; [exact Hk|]. intros k'' Hin''.
    rewrite (NoDup_refs_key _ _ _ _ Hnd Hs Hin Hin''). exact Hsk.
Qed.

Lemma registry_inv_end_marker (kl : Q) (m : MemberComplex) :
  registry_inv kl m -> getitem (sections m) kl = Some None.
Proof.
  intros ([Hs _] & Hterm & Hlast).
  destruct (terminated_inv _ Hterm) as (d' & k & Hd & _).
  apply getitem_In; [exact Hs|]. rewrite Hd in *.
  rewrite last_key_snoc in Hlast. injection Hlast as <-.
  apply in_or_app. right. left. reflexivity.
Qed.

Lemma section_at_not_end (kl : Q) (m : MemberComplex) (k : Q)
    (c : XS.CrossSection) :
  registry_inv kl m -> section_at m k = Some c -> ~ k == kl.
Proof.
  intros Hinv Hk He. unfold section_at in Hk.
  rewrite (getitem_Qeq _ _ _ He), (registry_inv_end_marker _ _ Hinv) in Hk.
  discriminate.
Qed.

(** The lower ghost step: [add_node(s_ghost1)] and the loop with [break]. *)
Lemma ghost_lower_step (g1 kl : Q) (m : MemberComplex) :
  registry_inv kl m -> NoDup (section_refs (sections m)) ->
  g1 <= kl -> has_key_at_or_below (sections m) g1 = true ->
  exists m1 h1,
    add_node g1 m = Ok m1 /\
    ghost_below g1 (sections m1) (heap m1) = Ok h1 /\
    registry_inv kl {| heap := h1; sections := sections m1 |} /\
    NoDup (section_refs (sections m1)) /\
    contains (sections m1) g1 = true /\
    (forall k, In k (keys (sections m)) -> In k (keys (sections m1))) /\
    (forall k c, section_at m k = Some c ->
       section_at {| heap := h1; sections := sections m1 |} k
       = Some (if Qltb k g1 then XS.make_ghost c else c)) /\
    (forall l c, covering (sections m) g1 = Some (Some l) ->
       heap m !! l = Some c ->
       section_at {| heap := h1; sections := sections m1 |} g1 = Some c).
Proof.
  intros Hinv Hnd Hle Hkey. pose proof Hinv as (Hwf & Hterm & Hlast).
  destruct (add_node_ok g1 m Hwf Hkey) as [m1 Hadd].
  destruct (add_node_wf _ _ _ Hwf Hadd) as [Hwf1 _].
  pose proof (add_node_NoDup _ _ _ Hwf Hnd Hadd) as Hnd1.
  destruct (add_node_terminated _ _ _ _ Hwf Hterm Hlast Hle Hadd)
    as [Hterm1 Hlast1].
  assert (Hinv1 : registry_inv kl m1) by (repeat split; auto; apply Hwf1).
  destruct (update_member_spec (fun s => negb (Qleb g1 s)) XS.make_ghost m1)
    as (h1 & Hrun & Hlen & Hsec); auto.
  { intros k k' He. f_equal.
    destruct (Qleb g1 k) eqn:H1, (Qleb g1 k') eqn:H2; auto; qprop; lra. }
  { intros k v Hin Hk ->. apply negb_true_iff in Hk.
    destruct (registry_inv_sections kl m1 k None Hinv1 Hin) as (l & c & [=] & _).
    qprop. lra. }
  exists m1, h1. split; [exact Hadd|].
  split; [rewrite ghost_below_update by apply Hwf1; exact Hrun|].
  split; [apply registry_inv_heap; assumption|].
  split; [exact Hnd1|].
  split; [exact (add_node_contains _ _ _ Hwf Hadd)|].
  split; [intros k; apply (add_node_keeps_keys _ _ _ _ Hadd)|].
  assert (Hsame : forall k, negb (Qleb g1 k) = Qltb k g1).
  { intros k. destruct (Qleb g1 k) eqn:H1, (Qltb k g1) eqn:H2; auto;
      qprop; lra. }
  split.
  - intros k c Hk. rewrite <- Hsame.
    apply Hsec, (add_node_section_at _ _ _ _ _ Hwf Hadd Hk).
  - intros l c Hcov Hl.
    rewrite (Hsec g1 c (add_node_right_neighbour _ _ _ _ _ Hwf Hadd Hcov Hl)).
    assert (Qleb g1 g1 = true) as -> by qsolve. reflexivity.
Qed.

(** The upper ghost step: [add_node(s_ghost2)] and the loop with
    [continue]. *)
Lemma ghost_upper_step (g2 kl : Q) (m : MemberComplex) :
  registry_inv kl m -> kl == 1 -> NoDup (section_refs (sections m)) ->
  g2 <= kl -> has_key_at_or_below (sections m) g2 = true ->
  exists m1 h1,
    add_node g2 m = Ok m1 /\
    ghost_above g2 (sections m1) (heap m1) = Ok h1 /\
    registry_inv kl {| heap := h1; sections := sections m1 |} /\
    NoDup (section_refs (sections m1)) /\
    contains (sections m1) g2 = true /\
    (forall k c, section_at m k = Some c ->
       section_at {| heap := h1; sections := sections m1 |} k
       = Some (if Qleb g2 k then XS.make_ghost c else c)) /\
    (forall l c, covering (sections m) g2 = Some (Some l) ->
       heap m !! l = Some c ->
       section_at {| heap := h1; sections := sections m1 |} g2
       = Some (XS.make_ghost c)).
Proof.
  intros Hinv Hkl Hnd Hle Hkey. pose proof Hinv as (Hwf & Hterm & Hlast).
  destruct (add_node_ok g2 m Hwf Hkey) as [m1 Hadd].
  destruct (add_node_wf _ _ _ Hwf Hadd) as [Hwf1 _].
  pose proof (add_node_NoDup _ _ _ Hwf Hnd Hadd) as Hnd1.
  destruct (add_node_terminated _ _ _ _ Hwf Hterm Hlast Hle Hadd)
    as [Hterm1 Hlast1].
  assert (Hinv1 : registry_inv kl m1) by (repeat split; auto; apply Hwf1).
  destruct (update_member_spec (fun s => negb (Qltb s g2 || Qeqb s 1))
              XS.make_ghost m1) as (h1 & Hrun & Hlen & Hsec); auto.
  { intros k k' He. f_equal. f_equal.
    - destruct (Qltb k g2) eqn:H1, (Qltb k' g2) eqn:H2; auto; qprop; lra.
    - destruct (Qeqb k 1) eqn:H1, (Qeqb k' 1) eqn:H2; auto; exfalso; qprop.
      + apply H2. rewrite <- He. exact H1.
      + apply H1. rewrite He. exact H2. }
  { intros k v Hin Hk ->. apply negb_true_iff, orb_false_iff in Hk as [_ Hk].
    destruct (registry_inv_sections kl m1 k None Hinv1 Hin) as (l & c & [=] & _).
    qprop. rewrite Hkl. exact Hk. }
  exists m1, h1. split; [exact Hadd|].
  split; [rewrite ghost_above_update; exact Hrun|].
  split; [apply registry_inv_heap; assumption|].
  split; [exact Hnd1|].
  split; [exact (add_node_contains _ _ _ Hwf Hadd)|].
  assert (Hsame : forall k c, section_at m1 k = Some c ->
            negb (Qltb k g2 || Qeqb k 1) = Qleb g2 k).
  { intros k c Hk.
    pose proof (section_at_not_end _ _ _ _ Hinv1 Hk) as Hne.
    assert (Qeqb k 1 = false) as ->
      by (qprop; intros He; apply Hne; rewrite Hkl; exact He).
    rewrite orb_false_r.
    destruct (Qleb g2 k) eqn:H1, (Qltb k g2) eqn:H2; auto; qprop; lra. }
  split.
  - intros k c Hk.
    pose proof (add_node_section_at _ _ _ _ _ Hwf Hadd Hk) as Hk1.
    rewrite <- (Hsame _ _ Hk1). apply Hsec, Hk1.
  - intros l c Hcov Hl.
    pose proof (add_node_right_neighbour _ _ _ _ _ Hwf Hadd Hcov Hl) as Hk1.
    rewrite (Hsec g2 c Hk1), (Hsame _ _ Hk1).
    assert (Qleb g2 g2 = true) as -> by qsolve. reflexivity.
Qed.

Lemma has_key_keep (d d' : SortedDict) (s : Q) :
  (forall k, In k (keys d) -> In k (keys d')) ->
  has_key_at_or_below d s = true -> has_key_at_or_below d' s = true.
Proof.
  unfold has_key_at_or_below. intros Hsub H.
  apply existsb_exists in H as (k & Hin & Hk).
  apply existsb_exists. eauto.
Qed.

Lemma contains_keep (d d' : SortedDict) (s : Q) :
  (forall k, In k (keys d) -> In k (keys d')) ->
  contains d s = true -> contains d' s = true.
Proof.
  intros Hsub H. apply contains_In in H as (k & Hin & Hk).
  apply contains_In. eauto.
Qed.

(** X7. The ghost block of [add_main_sections], on a registry that ends at
    1.0 and whose sections are distinct objects: it returns, the registry
    invariant still holds, [s_ghost1] and [s_ghost2] are keys when their
    branch ran, and a section that was at a key before is turned into a
    ghost exactly when its key lies below [s_ghost1] (lower branch) or at
    or above [s_ghost2] (upper branch); the other sections keep all their
    properties. *)
Theorem adjust_ghost_spec (s_ghost1 s_ghost2 kl : Q) (m : MemberComplex) :
  registry_inv kl m -> kl == 1 -> NoDup (section_refs (sections m)) ->
  (0 < s_ghost1 ->
     s_ghost1 <= 1 /\ has_key_at_or_below (sections m) s_ghost1 = true) ->
  (s_ghost2 < 1 -> has_key_at_or_below (sections m) s_ghost2 = true) ->
  exists m',
    adjust_ghost s_ghost1 s_ghost2 m = Ok m' /\
    registry_inv kl m' /\
    (0 < s_ghost1 -> contains (sections m') s_ghost1 = true) /\
    (s_ghost2 < 1 -> contains (sections m') s_ghost2 = true) /\
    forall k c, section_at m k = Some c ->
      section_at m' k =
      Some (let c1 := if Qltb 0 s_ghost1 && Qltb k s_ghost1
                      then XS.make_ghost c else c in
            if Qltb s_ghost2 1 && Qleb s_ghost2 k
            then XS.make_ghost c1 else c1).
Proof.
  intros Hinv Hkl Hnd H1 H2. unfold adjust_ghost.
  assert (Hlow : exists m1,
    (if Qltb 0 s_ghost1
     then m' ← add_node s_ghost1 m;
          h' ← ghost_below s_ghost1 (sections m') (heap m');
          Ok {| heap := h'; sections := sections m' |}
     else Ok m) = Ok m1 /\
    registry_inv kl m1 /\ NoDup (section_refs (sections m1)) /\
    (0 < s_ghost1 -> contains (sections m1) s_ghost1 = true) /\
    (forall k, In k (keys (sections m)) -> In k (keys (sections m1))) /\
    forall k c, section_at m k = Some c ->
      section_at m1 k = Some (if Qltb 0 s_ghost1 && Qltb k s_ghost1
                              then XS.make_ghost c else c)).
  { destruct (Qltb 0 s_ghost1) eqn:Hg1.
    - apply Qltb_lt in Hg1. destruct (H1 Hg1) as [Hle Hkey].
      destruct (ghost_lower_step s_ghost1 kl m)
        as (m1 & h1 & -> & Hrun & Hinv1 & Hnd1 & Hc1 & Hkeys & Hsec & _); auto.
      { rewrite Hkl. exact Hle. }
      cbn. rewrite Hrun. cbn. eexists. split; [reflexivity|].
      repeat split; auto; apply Hinv1.
    - exists m. split; [reflexivity|]. repeat split; auto; try apply Hinv.
      intros Hlt. qprop. lra. }
  destruct Hlow as (m1 & -> & Hinv1 & Hnd1 & Hc1 & Hkeys & Hsec1).
  cbn [mbind result_bind].
  destruct (Qltb s_ghost2 1) eqn:Hg2.
  - apply Qltb_lt in Hg2.
    destruct (ghost_upper_step s_ghost2 kl m1)
      as (m2 & h2 & Hadd & Hrun & Hinv2 & Hnd2 & Hc2 & Hsec2 & _); auto.
    { rewrite Hkl. lra. }
    { apply (has_key_keep (sections m)); auto. }
    rewrite Hadd. cbn. rewrite Hrun. cbn. eexists. split; [reflexivity|].
    split; [exact Hinv2|]. split; [|split].
    + intros Hlt. cbn [sections].
      apply (contains_keep (sections m1)); auto.
      intros k. apply (add_node_keeps_keys _ _ _ _ Hadd).
    + intros _. exact Hc2.
    + intros k c Hk. cbn zeta. cbn [andb]. apply Hsec2, Hsec1, Hk.
  - exists m1. split; [reflexivity|]. split; [exact Hinv1|].
    split; [exact Hc1|]. split; [intros Hlt; qprop; lra|].
    intros k c Hk. cbn zeta. cbn [andb]. apply Hsec1, Hk.
Qed.

Lemma sample_member_inv : registry_inv 1 sample_member.
Proof. repeat split; vm_compute; reflexivity. Qed.

Lemma sample_member_NoDup : NoDup (section_refs (sections sample_member)).
Proof.
  change (NoDup [0; 1; 2]%nat).
  repeat (apply NoDup_cons_2;
          [rewrite list_elem_of_In; cbn; intuition discriminate|]).
  apply NoDup_nil_2.
Qed.

Lemma adjust_ghost_spec_witness :
  exists m',
    adjust_ghost (45 # 100) (8 # 10) sample_member = Ok m' /\
    registry_inv 1 m' /\
    (0 < 45 # 100 -> contains (sections m') (45 # 100) = true) /\
    (8 # 10 < 1 -> contains (sections m') (8 # 10) = true) /\
    forall k c, section_at sample_member k = Some c ->
      section_at m' k =
      Some (let c1 := if Qltb 0 (45 # 100) && Qltb k (45 # 100)
                      then XS.make_ghost c else c in
            if Qltb (8 # 10) 1 && Qleb (8 # 10) k
            then XS.make_ghost c1 else c1).
Proof.
  apply (adjust_ghost_spec (45 # 100) (8 # 10) 1 sample_member).
  - exact sample_member_inv.
  - reflexivity.
  - exact sample_member_NoDup.
  - intros _. split; [lra | reflexivity].
  - intros _. reflexivity.
Defined.

Lemma registry_inv_shape (kl : Q) (m : MemberComplex) :
  registry_inv kl m ->
  exists d, sections m = d ++ [(kl, None)] /\
            Forall (fun kv : Q * ref => kv.1 < kl) d /\
            forall k v, In (k, v) d ->
              exists l, v = Some l /\ (l < length (heap m))%nat.
Proof.
  intros ([Hs Hall] & Hterm & Hlast).
  destruct (terminated_inv _ Hterm) as (d & k & Hd & Hsec).
  rewrite Hd in Hlast. rewrite last_key_snoc in Hlast. injection Hlast as ->.
  exists d. split; [exact Hd|]. split.
  - rewrite Hd in Hs. exact (ascending_snoc_lt d kl None Hs).
  - intros k v Hin. rewrite List.Forall_forall in Hsec.
    specialize (Hsec _ Hin). unfold is_section in Hsec. cbn in Hsec.
    destruct v as [l|]; [|congruence]. exists l. split; [reflexivity|].
    unfold allocated in Hall. rewrite forallb_forall in Hall.
    assert (Hin' : In (k, Some l) (sections m))
      by (rewrite Hd; apply in_or_app; left; exact Hin).
    specialize (Hall _ Hin'). cbn in Hall. apply Nat.ltb_lt in Hall. exact Hall.
Qed.

(** X8. The upper ghost loop skips the key 1.0 by value, not the greatest
    key: on a registry that ends at a position other than 1.0, with
    [s_ghost1 <= 0] and [s_ghost2 < 1] at or below that end, the loop
    reaches the end marker, whose value is [None], and the block fails
    with [AttributeError]. *)
Theorem adjust_ghost_end_not_one (s_ghost1 s_ghost2 kl : Q)
    (m : MemberComplex) :
  registry_inv kl m -> ~ kl == 1 -> s_ghost1 <= 0 -> s_ghost2 < 1 ->
  s_ghost2 <= kl -> has_key_at_or_below (sections m) s_ghost2 = true ->
  adjust_ghost s_ghost1 s_ghost2 m = Raise AttributeError.
Proof.
  intros Hinv Hkl Hg1 Hg2 Hle Hkey. unfold adjust_ghost.
  assert (Qltb 0 s_ghost1 = false) as -> by qsolve.
  assert (Qltb s_ghost2 1 = true) as -> by qsolve.
  cbn [mbind result_bind]. pose proof Hinv as (Hwf & Hterm & Hlast).
  destruct (add_node_ok s_ghost2 m Hwf Hkey) as [m1 Hadd]. rewrite Hadd.
  destruct (add_node_wf _ _ _ Hwf Hadd) as [Hwf1 _].
  destruct (add_node_terminated _ _ _ _ Hwf Hterm Hlast Hle Hadd)
    as [Hterm1 Hlast1].
  destruct (registry_inv_shape kl m1) as (d & Hd & _ & Halloc);
    [repeat split; auto; apply Hwf1|].
  cbn [mbind result_bind].
  rewrite ghost_above_update, Hd, update_where_None; [reflexivity| |].
  - intros k v Hin _. exact (Halloc k v Hin).
  - apply negb_true_iff, orb_false_iff. split; qsolve.
Qed.

Lemma adjust_ghost_end_not_one_witness :
  adjust_ghost 0 (1 # 2)
    {| heap := heap sample_member;
       sections := [(0, Some 0%nat); (3 # 10, Some 1%nat); (9 # 10, None)] |}
  = Raise AttributeError.
Proof.
  apply (adjust_ghost_end_not_one 0 (1 # 2) (9 # 10)).
  - repeat split; vm_compute; reflexivity.
  - intros H. vm_compute in H. discriminate.
  - lra.
  - lra.
  - lra.
  - reflexivity.
Defined.

Lemma covering_last (d : SortedDict) (kl s : Q) (v : ref) :
  Forall (fun kv : Q * ref => kv.1 < kl) d -> kl < s ->
  covering (d ++ [(kl, v)]) s = Some v.
Proof.
  intros Hall Hs. induction d as [|[k w] d IH]; cbn.
  - assert (Qleb kl s = true) as -> by qsolve. reflexivity.
  - apply Forall_cons in Hall as [Hk Hall]. cbn in Hk.
    assert (Qleb k s = true) as -> by qsolve.
    rewrite (IH Hall). reflexivity.
Qed.

(** A node beyond the greatest key is appended with the value of the end
    marker, [None], and no object is copied. *)
Lemma add_node_past_end (s kl : Q) (m : MemberComplex) :
  registry_inv kl m -> kl < s ->
  add_node s m = Ok {| heap := heap m;
                       sections := sections m ++ [(s, None)] |}.
Proof.
  intros Hinv Hlt. pose proof Hinv as (Hwf & Hterm & Hlast).
  destruct (registry_inv_shape kl m Hinv) as (d & Hd & Hbelow & Halloc).
  assert (Hall : Forall (fun kv : Q * ref => kv.1 < s) (sections m)).
  { rewrite Hd. apply Forall_app. split.
    - eapply Forall_impl; [exact Hbelow|]. cbn. intros kv H. lra.
    - apply Forall_singleton. exact Hlt. }
  pose proof (add_node_cases s m Hwf) as Hcase.
  rewrite List.Forall_forall in Hall.
  inversion Hcase as [Hc Heq | Hc Hp Heq | k Hc Hcov Hin Hk Heq
                      | k l c Hc Hcov Hin Hk Hl Heq].
  - exfalso. apply contains_In in Hc as (k & Hin & He).
    apply in_map_iff in Hin as ([k' v'] & <- & Hin).
    specialize (Hall _ Hin). cbn in Hall, He. lra.
  - exfalso. rewrite precedes_first_key_all in Hp by apply Hwf.
    assert (Hin : In kl (keys (sections m))).
    { rewrite Hd. unfold keys. rewrite map_app. apply in_or_app.
      right. left. reflexivity. }
    specialize (Hp _ Hin). lra.
  - rewrite setitem_snoc_gt by (apply List.Forall_forall; exact Hall).
    reflexivity.
  - exfalso. rewrite Hd, (covering_last _ _ _ _ Hbelow Hlt) in Hcov.
    discriminate.
Qed.

(** X9. A lower ghost limit beyond the greatest key: [add_node] appends it
    as a second [None] entry, and the loop that ghosts every key below the
    limit then reaches the old end marker and fails with
    [AttributeError]. *)
Theorem adjust_ghost_past_end (s_ghost1 s_ghost2 kl : Q) (m : MemberComplex) :
  registry_inv kl m -> 0 < s_ghost1 -> kl < s_ghost1 ->
  adjust_ghost s_ghost1 s_ghost2 m = Raise AttributeError.
Proof.
  intros Hinv Hpos Hlt. unfold adjust_ghost.
  assert (Qltb 0 s_ghost1 = true) as -> by qsolve.
  pose proof Hinv as (Hwf & Hterm & Hlast).
  destruct (registry_inv_shape kl m Hinv) as (d & Hd & Hbelow & Halloc).
  pose proof (add_node_past_end s_ghost1 kl m Hinv Hlt) as Hadd.
  rewrite Hadd. cbn [mbind result_bind sections heap].
  assert (Hasc : ascending (keys (sections m ++ [(s_ghost1, None)])) = true).
  { destruct (add_node_wf _ _ _ Hwf Hadd) as [[Hs _] _]. exact Hs. }
  rewrite ghost_below_update by exact Hasc.
  rewrite Hd, <- app_assoc. cbn [app].
  rewrite update_where_None; [reflexivity| |].
  - intros k v Hin _. exact (Halloc k v Hin).
  - apply negb_true_iff. qsolve.
Qed.

Lemma adjust_ghost_past_end_witness :
  adjust_ghost (3 # 2) 1 sample_member = Raise AttributeError.
Proof.
  apply (adjust_ghost_past_end (3 # 2) 1 1 sample_member).
  - exact sample_member_inv.
  - lra.
  - lra.
Defined.

(** ** The density loop of the ballast *)

Lemma update_where_keep (sel : Q -> bool)
    (f : XS.CrossSection -> XS.CrossSection) (d : SortedDict) (l : loc) :
  forall h h',
  update_where sel f d h = Ok h' ->
  (forall k, In (k, Some l) d -> sel k = false) ->
  h' !! l = h !! l /\ length h' = length h.
Proof.
  induction d as [|[s v] d IH]; intros h h' Hrun Hl; cbn [update_where] in Hrun.
  - injection Hrun as <-. split; reflexivity.
  - destruct (sel s) eqn:Hs.
    + destruct v as [l0|]; [|discriminate]. cbn [update_at] in Hrun.
      destruct (h !! l0) as [c0|] eqn:Hc0; [|discriminate]. cbn in Hrun.
      assert (l <> l0).
      { intros ->. specialize (Hl s (or_introl eq_refl)). congruence. }
      destruct (IH _ _ Hrun) as [Hk Hlen];
        [intros k Hin; apply Hl; right; exact Hin|].
      rewrite Hk, Hlen, length_insert.
      rewrite list_lookup_insert_ne by congruence. split; reflexivity.
    + apply IH; [exact Hrun|]. intros k Hin. apply Hl. right. exact Hin.
Qed.

(** X10. The density loop of a ballast segment on a registry whose sections
    are distinct objects, none of the keys in [s0, s1) being the end
    marker: the loop returns; a section whose key lies in [s0, s1) has its
    density raised by [dm / A / H], everything else about it kept, and a
    section at a key outside the segment is as it was. *)
Theorem augment_density_spec (s0 s1 dm H : Q) (m : MemberComplex) :
  wf m -> NoDup (section_refs (sections m)) ->
  (forall k v, In (k, v) (sections m) -> s0 <= k -> k < s1 -> v <> None) ->
  exists h',
    augment_density s0 s1 dm H (sections m) (heap m) = Ok h' /\
    length h' = length (heap m) /\
    forall k c, section_at m k = Some c ->
      section_at {| heap := h'; sections := sections m |} k
      = Some (if Qleb s0 k && Qltb k s1
              then XS.set_rho
                     (np_add (XS.rho c)
                        (np_div (np_div (Fin dm) (XS.A c)) (Fin H))) c
              else c).
Proof.
  intros Hwf Hnd Hsec. rewrite augment_density_update.
  apply (update_member_spec (fun s => Qleb s0 s && Qltb s s1)
           (with_ballast dm H) m); auto.
  - intros k k' He. f_equal.
    + destruct (Qleb s0 k) eqn:H1, (Qleb s0 k') eqn:H2; auto; qprop; lra.
    + destruct (Qltb k s1) eqn:H1, (Qltb k' s1) eqn:H2; auto; qprop; lra.
  - intros k v Hin Hk. apply andb_prop in Hk as [H1 H2].
    apply (Hsec k v Hin); qsolve.
Qed.

Lemma augment_density_spec_witness :
  exists h',
    augment_density (3 # 10) (6 # 10) 50 2
      (sections sample_member) (heap sample_member) = Ok h' /\
    length h' = length (heap sample_member) /\
    forall k c, section_at sample_member k = Some c ->
      section_at {| heap := h'; sections := sections sample_member |} k
      = Some (if Qleb (3 # 10) k && Qltb k (6 # 10)
              then XS.set_rho
                     (np_add (XS.rho c)
                        (np_div (np_div (Fin 50) (XS.A c)) (Fin 2))) c
              else c).
Proof.
  apply (augment_density_spec (3 # 10) (6 # 10) 50 2 sample_member).
  - apply sample_member_inv.
  - exact sample_member_NoDup.
  - intros k v Hin Hlo Hhi ->. cbn in Hin.
    destruct Hin as [H | [H | [H | [H | []]]]]; try discriminate.
    injection H as <-. lra.
Defined.

(** X11. Two keys of the segment that refer to the same object, as the keys
    [s0] and the straddled key do after [insert_section]: the loop visits
    the object once per key, so its density is raised twice. *)
Theorem augment_density_shared_twice (s0 s1 dm H : Q) (d1 d2 : SortedDict)
    (k1 k2 : Q) (l : loc) (c : XS.CrossSection) (h : list XS.CrossSection) :
  (forall k v, In (k, v) (d1 ++ d2) -> s0 <= k -> k < s1 ->
     exists l', v = Some l' /\ l' <> l /\ (l' < length h)%nat) ->
  s0 <= k1 -> k1 < s1 -> s0 <= k2 -> k2 < s1 ->
  h !! l = Some c ->
  exists h' c',
    augment_density s0 s1 dm H (d1 ++ (k1, Some l) :: (k2, Some l) :: d2) h
    = Ok h' /\
    h' !! l = Some c' /\
    XS.A c' = XS.A c /\
    XS.rho c' =
    np_add (np_add (XS.rho c) (np_div (np_div (Fin dm) (XS.A c)) (Fin H)))
           (np_div (np_div (Fin dm) (XS.A c)) (Fin H)).
Proof.
  intros Hother Hk1 Hk1' Hk2 Hk2' Hc.
  set (sel := fun s : Q => Qleb s0 s && Qltb s s1).
  assert (Hsel : forall k, s0 <= k -> k < s1 -> sel k = true).
  { intros k Hlo Hhi. unfold sel. apply andb_true_intro. split; qsolve. }
  assert (Hrange : forall k, sel k = true -> s0 <= k /\ k < s1).
  { intros k Hk. apply andb_prop in Hk as [Ha Hb]. split; qsolve. }
  assert (Hfree : forall d, (forall k v, In (k, v) d -> In (k, v) (d1 ++ d2)) ->
            forall k, In (k, Some l) d -> sel k = false).
  { intros d Hsub k Hin. destruct (sel k) eqn:Hk; [|reflexivity].
    destruct (Hrange _ Hk) as [Hlo Hhi].
    destruct (Hother _ _ (Hsub _ _ Hin) Hlo Hhi) as (l' & [= <-] & Hne & _).
    congruence. }
  rewrite augment_density_update. fold sel. rewrite update_where_app.
  destruct (update_where_ok sel (with_ballast dm H) d1 h) as (h1 & Hrun1 & Hlen1).
  { intros k v Hin Hk. destruct (Hrange _ Hk) as [Hlo Hhi].
    destruct (Hother k v) as (l' & -> & _ & Hl'); eauto.
    apply in_or_app. left. exact Hin. }
  rewrite Hrun1. cbn [mbind result_bind].
  destruct (update_where_keep sel _ d1 l _ _ Hrun1) as [Hl1 _].
  { apply Hfree. intros k v Hin. apply in_or_app. left. exact Hin. }
  rewrite Hc in Hl1. cbn [update_where].
  rewrite (Hsel k1 Hk1 Hk1'), (Hsel k2 Hk2 Hk2').
  cbn [update_at]. rewrite Hl1. cbn [mbind result_bind].
  assert (Hlt : (l < length h1)%nat) by (apply lookup_lt_Some in Hl1; exact Hl1).
  rewrite list_lookup_insert_eq by exact Hlt. cbn [mbind result_bind].
  rewrite list_insert_insert_eq.
  destruct (update_where_ok sel (with_ballast dm H) d2
              (<[l := with_ballast dm H (with_ballast dm H c)]> h1))
    as (h2 & Hrun2 & Hlen2).
  { intros k v Hin Hk. destruct (Hrange _ Hk) as [Hlo Hhi].
    destruct (Hother k v) as (l' & -> & _ & Hl'); eauto.
    - apply in_or_app. right. exact Hin.
    - exists l'. split; [reflexivity|]. rewrite length_insert. lia. }
  destruct (update_where_keep sel _ d2 l _ _ Hrun2) as [Hl2 _].
  { apply Hfree. intros k v Hin. apply in_or_app. right. exact Hin. }
  rewrite list_lookup_insert_eq in Hl2 by exact Hlt.
  exists h2, (with_ballast dm H (with_ballast dm H c)).
  split; [exact Hrun2|]. split; [exact Hl2|]. split; reflexivity.
Qed.

Lemma augment_density_shared_twice_witness :
  exists h' c',
    augment_density (2 # 10) (5 # 10) 50 2
      ([(0, Some 0%nat)] ++ (2 # 10, Some 3%nat) :: (3 # 10, Some 3%nat)
         :: [(4 # 10, Some 4%nat); (6 # 10, Some 2%nat); (1, None)])
      (heap sample_inserted)
    = Ok h' /\
    h' !! 3%nat = Some c' /\
    XS.A c' = XS.A (sample_section 4) /\
    XS.rho c' =
    np_add (np_add (XS.rho (sample_section 4))
              (np_div (np_div (Fin 50) (XS.A (sample_section 4))) (Fin 2)))
           (np_div (np_div (Fin 50) (XS.A (sample_section 4))) (Fin 2)).
Proof.
  apply (augment_density_shared_twice (2 # 10) (5 # 10) 50 2).
  - intros k v Hin Hlo Hhi. cbn in Hin.
    destruct Hin as [H | [H | [H | [H | []]]]]; injection H as <- <-;
      try lra.
    eexists; split; [reflexivity|]; split; [discriminate | cbn; lia].
  - lra.
  - lra.
  - lra.
  - lra.
  - reflexivity.
Defined.

(** ** The constant end sections of [DiscretizationYAML.compute] *)

Lemma first_index_Some (p : Q -> bool) (l : list Q) (i : nat) (x : Q) :
  l !! i = Some x -> p x = true ->
  (forall j y, (j < i)%nat -> l !! j = Some y -> p y = false) ->
  first_index p l = Some i.
Proof.
  revert i. induction l as [|a l IH]; intros i Hx Hp Hbefore; [discriminate|].
  cbn [first_index]. destruct i as [|i].
  - injection Hx as ->. rewrite Hp. reflexivity.
  - rewrite (Hbefore O a) by (lia || reflexivity).
    rewrite (IH i); [reflexivity | exact Hx | exact Hp |].
    intros j y Hj Hy. apply (Hbefore (S j) y); [lia | exact Hy].
Qed.

Lemma first_index_None (p : Q -> bool) (l : list Q) :
  Forall (fun x => p x = false) l -> first_index p l = None.
Proof.
  induction 1 as [|a l Ha _ IH]; [reflexivity|].
  cbn [first_index]. rewrite Ha, IH. reflexivity.
Qed.

Lemma last_index_None (p : Q -> bool) (l : list Q) :
  Forall (fun x => p x = false) l -> last_index p l = None.
Proof.
  induction 1 as [|a l Ha _ IH]; [reflexivity|].
  cbn [last_index]. rewrite Ha, IH. reflexivity.
Qed.

Lemma last_index_Some (p : Q -> bool) (l : list Q) (i : nat) (x : Q) :
  l !! i = Some x -> p x = true ->
  (forall j y, (i < j)%nat -> l !! j = Some y -> p y = false) ->
  last_index p l = Some i.
Proof.
  revert i. induction l as [|a l IH]; intros i Hx Hp Hafter; [discriminate|].
  cbn [last_index]. destruct i as [|i].
  - injection Hx as ->. rewrite last_index_None, Hp; [reflexivity|].
    apply Forall_lookup_2. intros j y Hy. apply (Hafter (S j) y); [lia | exact Hy].
  - rewrite (IH i); [reflexivity | exact Hx | exact Hp |].
    intros j y Hj Hy. apply (Hafter (S j) y); [lia | exact Hy].
Qed.

Lemma linspace_length (a b : Q) (n : nat) : length (linspace a b n) = n.
Proof.
  destruct n as [|[|n]]; [reflexivity | reflexivity |].
  cbn [linspace]. rewrite length_app, length_map, length_seq. cbn. lia.
Qed.

Lemma linspace_first (a b : Q) (n : nat) :
  (1 <= n)%nat -> exists y, linspace a b n !! 0%nat = Some y /\ y == a.
Proof.
  destruct n as [|[|n]]; [lia | |]; intros _.
  - exists a. split; reflexivity.
  - cbn [linspace seq map app]. eexists. split; [reflexivity|].
    change (Qnat 0) with 0. ring.
Qed.

Lemma linspace_last (a b : Q) (n : nat) :
  (2 <= n)%nat -> last (linspace a b n) = Some b.
Proof.
  destruct n as [|[|n]]; [lia | lia |]. intros _.
  cbn [linspace]. apply last_snoc.
Qed.

(** X12. A constant section at the start ([s_const1 > 0], [s_const2 <= 0]).
    Without a grid point above [s_const1 + 1e-3] the index lookup fails
    with [IndexError].  Otherwise, [i] being the first such point, the grid
    keeps its length, starts at 0, has [s_const1] as its second point when
    [i >= 1], and keeps every point beyond [i]; the point [i] itself is
    kept when [i >= 2] (for [i = 1] it is replaced by [s_const1]). *)
Theorem yaml_s_param_const1 (inp : yaml_inputs) :
  0 < s_const1 inp -> s_const2 inp <= 0 ->
  (Forall (fun x => x <= s_const1 inp + (1 # 1000)) (s_in inp) ->
   yaml_s_param inp = Raise IndexError) /\
  (forall i x,
     s_in inp !! i = Some x -> s_const1 inp + (1 # 1000) < x ->
     (forall j y, (j < i)%nat -> s_in inp !! j = Some y ->
                  y <= s_const1 inp + (1 # 1000)) ->
     exists s,
       yaml_s_param inp = Ok s /\
       length s = length (s_in inp) /\
       s !! 0%nat = Some 0 /\
       (forall j, (i < j)%nat -> s !! j = s_in inp !! j) /\
       ((1 <= i)%nat -> exists y, s !! 1%nat = Some y /\ y == s_const1 inp) /\
       ((2 <= i)%nat -> s !! i = Some x)).
Proof.
  intros H0 H1. unfold yaml_s_param.
  assert (Qltb 0 (s_const1 inp) = true) as -> by qsolve.
  assert (Qltb 0 (s_const2 inp) = false) as -> by qsolve.
  split.
  - intros Hall. rewrite first_index_None; [reflexivity|].
    eapply Forall_impl; [exact Hall|]. cbn. intros x Hx. qsolve.
  - intros i x Hx Hgt Hbefore.
    rewrite (first_index_Some _ _ i x Hx); [|qsolve|].
    2:{ intros j y Hj Hy. specialize (Hbefore j y Hj Hy). qsolve. }
    cbn [of_option mbind result_bind]. rewrite Hx.
    cbn [of_option mbind result_bind]. eexists. split; [reflexivity|].
    pose proof (lookup_lt_Some _ _ _ Hx) as Hi.
    split; [|split; [|split; [|split]]].
    + cbn [app length]. rewrite length_app, linspace_length, length_drop. lia.
    + reflexivity.
    + intros j Hj. destruct j as [|j]; [lia|]. cbn [app lookup list_lookup].
      change (((linspace (s_const1 inp) x i ++ drop (i + 1) (s_in inp)) !! j)
              = s_in inp !! S j).
      rewrite lookup_app_r by (rewrite linspace_length; lia).
      rewrite linspace_length, lookup_drop. f_equal. lia.
    + intros Hi1. destruct (linspace_first (s_const1 inp) x i Hi1) as (y & Hy & He).
      exists y. split; [|exact He].
      change (((linspace (s_const1 inp) x i ++ drop (i + 1) (s_in inp)) !! 0%nat)
              = Some y).
      apply lookup_app_l_Some. exact Hy.
    + intros Hi2. destruct i as [|i]; [lia|].
      change (((linspace (s_const1 inp) x (S i) ++ drop (S i + 1) (s_in inp)) !! i)
              = Some x).
      apply lookup_app_l_Some.
      pose proof (linspace_last (s_const1 inp) x (S i) Hi2) as Hlast.
      rewrite last_lookup, linspace_length in Hlast. exact Hlast.
Qed.

Lemma yaml_s_param_const1_witness :
  exists s,
    yaml_s_param (const_yaml (3 # 10) 0) = Ok s /\
    length s = length (s_in (const_yaml (3 # 10) 0)) /\
    s !! 0%nat = Some 0 /\
    (forall j, (2 < j)%nat -> s !! j = s_in (const_yaml (3 # 10) 0) !! j) /\
    ((1 <= 2)%nat ->
       exists y, s !! 1%nat = Some y /\ y == s_const1 (const_yaml (3 # 10) 0)) /\
    ((2 <= 2)%nat -> s !! 2%nat = Some (1 # 2)).
Proof.
  apply (proj2 (yaml_s_param_const1 (const_yaml (3 # 10) 0)
                  ltac:(cbn; lra) ltac:(cbn; lra)) 2%nat (1 # 2)).
  - reflexivity.
  - cbn. lra.
  - intros j y Hj Hy. destruct j as [|[|j]]; [| |lia];
      cbn in Hy; injection Hy as <-; cbn; lra.
Defined.

Lemma rev_lookup (l : list Q) (i : nat) :
  (i < length l)%nat -> rev l !! i = l !! (length l - S i)%nat.
Proof. intros Hi. rewrite rev_alt. apply (reverse_lookup l i Hi). Qed.

(** X13. A constant section at the end ([s_const1 <= 0], [s_const2 > 0]).
    Without a grid point below [s_const2 - 1e-3] the index lookup fails
    with [IndexError].  Otherwise, [i] being the last such point, the
    points up to [i] are kept and 1.0 is the last point, but the grid has
    one point more than [s_in]; when a point of [s_in] lies beyond [i],
    the point before the last is [s_const2], and when two or more do, the
    point [i] is there twice. *)
Theorem yaml_s_param_const2 (inp : yaml_inputs) :
  s_const1 inp <= 0 -> 0 < s_const2 inp ->
  (Forall (fun x => s_const2 inp - (1 # 1000) <= x) (s_in inp) ->
   yaml_s_param inp = Raise IndexError) /\
  (forall i x,
     s_in inp !! i = Some x -> x < s_const2 inp - (1 # 1000) ->
     (forall j y, (i < j)%nat -> s_in inp !! j = Some y ->
                  s_const2 inp - (1 # 1000) <= y) ->
     exists s,
       yaml_s_param inp = Ok s /\
       length s = S (length (s_in inp)) /\
       last s = Some 1 /\
       (forall j, (j <= i)%nat -> s !! j = s_in inp !! j) /\
       ((i + 2 <= length (s_in inp))%nat ->
          exists y, s !! (length (s_in inp) - 1)%nat = Some y /\
                    y == s_const2 inp) /\
       ((i + 3 <= length (s_in inp))%nat -> s !! S i = Some x)).
Proof.
  intros H0 H1. unfold yaml_s_param.
  assert (Qltb 0 (s_const1 inp) = false) as -> by qsolve.
  assert (Qltb 0 (s_const2 inp) = true) as -> by qsolve.
  cbn [mbind result_bind]. split.
  - intros Hall. rewrite last_index_None; [reflexivity|].
    eapply Forall_impl; [exact Hall|]. cbn. intros x Hx. qsolve.
  - intros i x Hx Hlt Hafter.
    rewrite (last_index_Some _ _ i x Hx); [|qsolve|].
    2:{ intros j y Hj Hy. specialize (Hafter j y Hj Hy). qsolve. }
    cbn [of_option mbind result_bind]. rewrite Hx.
    cbn [of_option mbind result_bind]. eexists. split; [reflexivity|].
    pose proof (lookup_lt_Some _ _ _ Hx) as Hi.
    set (n := length (s_in inp)) in *.
    assert (Htake : length (take (i + 1) (s_in inp)) = (i + 1)%nat)
      by (rewrite length_take; fold n; lia).
    split; [|split; [|split; [|split]]].
    + rewrite !length_app, Htake, length_rev, linspace_length. cbn. lia.
    + rewrite app_assoc. apply last_snoc.
    + intros j Hj. rewrite lookup_app_l by lia.
      apply lookup_take_lt. lia.
    + intros Hn.
      destruct (linspace_first (s_const2 inp) x (n - i - 1)) as (y & Hy & He);
        [lia|].
      exists y. split; [|exact He].
      rewrite lookup_app_r by lia. rewrite Htake.
      apply lookup_app_l_Some.
      rewrite rev_lookup by (rewrite linspace_length; lia).
      rewrite linspace_length.
      replace (n - i - 1 - S (n - 1 - (i + 1)))%nat with 0%nat by lia.
      exact Hy.
    + intros Hn. rewrite lookup_app_r by lia. rewrite Htake.
      apply lookup_app_l_Some.
      pose proof (linspace_last (s_const2 inp) x (n - i - 1) ltac:(lia)) as Hl.
      rewrite last_lookup, linspace_length in Hl.
      rewrite rev_lookup by (rewrite linspace_length; lia).
      rewrite linspace_length.
      replace (n - i - 1 - S (S i - (i + 1)))%nat
        with (Nat.pred (n - i - 1)) by lia.
      exact Hl.
Qed.

Lemma yaml_s_param_const2_witness :
  exists s,
    yaml_s_param (const_yaml 0 (6 # 10)) = Ok s /\
    length s = S (length (s_in (const_yaml 0 (6 # 10)))) /\
    last s = Some 1 /\
    (forall j, (j <= 2)%nat -> s !! j = s_in (const_yaml 0 (6 # 10)) !! j) /\
    ((2 + 2 <= length (s_in (const_yaml 0 (6 # 10))))%nat ->
       exists y, s !! (length (s_in (const_yaml 0 (6 # 10))) - 1)%nat = Some y /\
                 y == s_const2 (const_yaml 0 (6 # 10))) /\
    ((2 + 3 <= length (s_in (const_yaml 0 (6 # 10))))%nat ->
       s !! 3%nat = Some (1 # 2)).
Proof.
  apply (proj2 (yaml_s_param_const2 (const_yaml 0 (6 # 10))
                  ltac:(cbn; lra) ltac:(cbn; lra)) 2%nat (1 # 2)).
  - reflexivity.
  - cbn. lra.
  - intros j y Hj Hy. destruct j as [|[|[|[|[|j]]]]]; try lia;
      cbn in Hy; [injection Hy as <-; cbn; lra ..| discriminate].
Defined.

(** ** The cross-section area used for fatigue *)

Lemma all_positive (l : list Q) :
  any_nonpositive l = false <-> Forall (fun v => 0 < v) l.
Proof.
  unfold any_nonpositive. induction l as [|v l IH]; cbn.
  - split; [constructor | reflexivity].
  - rewrite orb_false_iff, IH, Forall_cons, Qleb_gt. reflexivity.
Qed.

Lemma np_diff_midpoints_pos (l : list Q) :
  Forall (fun v => 0 < v) (np_diff l) ->
  Forall (fun v => 0 < v) (np_diff (midpoints l)).
Proof.
  induction l as [|a l IH]; [constructor|].
  destruct l as [|b [|c l]]; [constructor | constructor |].
  intros H. change (np_diff (a :: b :: c :: l))
    with ((b - a) :: np_diff (b :: c :: l)) in H.
  apply Forall_cons in H as [Hab H].
  change (np_diff (midpoints (a :: b :: c :: l)))
    with (((1 # 2) * (b + c) - (1 # 2) * (a + b))
            :: np_diff (midpoints (b :: c :: l))).
  constructor; [|apply IH; exact H].
  change (np_diff (b :: c :: l)) with ((c - b) :: np_diff (c :: l)) in H.
  apply Forall_cons in H as [Hbc _]. lra.
Qed.

Lemma np_diff_affine_pos (z h : Q) (l : list Q) :
  Forall (fun v => 0 < v) (np_diff (map (fun s => h * s) l)) ->
  Forall (fun v => 0 < v) (np_diff (map (fun s => z + h * s) l)).
Proof.
  induction l as [|a l IH]; [constructor|].
  destruct l as [|b l]; [constructor|].
  cbn [map]. intros H.
  change (np_diff (h * a :: h * b :: map (fun s => h * s) l))
    with ((h * b - h * a) :: np_diff (map (fun s => h * s) (b :: l))) in H.
  apply Forall_cons in H as [Hab H].
  change (np_diff (z + h * a :: z + h * b :: map (fun s => z + h * s) l))
    with ((z + h * b - (z + h * a))
            :: np_diff (map (fun s => z + h * s) (b :: l))).
  constructor; [lra | apply IH; exact H].
Qed.

Lemma length_midpoints (l : list Q) :
  length (midpoints l) = (length l - 1)%nat.
Proof.
  induction l as [|a l IH]; [reflexivity|].
  destruct l as [|b l]; [reflexivity|].
  change (midpoints (a :: b :: l))
    with ((1 # 2) * (a + b) :: midpoints (b :: l)).
  cbn [length] in *. rewrite IH. lia.
Qed.

Lemma length_vec_add (u v : list Q) :
  length (vec_add u v) = Nat.min (length u) (length v).
Proof.
  revert v. induction u as [|x u IH]; intros [|y v]; cbn; auto.
Qed.

Lemma length_sum_axis0 (k : nat) (rows : list (list Q)) :
  Forall (fun r => length r = k) rows -> length (sum_axis0 k rows) = k.
Proof.
  unfold sum_axis0. induction 1 as [|r rows Hr _ IH]; cbn.
  - apply repeat_length.
  - rewrite length_vec_add, IH, Hr. lia.
Qed.

Lemma np_trapz_nonneg (y : list Q) :
  forall x,
  Forall (fun v => 0 < v) y -> Forall (fun v => 0 < v) (np_diff x) ->
  0 <= np_trapz y x.
Proof.
  induction y as [|y0 y IH]; intros x Hy Hx; [cbn; lra|].
  destruct y as [|y1 y]; [cbn; lra|].
  destruct x as [|x0 [|x1 x]]; [cbn; lra | cbn; lra |].
  change (np_trapz (y0 :: y1 :: y) (x0 :: x1 :: x))
    with ((x1 - x0) * (y1 + y0) / 2 + np_trapz (y1 :: y) (x1 :: x)).
  change (np_diff (x0 :: x1 :: x)) with ((x1 - x0) :: np_diff (x1 :: x)) in Hx.
  apply Forall_cons in Hx as [Hx0 Hx]. pose proof Hy as Hy'.
  apply Forall_cons in Hy as [Hy0 Hy].
  pose proof (IH (x1 :: x) Hy Hx) as Hrest.
  apply Forall_cons in Hy as [Hy1 _].
  assert (0 < (x1 - x0) * (y1 + y0)) by (apply Qmult_lt_0_compat; lra).
  assert (0 < (x1 - x0) * (y1 + y0) / 2)
    by (apply Qlt_shift_div_l; lra).
  lra.
Qed.

Lemma np_trapz_pos (y x : list Q) :
  Forall (fun v => 0 < v) y -> Forall (fun v => 0 < v) (np_diff x) ->
  (2 <= length y)%nat -> (2 <= length x)%nat ->
  0 < np_trapz y x.
Proof.
  intros Hy Hx Hly Hlx.
  destruct y as [|y0 [|y1 y]]; cbn in Hly; try lia.
  destruct x as [|x0 [|x1 x]]; cbn in Hlx; try lia.
  change (np_trapz (y0 :: y1 :: y) (x0 :: x1 :: x))
    with ((x1 - x0) * (y1 + y0) / 2 + np_trapz (y1 :: y) (x1 :: x)).
  change (np_diff (x0 :: x1 :: x)) with ((x1 - x0) :: np_diff (x1 :: x)) in Hx.
  apply Forall_cons in Hx as [Hx0 Hx].
  apply Forall_cons in Hy as [Hy0 Hy].
  pose proof (np_trapz_nonneg (y1 :: y) (x1 :: x) Hy Hx) as Hrest.
  apply Forall_cons in Hy as [Hy1 _].
  assert (0 < (x1 - x0) * (y1 + y0)) by (apply Qmult_lt_0_compat; lra).
  assert (0 < (x1 - x0) * (y1 + y0) / 2)
    by (apply Qlt_shift_div_l; lra).
  lra.
Qed.

(** X14. Without constant end sections, on at least two grid points and
    with every layer given on the whole grid: when [compute] gets past its
    checks, [cross_section_xz] is strictly positive.  The test
    [cross_section_xz == 0.0] before the division is then never true, and
    the first column of [axial_load2stress] is a finite number. *)
Theorem yaml_cross_section_positive (inp : yaml_inputs) (out : yaml_outputs) :
  yaml_compute inp = Ok out ->
  s_const1 inp <= 0 -> s_const2 inp <= 0 ->
  (2 <= length (s_in inp))%nat ->
  Forall (fun row => length row = length (s_in inp)) (layer_thickness inp) ->
  0 < out_cross_section_xz out /\
  is_finite (out_axial_load2stress_0 out) = true.
Proof.
  intros Hrun H0 H1 Hn Hrows.
  assert (Hs : yaml_s_param inp = Ok (s_in inp)).
  { unfold yaml_s_param.
    assert (Qltb 0 (s_const1 inp) = false) as -> by qsolve.
    assert (Qltb 0 (s_const2 inp) = false) as -> by qsolve. reflexivity. }
  unfold yaml_compute in Hrun. rewrite Hs in Hrun. cbn [mbind result_bind] in Hrun.
  pose proof (yaml_checks_spec inp (s_in inp)) as Hchk.
  destruct (yaml_checks inp (s_in inp)) as [[]|]; [|discriminate].
  destruct Hchk as (Hsh & Hwt & _). cbn [mbind result_bind] in Hrun.
  destruct (yaml_layers _ _ _ _ _) as [acc|]; [|discriminate].
  cbn [mbind result_bind] in Hrun. injection Hrun as <-.
  cbn [out_cross_section_xz out_axial_load2stress_0].
  apply all_positive in Hsh, Hwt. unfold yaml_section_height in Hsh.
  pose proof (np_diff_affine_pos (z_base inp) _ _ Hsh) as Hz.
  set (z_param := map (fun s => z_base inp + h_col inp * s) (s_in inp)) in *.
  assert (Hlz : length z_param = length (s_in inp))
    by (unfold z_param; apply length_map).
  assert (Hlw : length (yaml_wall_thickness inp) = (length (s_in inp) - 1)%nat).
  { unfold yaml_wall_thickness, yaml_lthick. apply length_sum_axis0.
    apply Forall_fmap. eapply Forall_impl; [exact Hrows|].
    intros row Hrow. cbn. rewrite length_midpoints, Hrow. reflexivity. }
  assert (Hpos : 0 <
    (if Nat.eqb (length (midpoints z_param)) 1
     then 2 * np_trapz (map (fun _ => hd 0 (yaml_wall_thickness inp)) z_param)
                z_param
     else 2 * np_trapz (yaml_wall_thickness inp) (midpoints z_param))).
  { rewrite length_midpoints, Hlz.
    destruct (Nat.eqb_spec (length (s_in inp) - 1) 1) as [H2 | H2].
    - assert (0 < hd 0 (yaml_wall_thickness inp)).
      { destruct (yaml_wall_thickness inp) as [|w wt]; cbn in Hlw; [lia|].
        apply Forall_cons in Hwt as [Hw _]. exact Hw. }
      assert (0 < np_trapz
                    (map (fun _ => hd 0 (yaml_wall_thickness inp)) z_param)
                    z_param); [|lra].
      apply np_trapz_pos; auto.
      + apply List.Forall_forall. intros v Hv.
        apply in_map_iff in Hv as (? & <- & _). assumption.
      + rewrite length_map. lia.
      + lia.
    - assert (0 < np_trapz (yaml_wall_thickness inp) (midpoints z_param));
        [|lra].
      apply np_trapz_pos; auto.
      + apply np_diff_midpoints_pos. exact Hz.
      + lia.
      + rewrite length_midpoints. lia. }
  split; [exact Hpos|].
  cbn [np_div]. match goal with |- context [Qeqb ?x 0] =>
    assert (Qeqb x 0 = false) as -> by qsolve end.
  reflexivity.
Qed.

Lemma yaml_cross_section_positive_witness :
  exists out,
    yaml_compute (sample_yaml 8500) = Ok out /\
    0 < out_cross_section_xz out /\
    is_finite (out_axial_load2stress_0 out) = true.
Proof.
  assert (H : exists out, yaml_compute (sample_yaml 8500) = Ok out)
    by (eexists; vm_compute; reflexivity).
  destruct H as [out H]. exists out. split; [exact H|].
  apply (yaml_cross_section_positive (sample_yaml 8500) out H).
  - cbn. lra.
  - cbn. lra.
  - cbn. lia.
  - repeat constructor.
Defined.

(** X15. When [compute] returns, every entry of the thickness-weighted
    density [rho] is a finite number: its divisor, the wall thickness, has
    passed the check for positive values. *)
Theorem yaml_density_finite (inp : yaml_inputs) (out : yaml_outputs) :
  yaml_compute inp = Ok out ->
  Forall (fun r => is_finite r = true) (out_rho out).
Proof.
  unfold yaml_compute.
  destruct (yaml_s_param inp) as [s_param|]; cbn; [|discriminate].
  pose proof (yaml_checks_spec inp s_param) as Hchk.
  destruct (yaml_checks inp s_param) as [[]|]; cbn; [|discriminate].
  destruct Hchk as (_ & Hwt & _).
  destruct (yaml_layers _ _ _ _ _) as [acc|]; cbn; [|discriminate].
  intros [= <-]. cbn [out_rho]. apply vec_div_finite. exact Hwt.
Qed.

Lemma yaml_density_finite_witness :
  exists out,
    yaml_compute (sample_yaml 8500) = Ok out /\
    Forall (fun r => is_finite r = true) (out_rho out).
Proof.
  assert (H : exists out, yaml_compute (sample_yaml 8500) = Ok out)
    by (eexists; vm_compute; reflexivity).
  destruct H as [out H]. exists out. split; [exact H|].
  exact (yaml_density_finite (sample_yaml 8500) out H).
Defined.

(** ** Ring stiffeners: candidates and the edges of the placement *)

Lemma stiffener_candidates_In (L g1 g2 c : Q) :
  In c (stiffener_candidates L g1 g2) <->
  exists k : nat,
    (1 <= k)%nat /\
    (Z.of_nat k <= (if Qeqb L 0 then 0 else Qfloor (1 / L)))%Z /\
    c = (Qnat k - (1 # 2)) * L /\ g1 < c /\ c < g2.
Proof.
  unfold stiffener_candidates. cbv zeta.
  rewrite <- list_elem_of_In, !list_elem_of_filter, list_elem_of_In.
  rewrite in_map_iff, !Is_true_true, !Qltb_lt. split.
  - intros (H2 & H1 & k & <- & Hk). apply in_seq in Hk.
    exists k. repeat split; auto; lia.
  - intros (k & Hk1 & Hkn & -> & H1 & H2).
    repeat split; auto. exists k. split; [reflexivity|].
    apply in_seq. lia.
Qed.

(** X16. The stiffener candidates for a positive spacing [L]: a position is
    a candidate exactly when it is [(k - 1/2) * L] for a [k] from 1 to
    [floor(1 / L)] and lies strictly between the two ghost limits; every
    candidate is at least half a spacing away from both ends of the
    member. *)
Theorem stiffener_candidates_spec (L_stiffener s_ghost1 s_ghost2 : Q) :
  0 < L_stiffener ->
  (forall c, In c (stiffener_candidates L_stiffener s_ghost1 s_ghost2) <->
     exists k : nat,
       (1 <= k)%nat /\ (Z.of_nat k <= Qfloor (1 / L_stiffener))%Z /\
       c = (Qnat k - (1 # 2)) * L_stiffener /\
       s_ghost1 < c /\ c < s_ghost2) /\
  Forall (fun c => L_stiffener / 2 <= c /\ c <= 1 - L_stiffener / 2)
         (stiffener_candidates L_stiffener s_ghost1 s_ghost2).
Proof.
  intros HL.
  assert (Hne : Qeqb L_stiffener 0 = false) by qsolve.
  assert (Hin : forall c,
    In c (stiffener_candidates L_stiffener s_ghost1 s_ghost2) <->
    exists k : nat,
      (1 <= k)%nat /\ (Z.of_nat k <= Qfloor (1 / L_stiffener))%Z /\
      c = (Qnat k - (1 # 2)) * L_stiffener /\ s_ghost1 < c /\ c < s_ghost2).
  { intros c. rewrite stiffener_candidates_In, Hne. reflexivity. }
  split; [exact Hin|].
  apply List.Forall_forall. intros c Hc.
  apply Hin in Hc as (k & Hk1 & Hkn & -> & _ & _).
  assert (H1 : 1 <= Qnat k) by (apply (Qnat_le 1 k); exact Hk1).
  assert (H2 : Qnat k <= 1 / L_stiffener).
  { apply Qle_trans with (inject_Z (Qfloor (1 / L_stiffener)));
      [|apply Qfloor_le].
    unfold Qnat. rewrite <- Zle_Qle. exact Hkn. }
  assert (H3 : Qnat k * L_stiffener <= 1).
  { assert (He : 1 == 1 / L_stiffener * L_stiffener) by (field; lra).
    rewrite He. apply Qmult_le_compat_r; lra. }
  assert (H4 : 1 * L_stiffener <= Qnat k * L_stiffener)
    by (apply Qmult_le_compat_r; lra).
  assert (He : L_stiffener / 2 == (1 # 2) * L_stiffener) by (field).
  rewrite He. split; lra.
Qed.



Lemma collides_Qeq (s_bulk : list Q) (tol s s' : Q) :
  s == s' -> collides s_bulk tol s = collides s_bulk tol s'.
Proof.
  intros He. unfold collides. induction s_bulk as [|b l IH]; [reflexivity|].
  cbn [existsb]. rewrite IH. f_equal.
  assert (Hab : Qabs (b - s) == Qabs (b - s')) by (rewrite He; reflexivity).
  destruct (Qleb (Qabs (b - s)) tol) eqn:H1,
           (Qleb (Qabs (b - s')) tol) eqn:H2; auto; qprop; lra.
Qed.

Lemma nudge_all_None (fuel : nat) (s_bulk : list Q) (tol c : Q)
    (cands : list Q) :
  In c cands -> nudge fuel s_bulk tol c = None ->
  nudge_all fuel s_bulk tol cands = None.
Proof.
  intros Hin Hc. induction cands as [|c0 l IH]; [destruct Hin|].
  cbn [nudge_all]. destruct Hin as [-> | Hin].
  - rewrite Hc. reflexivity.
  - rewrite (IH Hin). destruct (nudge fuel s_bulk tol c0); reflexivity.
Qed.

(** X18. A flange width of zero (on a member of non-zero height) makes the
    step of the placement loop zero: a candidate above 0 that coincides
    with a bulkhead is never moved off it, and the [while] loop does not
    end, however many turns it is given. *)
Theorem ring_stiffener_zero_width_loops (fuel : nat)
    (L_stiffener s_ghost1 s_ghost2 w_flange L : Q) (s_bulk : list Q) (c : Q) :
  ~ L_stiffener == 0 -> Qfloor (1 / L_stiffener) <> 0%Z ->
  ~ L == 0 -> w_flange == 0 ->
  In c (stiffener_candidates L_stiffener s_ghost1 s_ghost2) ->
  0 < c -> (exists b, In b s_bulk /\ b == c) ->
  ring_stiffener_intervals fuel L_stiffener s_ghost1 s_ghost2 w_flange L
    s_bulk = None.
Proof.
  intros Hne Hn HL Hw Hin Hpos (b & Hb & Hbc).
  assert (Htol : w_flange / L == 0) by (rewrite Hw; field; exact HL).
  set (tol := w_flange / L) in *.
  assert (Hcol : collides s_bulk tol c = true).
  { unfold collides. apply existsb_exists. exists b. split; [exact Hb|].
    apply Qleb_le.
    assert (Hz : Qabs (b - c) == Qabs 0) by (apply Qabs_wd; lra).
    rewrite Hz, Htol. exact (Qle_refl 0). }
  assert (Hloop : forall s, s == c -> nudge fuel s_bulk tol s = None).
  { induction fuel as [|fuel IH]; intros s Hs; cbn [nudge];
      rewrite (collides_Qeq _ _ _ _ Hs), Hcol;
      (assert (Qltb tol s = true) as -> by (qprop; lra)); cbn [andb].
    - reflexivity.
    - apply IH. lra. }
  unfold ring_stiffener_intervals.
  assert (Qeqb L_stiffener 0 = false) as -> by qsolve.
  destruct (Z.eqb_spec (Qfloor (1 / L_stiffener)) 0) as [H | _]; [tauto|].
  fold tol. rewrite (nudge_all_None fuel s_bulk tol c _ Hin);
    [reflexivity | apply Hloop; reflexivity].
Qed.

Lemma ring_stiffener_zero_width_loops_witness :
  ring_stiffener_intervals 100 (1 # 4) 0 1 0 10 sample_bulkheads = None.
Proof.
  apply (ring_stiffener_zero_width_loops 100 (1 # 4) 0 1 0 10
           sample_bulkheads (((Qnat 2) - (1 # 2)) * (1 # 4))).
  - intros H. discriminate H.
  - discriminate.
  - intros H. discriminate H.
  - reflexivity.
  - apply stiffener_candidates_In. exists 2%nat.
    split; [lia|]. split; [vm_compute; discriminate|].
    repeat split; reflexivity.
  - reflexivity.
  - exists (3 # 8). split; [right; left; reflexivity | reflexivity].
Defined.

Lemma stiffener_candidates_spec_witness :
  (forall c, In c (stiffener_candidates (1 # 4) 0 1) <->
     exists k : nat,
       (1 <= k)%nat /\ (Z.of_nat k <= Qfloor (1 / (1 # 4)))%Z /\
       c = (Qnat k - (1 # 2)) * (1 # 4) /\ 0 < c /\ c < 1) /\
  Forall (fun c => (1 # 4) / 2 <= c /\ c <= 1 - (1 # 4) / 2)
         (stiffener_candidates (1 # 4) 0 1).
Proof.
  apply (stiffener_candidates_spec (1 # 4) 0 1). reflexivity.
Defined.

(** ** The grid refinement without refinement *)

Lemma np_unique_ascending_id (l : list Q) :
  ascending l = true -> np_unique l = l.
Proof.
  induction l as [|a l IH]; intros Hs; [reflexivity|].
  pose proof (ascending_cons _ _ Hs) as [Hs' Hall].
  cbn [np_unique fold_right]. fold (np_unique l). rewrite (IH Hs').
  destruct l as [|b l]; [reflexivity|].
  apply Forall_cons in Hall as [Hab _]. cbn [insert_unique].
  assert ((a ?= b) = Lt) as -> by (apply Qlt_alt; exact Hab). reflexivity.
Qed.

Lemma refined_points_zero (s : list Q) : refined_points s 0 = removelast s.
Proof.
  induction s as [|a s IH]; [reflexivity|].
  destruct s as [|b s]; [reflexivity|].
  change (refined_points (a :: b :: s) 0)
    with (linspace a b 1 ++ refined_points (b :: s) 0).
  rewrite IH. reflexivity.
Qed.

Lemma ascending_removelast (s : list Q) :
  ascending s = true -> ascending (removelast s) = true.
Proof.
  induction s as [|a s IH]; intros Hs; [reflexivity|].
  destruct s as [|b s]; [reflexivity|].
  pose proof (ascending_cons _ _ Hs) as [Hs' Hall].
  change (removelast (a :: b :: s)) with (a :: removelast (b :: s)).
  apply ascending_intro; [apply IH; exact Hs'|].
  apply List.Forall_forall. intros x Hx. rewrite List.Forall_forall in Hall.
  apply Hall. clear -Hx. revert Hx. generalize (b :: s). intros l.
  induction l as [|y l IH]; [intros []|].
  destruct l as [|z l]; [intros []|].
  change (removelast (y :: z :: l)) with (y :: removelast (z :: l)).
  intros [<- | Hx]; [left; reflexivity | right; apply IH, Hx].
Qed.

(** X19. With [n_refine = 0] every interval contributes its left end only:
    the refined grid of an ascending grid is the grid without its last
    control point, so it has [length - 1] points and not the one point
    that [get_nfull] gives as the size of the outputs. *)
Theorem refine_grid_zero (s : list Q) :
  ascending s = true -> (2 <= length s)%nat ->
  refine_grid s 0 = removelast s /\
  length (refine_grid s 0) = (length s - 1)%nat /\
  get_nfull (Z.of_nat (length s)) 0 = 1%Z /\
  (forall x, last s = Some x -> ~ In x (refine_grid s 0)).
Proof.
  intros Hs Hlen.
  assert (Heq : refine_grid s 0 = removelast s).
  { unfold refine_grid. rewrite refined_points_zero.
    apply np_unique_ascending_id, ascending_removelast, Hs. }
  split; [exact Heq|]. rewrite Heq. split; [|split; [reflexivity|]].
  - destruct (exists_last (l := s)) as (l & x & ->);
      [intros ->; cbn in Hlen; lia|].
    rewrite removelast_last, length_app. cbn. lia.
  - intros x Hx Hin.
    destruct (exists_last (l := s)) as (l & y & ->);
      [intros ->; cbn in Hlen; lia|].
    rewrite last_snoc in Hx. injection Hx as ->.
    rewrite removelast_last in Hin.
    assert (Hasc : Forall (fun z => z < x) l).
    { clear -Hs. induction l as [|a l IH]; [constructor|].
      cbn [app] in Hs. pose proof (ascending_cons _ _ Hs) as [Hs' Hall].
      constructor; [|apply IH; exact Hs'].
      rewrite List.Forall_forall in Hall. apply Hall.
      apply in_or_app. right. left. reflexivity. }
    rewrite List.Forall_forall in Hasc. specialize (Hasc _ Hin). lra.
Qed.

Lemma refine_grid_zero_witness :
  refine_grid sample_grid 0 = removelast sample_grid /\
  length (refine_grid sample_grid 0) = (length sample_grid - 1)%nat /\
  get_nfull (Z.of_nat (length sample_grid)) 0 = 1%Z /\
  (forall x, last sample_grid = Some x -> ~ In x (refine_grid sample_grid 0)).
Proof.
  apply (refine_grid_zero sample_grid).
  - reflexivity.
  - cbn. lia.
Defined.

(** ** Padded arrays: written by the member, read by the loads *)

Lemma first_index_not_null (x : list Q) :
  Forall (fun v => ~ v == NULL) x ->
  Forall (fun v => Qeqb v NULL = false) x.
Proof.
  intros H. eapply Forall_impl; [exact H|]. cbn. intros v Hv. qsolve.
Qed.

Lemma read_padded_back (x : list Q) :
  (length x < MEMMAX)%nat -> Forall (fun v => ~ v == NULL) x ->
  read_padded (x ++ repeat NULL (MEMMAX - length x)) = Ok x.
Proof.
  intros Hlen Hx. unfold read_padded.
  rewrite (first_index_Some _ _ (length x) NULL).
  - cbn [of_option mbind result_bind]. rewrite take_app_length. reflexivity.
  - rewrite lookup_app_r by lia. rewrite Nat.sub_diag.
    destruct (MEMMAX - length x)%nat eqn:Hk; [lia | reflexivity].
  - reflexivity.
  - intros j y Hj Hy. rewrite lookup_app_l in Hy by exact Hj.
    apply first_index_not_null in Hx. rewrite Forall_lookup in Hx.
    exact (Hx j y Hy).
Qed.

Lemma store_padded_fits (x : list Q) :
  (length x <= MEMMAX)%nat ->
  store_padded x = Done (x ++ repeat NULL (MEMMAX - length x)).
Proof.
  intros Hlen. unfold store_padded.
  assert (Nat.leb (length x) MEMMAX = true) as -> by (apply Nat.leb_le; lia).
  reflexivity.
Qed.

(** X20. The node positions of a member go to the load components through
    an array of [MEMMAX] entries padded with [NULL].  With fewer than
    [MEMMAX] positions, none of them equal to [NULL], the reader gets back
    exactly the positions that were written. *)
Theorem padded_round_trip (x : list Q) :
  (length x < MEMMAX)%nat -> Forall (fun v => ~ v == NULL) x ->
  exists s_all,
    store_padded x = Done s_all /\ length s_all = MEMMAX /\
    read_padded s_all = Ok x.
Proof.
  intros Hlen Hx. rewrite store_padded_fits by lia.
  eexists. split; [reflexivity|]. split.
  - rewrite length_app, repeat_length. lia.
  - apply read_padded_back; assumption.
Qed.

Lemma padded_round_trip_witness :
  exists s_all,
    store_padded sample_grid = Done s_all /\ length s_all = MEMMAX /\
    read_padded s_all = Ok sample_grid.
Proof.
  apply (padded_round_trip sample_grid).
  - cbn. unfold MEMMAX. lia.
  - repeat constructor; intros H; discriminate H.
Defined.

(** X21. The padding has no room for a terminator when the array is full:
    exactly [MEMMAX] positions are stored as they are, and the reader then
    finds no [NULL] and fails with [IndexError]; more than [MEMMAX]
    positions cannot be stored at all. *)
Theorem padded_full (x : list Q) :
  Forall (fun v => ~ v == NULL) x ->
  (length x = MEMMAX ->
     store_padded x = Done x /\ read_padded x = Raise IndexError) /\
  ((MEMMAX < length x)%nat ->
     store_padded x = Failed (Numpy CouldNotBroadcast)).
Proof.
  intros Hx. split.
  - intros Heq. unfold store_padded. rewrite Heq, Nat.leb_refl, Nat.sub_diag.
    cbn [repeat]. rewrite app_nil_r. split; [reflexivity|].
    unfold read_padded. rewrite first_index_None; [reflexivity|].
    apply first_index_not_null, Hx.
  - intros Hgt. unfold store_padded.
    assert (Nat.leb (length x) MEMMAX = false) as ->
      by (apply Nat.leb_gt; exact Hgt).
    reflexivity.
Qed.

Lemma padded_full_witness :
  (length (repeat 0 MEMMAX) = MEMMAX ->
     store_padded (repeat 0 MEMMAX) = Done (repeat 0 MEMMAX) /\
     read_padded (repeat 0 MEMMAX) = Raise IndexError) /\
  ((MEMMAX < length (repeat 0 MEMMAX))%nat ->
     store_padded (repeat 0 MEMMAX) = Failed (Numpy CouldNotBroadcast)).
Proof.
  apply (padded_full (repeat 0 MEMMAX)).
  apply List.Forall_forall. intros v Hv. apply repeat_spec in Hv as ->.
  intros H. discriminate H.
Defined.

(** ** [nodal_discretization] *)

Lemma ascending_lookup_lt (l : list Q) (i j : nat) (x y : Q) :
  ascending l = true -> l !! i = Some x -> l !! j = Some y -> (i < j)%nat ->
  x < y.
Proof.
  revert i j. induction l as [|a l IH]; intros i j Hs Hx Hy Hij;
    [discriminate|].
  apply ascending_cons in Hs as [Hs Hall].
  destruct j as [|j]; [lia|]. cbn in Hy. destruct i as [|i].
  - injection Hx as <-. rewrite List.Forall_forall in Hall.
    apply Hall, list_elem_of_In. eapply list_elem_of_lookup_2. exact Hy.
  - cbn in Hx. apply (IH i j); auto. lia.
Qed.

Lemma omap_lookup_seq (f : Q -> option nat) (l : list Q) :
  forall k,
  (forall i v, l !! i = Some v -> f v = Some (k + i)%nat) ->
  omap f l = seq k (length l).
Proof.
  induction l as [|a l IH]; intros k Hf; [reflexivity|].
  cbn [omap list_omap length seq].
  rewrite (Hf 0%nat a eq_refl), Nat.add_0_r. f_equal.
  apply IH. intros i v Hv. rewrite (Hf (S i) v Hv). f_equal. lia.
Qed.

Lemma unique_index_ascending (l : list Q) :
  ascending l = true -> unique_index l = seq 0 (length l).
Proof.
  intros Hs. unfold unique_index. rewrite (np_unique_ascending_id l Hs).
  apply omap_lookup_seq. intros i v Hv. cbn [Nat.add].
  apply (first_index_Some _ _ i v Hv); [apply Qeqb_refl|].
  intros j y Hj Hy. pose proof (ascending_lookup_lt l j i y v Hs Hy Hv Hj).
  qsolve.
Qed.

Lemma omap_lookup_all (l : list Q) :
  forall pre : list Q,
  omap (fun i => (pre ++ l) !! i) (seq (length pre) (length l)) = l.
Proof.
  induction l as [|a l IH]; intros pre; [reflexivity|].
  cbn [length seq omap list_omap].
  rewrite lookup_app_r by lia. rewrite Nat.sub_diag. cbn [lookup list_lookup].
  f_equal. specialize (IH (pre ++ [a])).
  rewrite <- app_assoc, length_app in IH. cbn [app length] in IH.
  rewrite Nat.add_1_r in IH. exact IH.
Qed.

(** Without two keys that agree to six decimals, the grid of the nodes is
    the list of the keys. *)
Lemma nodal_grid_keys (s_keys : list Q) :
  ascending (map np_round6 s_keys) = true ->
  omap (fun i => s_keys !! i) (unique_index (map np_round6 s_keys)) = s_keys.
Proof.
  intros Hs. rewrite (unique_index_ascending _ Hs), length_map.
  exact (omap_lookup_all s_keys []).
Qed.

Lemma write_sections_spec (sh : member_shape) (s_last : Q) (m : MemberComplex)
    (s_grid : list Q) :
  forall k rows,
  (forall s, In s s_grid -> ~ s == s_last ->
     exists c, section_at m s = Some c /\ has_shape_attributes sh c = true) ->
  (k + length s_grid <= length rows)%nat ->
  exists rows',
    write_sections sh s_last k s_grid m rows = Ok rows' /\
    length rows' = length rows /\
    (forall j s, s_grid !! j = Some s -> ~ s == s_last ->
       rows' !! (k + j)%nat = Some (section_at m s)) /\
    (forall i, (i < k)%nat \/ (k + length s_grid <= i)%nat \/
               (exists s, s_grid !! (i - k)%nat = Some s /\ s == s_last) ->
       rows' !! i = rows !! i).
Proof.
  induction s_grid as [|s rest IH]; intros k rows Hsec Hlen.
  - exists rows. split; [reflexivity|]. split; [reflexivity|].
    split; [intros j s' H; discriminate | reflexivity].
  - cbn [write_sections]. cbn [length] in Hlen.
    destruct (Qeqb s s_last) eqn:He.
    + destruct (IH (S k) rows) as (rows' & Hrun & Hl & Hw & Hk);
        [intros s' Hin; apply Hsec; right; exact Hin | lia |].
      exists rows'. split; [exact Hrun|]. split; [exact Hl|]. split.
      * intros [|j] s' Hj Hne.
        -- injection Hj as <-. exfalso. apply Hne. qsolve.
        -- replace (k + S j)%nat with (S k + j)%nat by lia.
           apply (Hw j s' Hj Hne).
      * intros i Hi. apply Hk.
        destruct Hi as [Hi | [Hi | (s' & Hs' & Hq)]];
          [left; lia | right; left; cbn [length] in Hi; lia |].
        destruct (i - k)%nat as [|n] eqn:Hik.
        -- left. apply lookup_lt_Some in Hs'. lia.
        -- right. right. exists s'.
           replace (i - S k)%nat with n by lia. split; assumption.
    + destruct (Hsec s (or_introl eq_refl)) as (c & Hc & Hsh); [qsolve|].
      unfold section_at in Hc.
      destruct (getitem (sections m) s) as [[l|]|] eqn:Hg; try discriminate.
      cbn [of_option mbind result_bind]. rewrite Hc.
      cbn [of_option mbind result_bind]. rewrite Hsh.
      destruct (IH (S k) (<[k := Some c]> rows)) as (rows' & Hrun & Hl & Hw & Hk);
        [intros s' Hin; apply Hsec; right; exact Hin
        | rewrite length_insert; lia |].
      exists rows'. split; [exact Hrun|].
      split; [rewrite Hl; apply length_insert|]. split.
      * intros [|j] s' Hj Hne.
        -- injection Hj as <-. rewrite Nat.add_0_r, Hk by (left; lia).
           rewrite list_lookup_insert_eq by lia.
           unfold section_at. rewrite Hg, Hc. reflexivity.
        -- replace (k + S j)%nat with (S k + j)%nat by lia.
           apply (Hw j s' Hj Hne).
      * intros i Hi.
        assert (Hik : i <> k).
        { intros ->. destruct Hi as [Hi | [Hi | (s' & Hs' & Hq)]];
            [lia | cbn [length] in Hi; lia |].
          rewrite Nat.sub_diag in Hs'. injection Hs' as <-. qprop. tauto. }
        rewrite Hk.
        -- apply list_lookup_insert_ne. congruence.
        -- destruct Hi as [Hi | [Hi | (s' & Hs' & Hq)]];
             [left; lia | right; left; cbn [length] in Hi; lia |].
           destruct (i - k)%nat as [|n] eqn:Hin'.
           ++ left. lia.
           ++ right. right. exists s'.
              replace (i - S k)%nat with n by lia. split; assumption.
Qed.

Lemma lookup_repeat {A : Type} (x : A) (n i : nat) :
  (i < n)%nat -> repeat x n !! i = Some x.
Proof.
  revert i. induction n as [|n IH]; intros i Hi; [lia|].
  destruct i as [|i]; [reflexivity|]. cbn. apply IH. lia.
Qed.

Lemma registry_inv_last_key (kl : Q) (m : MemberComplex) :
  registry_inv kl m -> last (keys (sections m)) = Some kl.
Proof. intros (_ & _ & H). exact H. Qed.

(** X22. [nodal_discretization] on a registry in which the invariant holds
    after the axial joints were added, with sections of the class of the
    member, fewer than [MEMMAX] keys, and no two keys that agree to six
    decimals.  It returns; the reader of [s_all] gets back the keys of the
    registry; the section arrays hold at entry [i] the properties of the
    section that starts at the [i]-th key, for every key but the last; and
    every entry from the last key on is [NULL]. *)
Theorem nodal_discretization_spec (sh : member_shape) (s_axial : list Q)
    (m m1 : MemberComplex) (kl : Q) :
  add_nodes s_axial m = Ok m1 ->
  registry_inv kl m1 ->
  (forall k c, section_at m1 k = Some c -> has_shape_attributes sh c = true) ->
  ascending (map np_round6 (keys (sections m1))) = true ->
  (length (sections m1) < MEMMAX)%nat ->
  Forall (fun k => ~ k == NULL) (keys (sections m1)) ->
  exists out,
    nodal_discretization sh s_axial m = Done (out, m1) /\
    read_padded (out_s_all out) = Ok (keys (sections m1)) /\
    length (out_sections out) = MEMMAX /\
    (forall i s, keys (sections m1) !! i = Some s -> ~ s == kl ->
       exists c, section_at m1 s = Some c /\
                 out_sections out !! i = Some (Some c)) /\
    (forall i, (length (sections m1) - 1 <= i < MEMMAX)%nat ->
       out_sections out !! i = Some None).
Proof.
  intros Hadd Hinv Hclass Hround Hlen Hnull.
  unfold nodal_discretization. rewrite Hadd. cbn [lift mbind outcome_bind].
  rewrite (nodal_grid_keys _ Hround).
  assert (Hlk : length (keys (sections m1)) = length (sections m1))
    by (unfold keys; apply length_map).
  rewrite store_padded_fits by lia.
  pose proof (read_padded_back (keys (sections m1)) ltac:(lia) Hnull) as Hread.
  cbn [mbind outcome_bind]. rewrite (registry_inv_last_key _ _ Hinv).
  assert (Hsec : forall s, In s (keys (sections m1)) -> ~ s == kl ->
            exists c, section_at m1 s = Some c /\
                      has_shape_attributes sh c = true).
  { intros s Hin Hne. apply in_map_iff in Hin as ([s' v] & <- & Hin).
    destruct (registry_inv_sections kl m1 s' v Hinv Hin Hne)
      as (l & c & -> & Hc).
    assert (Hat : section_at m1 s' = Some c).
    { unfold section_at.
      rewrite (getitem_In _ _ _ (proj1 (proj1 Hinv)) Hin). exact Hc. }
    exists c. split; [exact Hat | exact (Hclass _ _ Hat)]. }
  destruct (write_sections_spec sh kl m1 (keys (sections m1)) 0
              (repeat None MEMMAX) Hsec)
    as (rows & -> & Hl & Hw & Hk); [rewrite repeat_length; lia|].
  cbn [lift mbind outcome_bind]. eexists. split; [reflexivity|].
  cbn [out_s_all out_sections]. split; [exact Hread|].
  split; [rewrite Hl; apply repeat_length|]. split.
  - intros i s Hi Hne.
    destruct (Hsec s) as (c & Hc & _);
      [apply list_elem_of_In; eapply list_elem_of_lookup_2; exact Hi
      | exact Hne |].
    exists c. split; [exact Hc|].
    rewrite <- Hc. exact (Hw i s Hi Hne).
  - intros i [Hlo Hhi]. rewrite Hk; [apply lookup_repeat; exact Hhi|].
    destruct (Nat.lt_ge_cases i (length (keys (sections m1)))) as [Hi | Hi];
      [|right; left; cbn; lia].
    right. right. exists kl. split; [|reflexivity].
    pose proof (registry_inv_last_key _ _ Hinv) as Hlast.
    rewrite last_lookup in Hlast. rewrite <- Hlast. f_equal. lia.
Qed.

Lemma nodal_discretization_spec_witness :
  exists out,
    nodal_discretization circular [1 # 2] sample_member
    = Done (out, sample_axial) /\
    read_padded (out_s_all out) = Ok (keys (sections sample_axial)) /\
    length (out_sections out) = MEMMAX /\
    (forall i s, keys (sections sample_axial) !! i = Some s -> ~ s == 1 ->
       exists c, section_at sample_axial s = Some c /\
                 out_sections out !! i = Some (Some c)) /\
    (forall i, (length (sections sample_axial) - 1 <= i < MEMMAX)%nat ->
       out_sections out !! i = Some None).
Proof.
  apply (nodal_discretization_spec circular [1 # 2] sample_member
           sample_axial 1).
  - reflexivity.
  - repeat split; vm_compute; reflexivity.
  - intros k c H. unfold section_at in H.
    destruct (getitem (sections sample_axial) k) as [[l|]|]; try discriminate.
    apply list_elem_of_lookup_2, list_elem_of_In in H. cbn in H.
    destruct H as [<- | [<- | [<- | [<- | [<- | []]]]]]; reflexivity.
  - vm_compute. reflexivity.
  - cbn. unfold MEMMAX. lia.
  - repeat constructor; intros H; discriminate H.
Defined.




(** ** A ghost of a ghost *)

(** X24. [make_ghost] never touches the torsion constant, and it is not
    idempotent: a second application leaves the constants 1e-2 in place
    but multiplies [E], [G] and [sigy] by 100 once more, so an object that
    is reached twice by the ghost loops ends with 10^4 times its
    stiffness. *)
Theorem make_ghost_twice (c : XS.CrossSection) :
  let g := XS.make_ghost c in
  let g2 := XS.make_ghost g in
  XS.TorsC g = XS.TorsC c /\ XS.TorsC g2 = XS.TorsC c /\
  XS.t g2 = XS.t g /\ XS.A g2 = XS.A g /\ XS.Asx g2 = XS.Asx g /\
  XS.Asy g2 = XS.Asy g /\ XS.Ixx g2 = XS.Ixx g /\ XS.Iyy g2 = XS.Iyy g /\
  XS.J0 g2 = XS.J0 g /\ XS.rho g2 = XS.rho g /\ XS.dims g2 = XS.dims g /\
  XS.E g2 = times100 (times100 (XS.E c)) /\
  XS.G g2 = times100 (times100 (XS.G c)) /\
  XS.sigy g2 = times100 (times100 (XS.sigy c)) /\
  (forall e, XS.E c = Fin e -> ~ e == 0 ->
     XS.E g2 = Fin (100 * (100 * e)) /\ g2 <> g).
Proof.
  assert (Hq : forall a b : Q, Fin a = Fin b -> a == b)
    by (intros a b [= ->]; reflexivity).
  destruct c as [t A Asx Asy Ixx Iyy J0 TorsC E G rho sigy dims].
  destruct dims; cbn [XS.make_ghost XS.base_make_ghost XS.set_dims XS.dims
                      XS.t XS.A XS.Asx XS.Asy XS.Ixx XS.Iyy XS.J0 XS.TorsC
                      XS.E XS.G XS.rho XS.sigy];
    do 14 (split; [reflexivity|]);
    intros e -> Hne; (split; [reflexivity|]);
    intros Heq; apply (f_equal XS.E) in Heq;
    cbn [XS.E] in Heq; apply Hq in Heq; apply Hne; lra.
Qed.

(** ** The load multiplexer *)

Lemma length_concat_uniform (inputs : list (list Q)) (L : nat) :
  Forall (fun a => length a = L) inputs ->
  length (concat inputs) = (length inputs * L)%nat.
Proof.
  induction 1 as [|a l Ha _ IH]; [reflexivity|].
  cbn [concat length]. rewrite length_app, IH, Ha. lia.
Qed.

Lemma concat_lookup_uniform (inputs : list (list Q)) (L : nat) :
  Forall (fun a => length a = L) inputs ->
  forall k i arr x,
  inputs !! k = Some arr -> arr !! i = Some x ->
  concat inputs !! (k * L + i)%nat = Some x.
Proof.
  induction 1 as [|a l Ha _ IH]; intros k i arr x Hk Hi; [discriminate|].
  cbn [concat]. destruct k as [|k].
  - injection Hk as ->. cbn [Nat.mul Nat.add].
    apply lookup_app_l_Some. exact Hi.
  - cbn in Hk. rewrite lookup_app_r by (rewrite Ha; cbn; lia).
    rewrite Ha. replace (S k * L + i - L)%nat with (k * L + i)%nat
      by (cbn; lia).
    exact (IH k i arr x Hk Hi).
Qed.

(** X25. [LoadMux]: with at least one load case and all cases given on
    the same number [L] of nodes, the output has [L] rows of [n_dlc]
    entries, and the entry in row [i] and column [k] is the value of load
    case [k] at node [i]. *)
Theorem load_mux_spec (inputs : list (list Q)) (L : nat) :
  inputs <> [] -> Forall (fun a => length a = L) inputs ->
  exists out,
    load_mux inputs = Done out /\
    length out = L /\
    Forall (fun row => length row = length inputs) out /\
    forall k i arr x,
      inputs !! k = Some arr -> arr !! i = Some x ->
      exists row, out !! i = Some row /\ row !! k = Some x.
Proof.
  intros Hne Hall. unfold load_mux. cbv zeta.
  pose proof (length_concat_uniform inputs L Hall) as Hlen.
  pose proof (concat_lookup_uniform inputs L Hall) as Hcat.
  assert (Hkn : forall k arr, inputs !! k = Some arr ->
                              (k < length inputs)%nat)
    by (intros k arr Hk; eapply lookup_lt_Some; exact Hk).
  destruct (length inputs) as [|n] eqn:Hn.
  { destruct inputs; [congruence | discriminate]. }
  rewrite (Nat.mul_comm (S n) L) in Hlen.
  rewrite Hlen, Nat.Div0.mod_mul, Nat.eqb_refl, Nat.div_mul by lia.
  eexists. split; [reflexivity|]. split; [|split].
  - rewrite length_map, length_seq. reflexivity.
  - apply List.Forall_forall. intros row Hrow.
    apply in_map_iff in Hrow as (i & <- & _).
    rewrite length_map, length_seq. reflexivity.
  - intros k i arr x Hk Hi.
    assert (HiL : (i < L)%nat).
    { rewrite List.Forall_forall in Hall.
      rewrite <- (Hall arr) by (apply list_elem_of_In;
                                eapply list_elem_of_lookup_2; exact Hk).
      eapply lookup_lt_Some. exact Hi. }
    eexists. split.
    + rewrite list_lookup_fmap, lookup_seq_lt by exact HiL. reflexivity.
    + rewrite list_lookup_fmap, lookup_seq_lt by exact (Hkn k arr Hk). cbn.
      rewrite nth_lookup, (Hcat k i arr x Hk Hi). reflexivity.
Qed.

Lemma load_mux_spec_witness :
  exists out,
    load_mux [[1; 2; 3]; [4; 5; 6]] = Done out /\
    length out = 3%nat /\
    Forall (fun row => length row = length [[1; 2; 3]; [4; 5; 6]]) out /\
    forall k i arr x,
      [[1; 2; 3]; [4; 5; 6]] !! k = Some arr -> arr !! i = Some x ->
      exists row, out !! i = Some row /\ row !! k = Some x.
Proof.
  apply (load_mux_spec [[1; 2; 3]; [4; 5; 6]] 3).
  - discriminate.
  - repeat constructor.
Defined.

(** ** Bulkhead intervals *)

Lemma insert_unique_length_le (x : Q) (l : list Q) :
  (length (insert_unique x l) <= S (length l))%nat.
Proof.
  induction l as [|z l IH]; cbn [insert_unique]; [cbn; lia|].
  destruct (x ?= z); cbn [length] in *; lia.
Qed.

Lemma insert_unique_length_dup (x : Q) (l : list Q) :
  ascending l = true -> InA Qeq x l ->
  length (insert_unique x l) = length l.
Proof.
  induction l as [|z l IH]; intros Hs Hin; [inversion Hin|].
  cbn [insert_unique]. destruct (x ?= z) eqn:Hc; qprop.
  - reflexivity.
  - exfalso. apply ascending_cons in Hs as [_ Hall].
    apply InA_cons in Hin as [He | Hin]; [lra|].
    apply InA_alt in Hin as (y & He & Hin).
    rewrite List.Forall_forall in Hall. specialize (Hall _ Hin). lra.
  - apply ascending_cons in Hs as [Hs _].
    apply InA_cons in Hin as [He | Hin]; [lra|].
    cbn [length]. rewrite (IH Hs Hin). reflexivity.
Qed.

Lemma np_unique_length_le (l : list Q) :
  (length (np_unique l) <= length l)%nat.
Proof.
  induction l as [|x l IH]; [reflexivity|].
  cbn [np_unique fold_right]. fold (np_unique l).
  pose proof (insert_unique_length_le x (np_unique l)). cbn [length]. lia.
Qed.

(** Two entries with the same value make the distinct values fewer than
    the entries. *)
Lemma np_unique_length_dup (l : list Q) :
  forall i j a b,
  (i < j)%nat -> l !! i = Some a -> l !! j = Some b -> a == b ->
  (length (np_unique l) < length l)%nat.
Proof.
  induction l as [|x l IH]; intros i j a b Hij Ha Hb He; [discriminate|].
  cbn [np_unique fold_right]. fold (np_unique l).
  destruct j as [|j]; [lia|]. cbn in Hb. destruct i as [|i].
  - injection Ha as ->.
    rewrite insert_unique_length_dup.
    + pose proof (np_unique_length_le l). cbn [length]. lia.
    + apply np_unique_ascending.
    + apply np_unique_InA. apply InA_alt. exists b. split; [exact He|].
      apply list_elem_of_In. eapply list_elem_of_lookup_2. exact Hb.
  - cbn in Ha. pose proof (IH i j a b ltac:(lia) Ha Hb He).
    pose proof (insert_unique_length_le x (np_unique l)). cbn [length]. lia.
Qed.

Lemma np_unique_nonempty (l : list Q) : l <> [] -> np_unique l <> [].
Proof.
  destruct l as [|x l]; [congruence|]. intros _ Hnil.
  assert (Hin : InA Qeq x (np_unique (x :: l)))
    by (apply np_unique_InA; left; reflexivity).
  rewrite Hnil in Hin. inversion Hin.
Qed.

(** X26. Two bulkheads that the ghost limits bring to the same position
    (both in a ghost region, say) make [np.unique] shorten the grid, while
    the loop still runs over the original number of bulkheads: the
    function fails, with [IndexError] in the loop when one position is
    left, and with the [ValueError] of a failed broadcast when more than
    one is. *)
Theorem bulkhead_intervals_merged (s_ghost1 s_ghost2 L : Q)
    (s_bulk t_bulk : list Q) (i j : nat) (a b : Q) :
  length t_bulk = length s_bulk ->
  (i < j)%nat -> s_bulk !! i = Some a -> s_bulk !! j = Some b ->
  clamp_ghost s_ghost1 s_ghost2 a == clamp_ghost s_ghost1 s_ghost2 b ->
  bulkhead_intervals s_ghost1 s_ghost2 L s_bulk t_bulk
  = Failed
      (if Nat.eqb
            (length (np_unique (map (clamp_ghost s_ghost1 s_ghost2) s_bulk)))
            1
       then Python IndexError
       else Numpy OperandsNotBroadcast).
Proof.
  intros Hlt Hij Ha Hb He. unfold bulkhead_intervals. cbv zeta.
  set (u := np_unique (map (clamp_ghost s_ghost1 s_ghost2) s_bulk)).
  assert (Hn : (2 <= length s_bulk)%nat).
  { apply lookup_lt_Some in Hb. lia. }
  assert (Hu : (length u < length s_bulk)%nat).
  { unfold u.
    rewrite <- (length_map (clamp_ghost s_ghost1 s_ghost2) s_bulk).
    apply (np_unique_length_dup _ i j (clamp_ghost s_ghost1 s_ghost2 a)
             (clamp_ghost s_ghost1 s_ghost2 b) Hij);
      [rewrite list_lookup_fmap, Ha; reflexivity
      | rewrite list_lookup_fmap, Hb; reflexivity | exact He]. }
  assert (Hu0 : u <> []).
  { unfold u. apply np_unique_nonempty. destruct s_bulk; [discriminate|].
    discriminate. }
  destruct (Nat.eqb_spec (length s_bulk) 0) as [H0 | _]; [lia|].
  assert (Hltb : Nat.ltb (length u) (length s_bulk) = true)
    by (apply Nat.ltb_lt; exact Hu).
  rewrite Hltb. unfold broadcast2.
  destruct (Nat.eqb_spec (length u) (length t_bulk)) as [Heq | _]; [lia|].
  destruct u as [|x [|y u']]; [congruence | |].
  - cbn [length Nat.eqb]. destruct t_bulk as [|t0 ts]; [cbn in Hlt; lia|].
    cbn [map mbind outcome_bind lookup list_lookup of_option lift].
    destruct (Qltb _ s_ghost1);
      cbn [mbind outcome_bind lookup list_lookup of_option lift fst snd].
    + destruct (last (<[0%nat:=s_ghost1 + t0 / L]>
                       (x + (1 # 2) * t0 / L
                        :: map (fun t => x + (1 # 2) * t / L) ts)))
        as [lst|] eqn:Hlast;
        [|apply last_None in Hlast; discriminate].
      cbn [mbind outcome_bind of_option lift].
      destruct (last (t0 :: ts)) as [tl|] eqn:Htl;
        [|apply last_None in Htl; discriminate].
      destruct (Qltb s_ghost2 lst); reflexivity.
    + destruct (last (x + (1 # 2) * t0 / L
                       :: map (fun t => x + (1 # 2) * t / L) ts))
        as [lst|] eqn:Hlast;
        [|apply last_None in Hlast; discriminate].
      cbn [mbind outcome_bind of_option lift].
      destruct (last (t0 :: ts)) as [tl|] eqn:Htl;
        [|apply last_None in Htl; discriminate].
      destruct (Qltb s_ghost2 lst); reflexivity.
  - cbn [length Nat.eqb].
    destruct t_bulk as [|t0 [|t1 ts]]; cbn in Hlt, Hu; try lia.
    reflexivity.
Qed.

Lemma bulkhead_intervals_merged_witness :
  bulkhead_intervals (1 # 10) (9 # 10) 10 [0; 5 # 100; 1 # 2] [1; 1; 1]
  = Failed
      (if Nat.eqb
            (length (np_unique (map (clamp_ghost (1 # 10) (9 # 10))
                                  [0; 5 # 100; 1 # 2])))
            1
       then Python IndexError
       else Numpy OperandsNotBroadcast).
Proof.
  apply (bulkhead_intervals_merged (1 # 10) (9 # 10) 10
           [0; 5 # 100; 1 # 2] [1; 1; 1] 0 1 0 (5 # 100)).
  - reflexivity.
  - lia.
  - reflexivity.
  - reflexivity.
  - reflexivity.
Defined.

Lemma clamp_ghost_inside (g1 g2 s : Q) :
  g1 <= s -> s <= g2 -> clamp_ghost g1 g2 s == s.
Proof.
  intros H1 H2. unfold clamp_ghost, np_minimum, np_maximum.
  destruct (Qleb s g1) eqn:Ha.
  - qprop. destruct (Qleb g1 g2) eqn:Hb; qprop; lra.
  - destruct (Qleb s g2) eqn:Hb; qprop; lra.
Qed.

Lemma InA_map_inside (g1 g2 : Q) (l : list Q) (y : Q) :
  Forall (fun s => g1 <= s /\ s <= g2) l ->
  InA Qeq y (map (clamp_ghost g1 g2) l) <-> InA Qeq y l.
Proof.
  induction 1 as [|s l [H1 H2] _ IH]; [reflexivity|].
  cbn [map]. rewrite !InA_cons, IH, (clamp_ghost_inside g1 g2 s H1 H2).
  reflexivity.
Qed.

Lemma widths_insert (L : Q) (c0 c1 t : list Q) (i : nat) (a' b' ti : Q) :
  widths L c0 c1 t -> t !! i = Some ti -> b' - a' == ti / L ->
  widths L (<[i := a']> c0) (<[i := b']> c1) t.
Proof.
  intros Hw Hti Hab k a b tk Ha Hb Htk.
  apply list_lookup_insert_Some in Ha as [(<- & <- & _) | (Hne & Ha)].
  - apply list_lookup_insert_Some in Hb as [(_ & <- & _) | (Hne & _)];
      [|congruence].
    assert (tk = ti) as -> by congruence. exact Hab.
  - apply list_lookup_insert_Some in Hb as [(Heq & _) | (_ & Hb)];
      [congruence|].
    exact (Hw k a b tk Ha Hb Htk).
Qed.

(** X27. Bulkheads at strictly ascending positions between the ghost
    limits, one thickness each, on a member of positive height: the
    function returns one interval per bulkhead; the interval of bulkhead
    [k] has the width [t_bulk[k] / L]; the last interval ends at or below
    [s_ghost2]; with two bulkheads or more the first one starts at or
    above [s_ghost1]; and every interval but the first and the last is
    centred on its bulkhead, whether it stays between the ghost limits or
    not. *)
Theorem bulkhead_intervals_spec (s_ghost1 s_ghost2 L : Q)
    (s_bulk t_bulk : list Q) :
  0 < L -> s_bulk <> [] -> length t_bulk = length s_bulk ->
  ascending s_bulk = true ->
  Forall (fun s => s_ghost1 <= s /\ s <= s_ghost2) s_bulk ->
  exists iv,
    bulkhead_intervals s_ghost1 s_ghost2 L s_bulk t_bulk = Done iv /\
    length iv = length s_bulk /\
    (forall k a b t, iv !! k = Some (a, b) -> t_bulk !! k = Some t ->
       b - a == t / L) /\
    (forall a b, last iv = Some (a, b) -> b <= s_ghost2) /\
    ((2 <= length s_bulk)%nat ->
       forall a b, iv !! 0%nat = Some (a, b) -> s_ghost1 <= a) /\
    (forall k a b s t, iv !! k = Some (a, b) -> s_bulk !! k = Some s ->
       t_bulk !! k = Some t -> (0 < k)%nat -> (S k < length s_bulk)%nat ->
       a == s - t / (2 * L)).
Proof.
  intros HL Hne Hlt Hasc Hin. unfold bulkhead_intervals. cbv zeta.
  set (n := length s_bulk) in *.
  assert (Hn : (1 <= n)%nat)
    by (subst n; destruct s_bulk; [congruence | cbn; lia]).
  set (u := np_unique (map (clamp_ghost s_ghost1 s_ghost2) s_bulk)).
  assert (Heq : eqlistA Qeq u s_bulk).
  { apply ascending_same_values;
      [apply np_unique_ascending | exact Hasc |].
    intros y. unfold u. rewrite np_unique_InA. apply InA_map_inside, Hin. }
  assert (Hlu : length u = n) by (apply (eqlistA_length Heq)).
  destruct (Nat.eqb_spec n 0) as [H0 | _]; [lia|].
  assert (Nat.ltb (length u) n = false) as ->
    by (apply Nat.ltb_ge; lia).
  unfold broadcast2. rewrite Hlu, Hlt, Nat.eqb_refl.
  cbn [mbind outcome_bind].
  set (s0 := zip_with (fun s t => s - (1 # 2) * t / L) u t_bulk).
  set (s1 := zip_with (fun s t => s + (1 # 2) * t / L) u t_bulk).
  assert (Hl0 : length s0 = n) by (unfold s0; rewrite length_zip_with; lia).
  assert (Hl1 : length s1 = n) by (unfold s1; rewrite length_zip_with; lia).
  assert (Hz0 : forall k a, s0 !! k = Some a ->
            exists s t, s_bulk !! k = Some s /\ t_bulk !! k = Some t /\
                        a == s - t / (2 * L)).
  { intros k a Ha. unfold s0 in Ha.
    apply lookup_zip_with_Some in Ha as (x & t & -> & Hx & Ht).
    assert (Hk : (k < length s_bulk)%nat)
      by (apply lookup_lt_Some in Hx; fold n; lia).
    apply lookup_lt_is_Some_2 in Hk as [s Hs].
    destruct (eqlistA_lookup _ _ _ _ Heq Hs) as (x' & Hx' & Hxs).
    assert (x' = x) as -> by congruence.
    exists s, t. repeat split; auto. rewrite Hxs. field. lra. }
  assert (Hw : widths L s0 s1 t_bulk).
  { intros k a b tk Ha Hb Htk. unfold s0 in Ha. unfold s1 in Hb.
    apply lookup_zip_with_Some in Ha as (x & t & -> & Hx & Ht).
    apply lookup_zip_with_Some in Hb as (x' & t' & -> & Hx' & Ht').
    assert (x' = x) as -> by congruence.
    assert (t' = tk) as -> by congruence.
    assert (t = tk) as -> by congruence. field. lra. }
  destruct (lookup_lt_is_Some_2 s0 0%nat ltac:(lia)) as [first Hfirst].
  destruct (lookup_lt_is_Some_2 t_bulk 0%nat ltac:(lia)) as [t0 Ht0].
  rewrite Hfirst. cbn [of_option lift mbind outcome_bind].
  rewrite Ht0. cbn [of_option lift mbind outcome_bind].
  set (lo := if Qltb first s_ghost1
             then (<[0%nat := s_ghost1]> s0, <[0%nat := s_ghost1 + t0 / L]> s1)
             else (s0, s1)).
  assert (Hlo : (if Qltb first s_ghost1
                 then Done (<[0%nat := s_ghost1]> s0,
                            <[0%nat := s_ghost1 + t0 / L]> s1)
                 else Done (s0, s1)) = Done lo)
    by (unfold lo; destruct (Qltb first s_ghost1); reflexivity).
  rewrite Hlo. cbn [mbind outcome_bind].
  assert (Hllo : length lo.1 = n /\ length lo.2 = n).
  { unfold lo. destruct (Qltb first s_ghost1); cbn [fst snd];
      rewrite ?length_insert; auto. }
  destruct Hllo as [Hllo0 Hllo1].
  assert (Hwlo : widths L lo.1 lo.2 t_bulk).
  { unfold lo. destruct (Qltb first s_ghost1); cbn [fst snd]; [|exact Hw].
    apply (widths_insert L s0 s1 t_bulk 0 _ _ t0 Hw Ht0). ring. }
  assert (Hhead : forall a, lo.1 !! 0%nat = Some a -> s_ghost1 <= a).
  { unfold lo. destruct (Qltb first s_ghost1) eqn:Hc; cbn [fst snd];
      intros a Ha.
    - rewrite list_lookup_insert_eq in Ha by lia. injection Ha as <-. lra.
    - assert (a = first) as -> by congruence. qprop. exact Hc. }
  assert (Hmid : forall k a, (0 < k)%nat -> lo.1 !! k = Some a ->
                             s0 !! k = Some a).
  { unfold lo. destruct (Qltb first s_ghost1); cbn [fst snd];
      intros k a Hk Ha; [|exact Ha].
    rewrite list_lookup_insert_ne in Ha by lia. exact Ha. }
  clearbody lo. destruct lo as [l0 l1]. cbn [fst snd] in *.
  destruct (last l1) as [lst|] eqn:Hlast;
    [|apply last_None in Hlast; subst l1; cbn in Hllo1; lia].
  cbn [of_option lift mbind outcome_bind].
  destruct (last t_bulk) as [tl|] eqn:Htl;
    [|apply last_None in Htl; subst t_bulk; cbn in Hlt; lia].
  rewrite last_lookup in Hlast, Htl. rewrite Hllo1 in Hlast.
  rewrite Hlt in Htl. fold n in Htl.
  replace (Nat.pred n) with (n - 1)%nat in * by lia.
  set (hi := if Qltb s_ghost2 lst
             then (<[(length l0 - 1)%nat := s_ghost2 - tl / L]> l0,
                   <[(length l1 - 1)%nat := s_ghost2]> l1)
             else (l0, l1)).
  assert (Hhi : (if Qltb s_ghost2 lst
                 then tl' ← lift (of_option (Some tl) IndexError);
                      Done (<[(length l0 - 1)%nat := s_ghost2 - tl' / L]> l0,
                            <[(length l1 - 1)%nat := s_ghost2]> l1)
                 else Done (l0, l1)) = Done hi)
    by (unfold hi; destruct (Qltb s_ghost2 lst); reflexivity).
  rewrite Hhi. cbn [mbind outcome_bind].
  assert (Hlhi : length hi.1 = n /\ length hi.2 = n).
  { unfold hi. destruct (Qltb s_ghost2 lst); cbn [fst snd];
      rewrite ?length_insert; auto. }
  destruct Hlhi as [Hlhi0 Hlhi1].
  assert (Hwhi : widths L hi.1 hi.2 t_bulk).
  { unfold hi. destruct (Qltb s_ghost2 lst); cbn [fst snd]; [|exact Hwlo].
    rewrite Hllo0, Hllo1.
    apply (widths_insert L l0 l1 t_bulk (n - 1) _ _ tl Hwlo Htl). ring. }
  assert (Hend : forall b, hi.2 !! (n - 1)%nat = Some b -> b <= s_ghost2).
  { unfold hi. destruct (Qltb s_ghost2 lst) eqn:Hc; cbn [fst snd];
      intros b Hb.
    - rewrite Hllo1, list_lookup_insert_eq in Hb by lia.
      injection Hb as <-. lra.
    - assert (b = lst) as -> by congruence. qprop. exact Hc. }
  assert (Hkeep : forall k a, (S k < n)%nat -> hi.1 !! k = Some a ->
                              l0 !! k = Some a).
  { unfold hi. destruct (Qltb s_ghost2 lst); cbn [fst snd];
      intros k a Hk Ha; [|exact Ha].
    rewrite Hllo0, list_lookup_insert_ne in Ha by lia. exact Ha. }
  clearbody hi. destruct hi as [h0 h1]. cbn [fst snd] in *.
  assert (Hiv : forall k a b, take n (zip h0 h1) !! k = Some (a, b) ->
            h0 !! k = Some a /\ h1 !! k = Some b).
  { intros k a b Hk. apply lookup_take_Some in Hk as [Hk _].
    apply lookup_zip_with_Some in Hk as (x & y & [= <- <-] & Hx & Hy).
    split; assumption. }
  eexists. split; [reflexivity|]. split; [|split; [|split; [|split]]].
  - rewrite length_take, length_zip, Hlhi0, Hlhi1. lia.
  - intros k a b t Hk Ht. destruct (Hiv k a b Hk) as [Ha Hb].
    exact (Hwhi k a b t Ha Hb Ht).
  - intros a b Hl. rewrite last_lookup in Hl.
    rewrite length_take, length_zip, Hlhi0, Hlhi1 in Hl.
    replace (Nat.pred (n `min` (n `min` n))) with (n - 1)%nat in Hl by lia.
    destruct (Hiv _ a b Hl) as [_ Hb]. exact (Hend b Hb).
  - intros H2 a b Hk. destruct (Hiv _ a b Hk) as [Ha _].
    apply Hhead, Hkeep; [lia | exact Ha].
  - intros k a b s t Hk Hs Ht Hk0 Hkn. destruct (Hiv _ a b Hk) as [Ha _].
    apply Hkeep in Ha; [|exact Hkn]. apply Hmid in Ha; [|exact Hk0].
    destruct (Hz0 k a Ha) as (s' & t' & Hs' & Ht' & Hq).
    assert (s' = s) as -> by congruence.
    assert (t' = t) as -> by congruence. exact Hq.
Qed.

Lemma bulkhead_intervals_spec_witness :
  exists iv,
    bulkhead_intervals (1 # 10) (9 # 10) 10 [1 # 10; 1 # 2; 9 # 10] [1; 1; 1]
      = Done iv /\
    length iv = length [1 # 10; 1 # 2; 9 # 10] /\
    (forall k a b t, iv !! k = Some (a, b) -> [1; 1; 1] !! k = Some t ->
       b - a == t / 10) /\
    (forall a b, last iv = Some (a, b) -> b <= 9 # 10) /\
    ((2 <= length [1 # 10; 1 # 2; 9 # 10])%nat ->
       forall a b, iv !! 0%nat = Some (a, b) -> 1 # 10 <= a) /\
    (forall k a b s t, iv !! k = Some (a, b) ->
       [1 # 10; 1 # 2; 9 # 10] !! k = Some s ->
       [1; 1; 1] !! k = Some t -> (0 < k)%nat ->
       (S k < length [1 # 10; 1 # 2; 9 # 10])%nat ->
       a == s - t / (2 * 10)).
Proof.
  apply (bulkhead_intervals_spec (1 # 10) (9 # 10) 10
           [1 # 10; 1 # 2; 9 # 10] [1; 1; 1]).
  - reflexivity.
  - discriminate.
  - reflexivity.
  - reflexivity.
  - repeat constructor; cbn; lra.
Defined.

(** ** Ghost sections of the shell and of the registry *)

Lemma shell_ghost_below_spec (g1 : Q) (s_full : list Q)
    (secs : list XS.CrossSection) :
  forall s, (S s + length secs <= length s_full)%nat ->
  exists out,
    shell_ghost_below g1 s_full s secs = Ok out /\
    length out = length secs /\
    forall k p b, secs !! k = Some p -> s_full !! S (s + k) = Some b ->
      out !! k = Some (if Qltb b g1 then XS.make_ghost p else p).
Proof.
  induction secs as [|c rest IH]; intros s Hlen.
  - exists []. repeat split. intros k p b H; discriminate.
  - cbn [length] in Hlen. cbn [shell_ghost_below].
    destruct (lookup_lt_is_Some_2 s_full (S s) ltac:(lia)) as [x Hx].
    rewrite Hx. cbn [of_option mbind result_bind].
    destruct (IH (S s) ltac:(lia)) as (out & -> & Hl & Hout).
    cbn [mbind result_bind]. eexists. split; [reflexivity|].
    split; [cbn; rewrite Hl; reflexivity|].
    intros [|k] p b Hp Hb.
    + injection Hp as <-. rewrite Nat.add_0_r in Hb.
      assert (b = x) as -> by congruence. reflexivity.
    + cbn in Hp. cbn [lookup list_lookup]. apply (Hout k p b Hp).
      replace (S (S s + k)) with (S (s + S k)) by lia. exact Hb.
Qed.

Lemma shell_ghost_above_spec (g2 : Q) (s_full : list Q)
    (secs : list XS.CrossSection) :
  forall s, (s + length secs <= length s_full)%nat ->
  exists out,
    shell_ghost_above g2 s_full s secs = Ok out /\
    length out = length secs /\
    forall k p a, secs !! k = Some p -> s_full !! (s + k)%nat = Some a ->
      out !! k = Some (if Qltb g2 a then XS.make_ghost p else p).
Proof.
  induction secs as [|c rest IH]; intros s Hlen.
  - exists []. repeat split. intros k p b H; discriminate.
  - cbn [length] in Hlen. cbn [shell_ghost_above].
    destruct (lookup_lt_is_Some_2 s_full s ltac:(lia)) as [x Hx].
    rewrite Hx. cbn [of_option mbind result_bind].
    destruct (IH (S s) ltac:(lia)) as (out & -> & Hl & Hout).
    cbn [mbind result_bind]. eexists. split; [reflexivity|].
    split; [cbn; rewrite Hl; reflexivity|].
    intros [|k] p a Hp Ha.
    + injection Hp as <-. rewrite Nat.add_0_r in Ha.
      assert (a = x) as -> by congruence. reflexivity.
    + cbn in Hp. cbn [lookup list_lookup]. apply (Hout k p a Hp).
      replace (S s + k)%nat with (s + S k)%nat by lia. exact Ha.
Qed.

Lemma shell_sections_lookup (g1 g2 : Q) (s_full : list Q)
    (props : list XS.CrossSection) :
  (S (length props) <= length s_full)%nat ->
  exists secs,
    shell_sections g1 g2 s_full props = Ok secs /\
    length secs = length props /\
    forall k p a b,
      props !! k = Some p -> s_full !! k = Some a -> s_full !! S k = Some b ->
      secs !! k =
      Some (let c1 := if Qltb 0 g1 && Qltb b g1
                      then XS.make_ghost p else p in
            if Qltb g2 1 && Qltb g2 a then XS.make_ghost c1 else c1).
Proof.
  intros Hlen. unfold shell_sections.
  assert (Hlow : exists low,
    (if Qltb 0 g1 then shell_ghost_below g1 s_full 0 props else Ok props)
    = Ok low /\ length low = length props /\
    forall k p b, props !! k = Some p -> s_full !! S k = Some b ->
      low !! k = Some (if Qltb 0 g1 && Qltb b g1
                       then XS.make_ghost p else p)).
  { destruct (Qltb 0 g1).
    - destruct (shell_ghost_below_spec g1 s_full props 0 Hlen)
        as (low & Hrun & Hl & Hout).
      exists low. repeat split; auto.
    - exists props. repeat split; auto. }
  destruct Hlow as (low & -> & Hl & Hlow). cbn [mbind result_bind].
  destruct (Qltb g2 1).
  - destruct (shell_ghost_above_spec g2 s_full low 0 ltac:(lia))
      as (secs & Hrun & Hl2 & Hout).
    exists secs. split; [exact Hrun|]. split; [lia|].
    intros k p a b Hp Ha Hb. cbn zeta. cbn [andb].
    apply (Hout k _ a (Hlow k p b Hp Hb) Ha).
  - exists low. split; [reflexivity|]. split; [exact Hl|].
    intros k p a b Hp Ha Hb. cbn zeta. cbn [andb]. exact (Hlow k p b Hp Hb).
Qed.

(** X28. The ghost sections of [ShellMassCost]: with one section per grid
    interval the two loops return, and section [k], between [s_full[k]]
    and [s_full[k + 1]], is turned into a ghost exactly when its upper end
    lies strictly below [s_ghost1] (and [s_ghost1 > 0]) or its lower end
    strictly above [s_ghost2] (and [s_ghost2 < 1]). *)
Theorem shell_sections_spec (s_ghost1 s_ghost2 : Q) (s_full : list Q)
    (mysections : list XS.CrossSection) :
  length s_full = S (length mysections) ->
  exists secs,
    shell_sections s_ghost1 s_ghost2 s_full mysections = Ok secs /\
    length secs = length mysections /\
    forall k p a b,
      mysections !! k = Some p ->
      s_full !! k = Some a -> s_full !! S k = Some b ->
      secs !! k =
      Some (let c1 := if Qltb 0 s_ghost1 && Qltb b s_ghost1
                      then XS.make_ghost p else p in
            if Qltb s_ghost2 1 && Qltb s_ghost2 a
            then XS.make_ghost c1 else c1).
Proof.
  intros Hlen. apply shell_sections_lookup. lia.
Qed.

Lemma shell_sections_spec_witness :
  exists secs,
    shell_sections (45 # 100) (8 # 10) sample_s_full
      [sample_section 1; sample_section 2; sample_section 3] = Ok secs /\
    length secs
    = length [sample_section 1; sample_section 2; sample_section 3] /\
    forall k p a b,
      [sample_section 1; sample_section 2; sample_section 3] !! k = Some p ->
      sample_s_full !! k = Some a -> sample_s_full !! S k = Some b ->
      secs !! k =
      Some (let c1 := if Qltb 0 (45 # 100) && Qltb b (45 # 100)
                      then XS.make_ghost p else p in
            if Qltb (8 # 10) 1 && Qltb (8 # 10) a
            then XS.make_ghost c1 else c1).
Proof.
  apply (shell_sections_spec (45 # 100) (8 # 10) sample_s_full
           [sample_section 1; sample_section 2; sample_section 3]).
  reflexivity.
Defined.


Lemma ascending_lookup_le_last (l : list Q) (i : nat) (x xl : Q) :
  ascending l = true -> l !! i = Some x -> last l = Some xl -> x <= xl.
Proof.
  intros Hs Hx Hl. rewrite last_lookup in Hl.
  pose proof (lookup_lt_Some _ _ _ Hx) as Hi.
  destruct (Nat.eq_dec i (Nat.pred (length l))) as [-> | Hne].
  - assert (x = xl) as -> by congruence. lra.
  - pose proof (ascending_lookup_lt l i _ x xl Hs Hx Hl ltac:(lia)). lra.
Qed.



(** ** The submerged grid between the ghost limits *)

Lemma ascending_bounds (l : list Q) (first lst : Q) :
  ascending l = true -> l !! 0%nat = Some first -> last l = Some lst ->
  Forall (fun x => first <= x /\ x <= lst) l.
Proof.
  intros Hs Hf Hl. apply Forall_lookup_2. intros i x Hx. split.
  - destruct i as [|i]; [assert (x = first) as -> by congruence; lra|].
    pose proof (ascending_lookup_lt l 0 (S i) first x Hs Hf Hx ltac:(lia)).
    lra.
  - exact (ascending_lookup_le_last l i x lst Hs Hx Hl).
Qed.

Lemma np_unique_Forall (P : Q -> Prop) (l : list Q) :
  (forall x y, x == y -> P x -> P y) ->
  Forall P l -> Forall P (np_unique l).
Proof.
  intros Hcompat Hall. apply List.Forall_forall. intros y Hy.
  assert (Hin : InA Qeq y (np_unique l))
    by (apply In_InA; [apply Q_Setoid | exact Hy]).
  apply (proj1 (np_unique_InA y l)), InA_alt in Hin as (x & He & Hx).
  rewrite List.Forall_forall in Hall.
  apply (Hcompat x y); [symmetry; exact He | exact (Hall _ Hx)].
Qed.

(** X30. The submerged positions after the cut at the ghost limits, for
    ascending positions and [s_ghost1 <= s_ghost2]: the result is strictly
    ascending, none of its points lies outside the ghost limits, and every
    submerged position between the limits is still there. *)
Theorem clip_overlaps_spec (s_ghost1 s_ghost2 : Q) (s_under : list Q) :
  ascending s_under = true -> s_under <> [] -> s_ghost1 <= s_ghost2 ->
  exists out,
    clip_overlaps s_ghost1 s_ghost2 s_under = Ok out /\
    ascending out = true /\
    Forall (fun x => s_ghost1 <= x /\ x <= s_ghost2) out /\
    (forall x, In x s_under -> s_ghost1 <= x -> x <= s_ghost2 ->
               InA Qeq x out).
Proof.
  intros Hs Hne Hg. unfold clip_overlaps.
  destruct s_under as [|first rest] eqn:Hsu; [congruence|].
  rewrite <- Hsu in *. assert (Hf : s_under !! 0%nat = Some first)
    by (rewrite Hsu; reflexivity).
  rewrite Hf. cbn [of_option mbind result_bind].
  set (s_low := if Qltb first s_ghost1
                then np_unique (s_ghost1 :: map (np_maximum s_ghost1) s_under)
                else s_under).
  assert (Hmax : forall x, s_ghost1 <= np_maximum s_ghost1 x /\
                           (s_ghost1 <= x -> np_maximum s_ghost1 x == x)).
  { intros x. unfold np_maximum.
    destruct (Qleb s_ghost1 x) eqn:Hc; qprop; split; intros; lra. }
  assert (Hmin : forall x, np_minimum s_ghost2 x <= s_ghost2 /\
                           (s_ghost1 <= x -> s_ghost1 <= np_minimum s_ghost2 x)
                           /\ (x <= s_ghost2 -> np_minimum s_ghost2 x == x)).
  { intros x. unfold np_minimum.
    destruct (Qleb s_ghost2 x) eqn:Hc; qprop; repeat split; intros; lra. }
  assert (Hlow : ascending s_low = true /\ s_low <> [] /\
                 Forall (fun x => s_ghost1 <= x) s_low /\
                 forall x, In x s_under -> s_ghost1 <= x -> InA Qeq x s_low).
  { unfold s_low. destruct (Qltb first s_ghost1) eqn:Hc.
    - split; [apply np_unique_ascending|].
      split; [apply np_unique_nonempty; discriminate|]. split.
      + apply np_unique_Forall; [intros x y He Hx; lra|].
        constructor; [lra|]. apply List.Forall_forall. intros y Hy.
        apply in_map_iff in Hy as (x & <- & _). apply Hmax.
      + intros x Hx Hge. apply np_unique_InA. right. apply InA_alt.
        exists (np_maximum s_ghost1 x). split.
        * symmetry. apply Hmax, Hge.
        * apply in_map. exact Hx.
    - split; [exact Hs|]. split; [rewrite Hsu; discriminate|]. split.
      + destruct (last s_under) as [lst|] eqn:Hl;
          [|apply last_None in Hl; congruence].
        eapply Forall_impl; [apply (ascending_bounds _ _ _ Hs Hf Hl)|].
        cbn. intros x [Hx _]. qprop. lra.
      + intros x Hx _. apply In_InA; [apply Q_Setoid | exact Hx]. }
  clearbody s_low. destruct Hlow as (Hsl & Hnl & Hge & Hkeep).
  destruct (last s_low) as [lst|] eqn:Hl;
    [|apply last_None in Hl; congruence].
  cbn [of_option mbind result_bind]. eexists. split; [reflexivity|].
  destruct (Qltb s_ghost2 lst) eqn:Hc.
  - split; [apply np_unique_ascending|]. split.
    + apply np_unique_Forall; [intros x y He Hx; lra|].
      apply Forall_app. split.
      * apply List.Forall_forall. intros y Hy.
        apply in_map_iff in Hy as (x & <- & Hx).
        rewrite List.Forall_forall in Hge. specialize (Hge _ Hx).
        destruct (Hmin x) as (H1 & H2 & _). split; [apply H2, Hge | exact H1].
      * constructor; [lra | constructor].
    + intros x Hx H1 H2.
      pose proof (Hkeep x Hx H1) as Hin.
      apply InA_alt in Hin as (y & He & Hy).
      apply np_unique_InA, InA_app_iff. left. apply InA_alt.
      exists (np_minimum s_ghost2 y). split.
      * destruct (Hmin y) as (_ & _ & H3). rewrite H3; [exact He | lra].
      * apply in_map. exact Hy.
  - split; [exact Hsl|]. split.
    + destruct s_low as [|f l] eqn:Hsl'; [congruence|]. rewrite <- Hsl' in *.
      assert (Hf' : s_low !! 0%nat = Some f) by (rewrite Hsl'; reflexivity).
      pose proof (ascending_bounds _ _ _ Hsl Hf' Hl) as Hb.
      apply List.Forall_forall. intros x Hx.
      rewrite List.Forall_forall in Hge, Hb.
      specialize (Hge _ Hx). specialize (Hb _ Hx). qprop. lra.
    + intros x Hx H1 _. exact (Hkeep x Hx H1).
Qed.

Lemma clip_overlaps_spec_witness :
  exists out,
    clip_overlaps (1 # 10) (8 # 10) sample_s_full = Ok out /\
    ascending out = true /\
    Forall (fun x => 1 # 10 <= x /\ x <= 8 # 10) out /\
    (forall x, In x sample_s_full -> 1 # 10 <= x -> x <= 8 # 10 ->
               InA Qeq x out).
Proof.
  apply (clip_overlaps_spec (1 # 10) (8 # 10) sample_s_full).
  - reflexivity.
  - discriminate.
  - discriminate.
Defined.
